(** * The ADR-Manager store (src/plugins/store.js)

    A shallow embedding of the Vue store that holds the global state of the
    ADR-Manager: the added repositories, the record being edited and the
    editing mode, together with the snapshot kept in the browser's local
    storage.

    Objects are mutable and compared by reference in the source
    ([includes], [===], [==] on objects), so repositories and records live
    in two heaps indexed by locations, and the store, the repositories'
    lists and the callers' arguments hold locations.  Every method is a
    computation that takes the whole state and gives back a completion
    (a normal result or a thrown exception) and the state it leaves.

    What the model takes for granted:
    - a repository has a [fullName] and an [activeBranch] that are strings
      and an [adrs] that is an array of objects; no array is shared by two
      objects;
    - the [id] of a record is an integer that a JavaScript number holds;
      [Math.max] is exact and the sum [Math.max(...) + 1] is rounded as a
      double is; numbers stay in the range where [toString] writes every
      digit;
    - the text kept in the local storage under [addedRepositories] is the
      text of an array of repositories, as the store writes it, and is
      represented by the tree it denotes; on a text that is not JSON, or
      not an array, [reload] throws, and such a storage is outside the
      model;
    - the listeners of the two events are not part of the store: an
      emitted event is appended to a log;
    - a location that holds no object reads as an object without
      properties; JavaScript has no such reference, and the states the
      examples run on have none. *)

From Stdlib Require Import ZArith List Bool Ascii String DecimalString.
From stdpp Require Import gmap strings list fin_maps.

Local Open Scope string_scope.
Local Open Scope list_scope.
Local Open Scope Z_scope.

(** ** Data model *)

(** An own property of a JavaScript object: not there at all, there and
    holding [undefined], or there and holding a value.  [_.has] and
    [JSON.stringify] tell the three apart. *)
Inductive property (A : Type) : Type :=
  | Missing
  | Undefined
  | Holds (a : A).
Arguments Missing {A}.
Arguments Undefined {A}.
Arguments Holds {A} a.

(** [_.has(obj, key)]: the key is an own property, whatever it holds. *)
Definition has {A} (p : property A) : bool :=
  match p with Missing => false | _ => true end.

(** Reading a property: [None] stands for [undefined]. *)
Definition read {A} (p : property A) : option A :=
  match p with Holds a => Some a | _ => None end.

Definition loc := positive.

(** An architectural decision record as the store sees it. *)
Record ADR := mkADR {
  originalMd : property string;
  editedMd : property string;
  id : Z;
  path : property string
}.

(** A repository; [addedAdrs] and [deletedAdrs] are created on demand. *)
Record Repository := mkRepository {
  fullName : string;
  activeBranch : string;
  adrs : list loc;
  addedAdrs : option (list loc);
  deletedAdrs : option (list loc)
}.

Global Instance ADR_inhabited : Inhabited ADR :=
  populate (mkADR Missing Missing 0 Missing).
Global Instance Repository_inhabited : Inhabited Repository :=
  populate (mkRepository "" "" [] None None).

(** What [JSON.stringify] writes for a record and for a repository: the
    stored text is represented by the tree it denotes.  A property that is
    missing or holds [undefined] is left out of the text. *)
Record AdrJson := mkAdrJson {
  j_originalMd : option string;
  j_editedMd : option string;
  j_id : Z;
  j_path : option string
}.

Record RepoJson := mkRepoJson {
  j_fullName : string;
  j_activeBranch : string;
  j_adrs : list AdrJson;
  j_addedAdrs : option (list AdrJson);
  j_deletedAdrs : option (list AdrJson)
}.

(** The two slots of the local storage the store uses; [None] is the
    [null] that [getItem] gives for a key never written. *)
Record LocalStorage := mkLocalStorage {
  item_addedRepositories : option (list RepoJson);
  item_mode : option string
}.

(** The events of the store. *)
Inductive Event : Type :=
  | open_adr (adr : loc)
  | set_mode (m : string).

(** The state: both heaps, the data of the Vue instance, the local storage
    and the events emitted so far (oldest first). *)
Record Store := mkStore {
  adrObjects : gmap loc ADR;
  repoObjects : gmap loc Repository;
  currentRepository : option loc;
  currentBranch : option string;
  currentlyEditedAdr : option loc;
  addedRepositories : list loc;
  mode : string;
  this_activeBranch : option string;
  localStorage : LocalStorage;
  emitted : list Event
}.

Definition adrAt (s : Store) (l : loc) : ADR := adrObjects s !!! l.
Definition repoAt (s : Store) (l : loc) : Repository := repoObjects s !!! l.

(** Field updates. *)
Definition set_adrObjects (h : gmap loc ADR) (s : Store) : Store :=
  mkStore h (repoObjects s) (currentRepository s) (currentBranch s)
    (currentlyEditedAdr s) (addedRepositories s) (mode s)
    (this_activeBranch s) (localStorage s) (emitted s).
Definition set_repoObjects (h : gmap loc Repository) (s : Store) : Store :=
  mkStore (adrObjects s) h (currentRepository s) (currentBranch s)
    (currentlyEditedAdr s) (addedRepositories s) (mode s)
    (this_activeBranch s) (localStorage s) (emitted s).
Definition set_currentRepository (r : option loc) (s : Store) : Store :=
  mkStore (adrObjects s) (repoObjects s) r (currentBranch s)
    (currentlyEditedAdr s) (addedRepositories s) (mode s)
    (this_activeBranch s) (localStorage s) (emitted s).
Definition set_currentBranch (b : option string) (s : Store) : Store :=
  mkStore (adrObjects s) (repoObjects s) (currentRepository s) b
    (currentlyEditedAdr s) (addedRepositories s) (mode s)
    (this_activeBranch s) (localStorage s) (emitted s).
Definition set_currentlyEditedAdr (a : option loc) (s : Store) : Store :=
  mkStore (adrObjects s) (repoObjects s) (currentRepository s)
    (currentBranch s) a (addedRepositories s) (mode s)
    (this_activeBranch s) (localStorage s) (emitted s).
Definition set_addedRepositories (rs : list loc) (s : Store) : Store :=
  mkStore (adrObjects s) (repoObjects s) (currentRepository s)
    (currentBranch s) (currentlyEditedAdr s) rs (mode s)
    (this_activeBranch s) (localStorage s) (emitted s).
Definition set_mode_field (m : string) (s : Store) : Store :=
  mkStore (adrObjects s) (repoObjects s) (currentRepository s)
    (currentBranch s) (currentlyEditedAdr s) (addedRepositories s) m
    (this_activeBranch s) (localStorage s) (emitted s).
Definition set_this_activeBranch (b : option string) (s : Store) : Store :=
  mkStore (adrObjects s) (repoObjects s) (currentRepository s)
    (currentBranch s) (currentlyEditedAdr s) (addedRepositories s) (mode s)
    b (localStorage s) (emitted s).
Definition set_localStorage (ls : LocalStorage) (s : Store) : Store :=
  mkStore (adrObjects s) (repoObjects s) (currentRepository s)
    (currentBranch s) (currentlyEditedAdr s) (addedRepositories s) (mode s)
    (this_activeBranch s) ls (emitted s).
Definition emit (e : Event) (s : Store) : Store :=
  mkStore (adrObjects s) (repoObjects s) (currentRepository s)
    (currentBranch s) (currentlyEditedAdr s) (addedRepositories s) (mode s)
    (this_activeBranch s) (localStorage s) (emitted s ++ [e]).

(** Writing a whole object back to its heap cell. *)
Definition writeAdr (l : loc) (a : ADR) (s : Store) : Store :=
  set_adrObjects (<[l := a]> (adrObjects s)) s.
Definition writeRepo (l : loc) (r : Repository) (s : Store) : Store :=
  set_repoObjects (<[l := r]> (repoObjects s)) s.

(** ** Completions and the store monad *)

Inductive exn : Type :=
  | ThrownString (msg : string)
  | TypeError.

Inductive completion (A : Type) : Type :=
  | Normal (a : A)
  | Abrupt (e : exn).
Arguments Normal {A} a.
Arguments Abrupt {A} e.

Definition M (A : Type) : Type := Store -> completion A * Store.

Definition ret {A} (a : A) : M A := fun s => (Normal a, s).
Definition throw {A} (e : exn) : M A := fun s => (Abrupt e, s).
Definition bind {A B} (m : M A) (k : A -> M B) : M B :=
  fun s => match m s with
           | (Normal a, s') => k a s'
           | (Abrupt e, s') => (Abrupt e, s')
           end.
Definition modify (f : Store -> Store) : M unit := fun s => (Normal tt, f s).
Definition gets {A} (f : Store -> A) : M A := fun s => (Normal (f s), s).

Global Instance M_ret : MRet M := @ret.
Global Instance M_bind : MBind M := fun A B k m => bind m k.

(** The state a computation leaves, and its completion. *)
Definition exec {A} (m : M A) (s : Store) : Store := snd (m s).
Definition outcome {A} (m : M A) (s : Store) : completion A := fst (m s).

(** ** Array methods used by the store *)

(** [arr.includes(x)] on an array of objects; [x] is an object or
    [undefined] ([None]), and no object is [undefined]. *)
Definition includes (arr : list loc) (x : option loc) : bool :=
  match x with
  | Some l => existsb (Pos.eqb l) arr
  | None => false
  end.

Definition includes_string (arr : list string) (x : string) : bool :=
  existsb (String.eqb x) arr.

(** [arr.findIndex(f)]: the first index whose element satisfies [f],
    or [-1]. *)
Fixpoint findIndex {A} (f : A -> bool) (arr : list A) : Z :=
  match arr with
  | [] => -1
  | x :: rest =>
      if f x then 0
      else let i := findIndex f rest in if i <? 0 then -1 else i + 1
  end.

(** [arr[i]] for an integer index: [undefined] out of range. *)
Definition at_index {A} (arr : list A) (i : Z) : option A :=
  if i <? 0 then None else nth_error arr (Z.to_nat i).

(** [arr.splice(start, deleteCount, ...items)]: a negative [start] counts
    from the end, both numbers are clamped to the array.  Gives the removed
    elements and the array as it is afterwards. *)
Definition splice {A} (arr : list A) (start deleteCount : Z) (items : list A)
  : list A * list A :=
  let len := Z.of_nat (length arr) in
  let actualStart :=
    if start <? 0 then Z.max (len + start) 0 else Z.min start len in
  let actualDeleteCount :=
    Z.min (Z.max deleteCount 0) (len - actualStart) in
  let a := Z.to_nat actualStart in
  let d := Z.to_nat actualDeleteCount in
  (firstn d (skipn a arr), firstn a arr ++ items ++ skipn (a + d) arr).

(** Truthiness of a value that is an object or [undefined]. *)
Definition truthy {A} (o : option A) : bool :=
  match o with Some _ => true | None => false end.

(** [a === b] for two values that are each an object or [undefined]. *)
Definition same_ref (a b : option loc) : bool := bool_decide (a = b).

(** [Math.max(...xs, -1)]: exact, being one of its arguments. *)
Definition Math_max_or_minus_one (xs : list Z) : Z := fold_right Z.max (-1) xs.

(** A JavaScript number is a double.  An integer below [2 ^ 53] in
    absolute value is a number as it stands; a greater one is rounded to
    the nearest integer whose mantissa has 53 bits, a tie going to the even
    mantissa.  (The overflow to [Infinity], from [2 ^ 1024] on, is left
    out.) *)
Definition toNumber (n : Z) : Z :=
  let a := Z.abs n in
  if a <? 9007199254740992 then n
  else
    let ulp := 2 ^ (Z.log2 a - 52) in
    let q := a / ulp in
    let r := a mod ulp in
    let up := (ulp <? 2 * r) || ((2 * r =? ulp) && Z.odd q) in
    Z.sgn n * ((if up then q + 1 else q) * ulp).

(** [x + y] on two numbers that are integers: the sum, rounded as a double
    is. *)
Definition Number_add (x y : Z) : Z := toNumber (x + y).

(** [n.toString()] for an integer below [10 ^ 21] in absolute value, where
    JavaScript writes every digit; from [10 ^ 21] on it writes an exponent,
    which is not modelled. *)
Definition toString (n : Z) : string := NilZero.string_of_int (Z.to_int n).

Fixpoint repeat_string (n : nat) (p : string) : string :=
  match n with
  | O => ""
  | S k => p +:+ repeat_string k p
  end.

(** [s.padStart(targetLength, padString)]. *)
Definition padStart (targetLength : nat) (padString s : string) : string :=
  let len := String.length s in
  if (targetLength <=? len)%nat then s
  else if String.eqb padString "" then s
  else
    let fillLen := (targetLength - len)%nat in
    String.substring 0 fillLen (repeat_string fillLen padString) +:+ s.

(** ** Local storage and JSON *)

Definition setItem_addedRepositories (v : list RepoJson) (ls : LocalStorage)
  : LocalStorage := mkLocalStorage (Some v) (item_mode ls).
Definition setItem_mode (v : string) (ls : LocalStorage) : LocalStorage :=
  mkLocalStorage (item_addedRepositories ls) (Some v).

Definition stringifyAdr (s : Store) (l : loc) : AdrJson :=
  let a := adrAt s l in
  mkAdrJson (read (originalMd a)) (read (editedMd a)) (id a) (read (path a)).

Definition stringifyRepo (s : Store) (l : loc) : RepoJson :=
  let r := repoAt s l in
  mkRepoJson (fullName r) (activeBranch r)
    (map (stringifyAdr s) (adrs r))
    (option_map (map (stringifyAdr s)) (addedAdrs r))
    (option_map (map (stringifyAdr s)) (deletedAdrs r)).

(** [JSON.stringify(repos)] for an array of repositories. *)
Definition JSON_stringify (s : Store) (repos : list loc) : list RepoJson :=
  map (stringifyRepo s) repos.

(** [JSON.parse] builds new objects: each one is put at a location that
    is not in use. *)
Definition allocAdr (a : ADR) : M loc :=
  fun s => let l := fresh (dom (adrObjects s)) in (Normal l, writeAdr l a s).
Definition allocRepo (r : Repository) : M loc :=
  fun s => let l := fresh (dom (repoObjects s)) in (Normal l, writeRepo l r s).

Definition parsed_property {A} (o : option A) : property A :=
  match o with Some a => Holds a | None => Missing end.

Definition parseAdr (j : AdrJson) : M loc :=
  allocAdr (mkADR (parsed_property (j_originalMd j))
                (parsed_property (j_editedMd j)) (j_id j)
                (parsed_property (j_path j))).

Fixpoint parseAdrs (js : list AdrJson) : M (list loc) :=
  match js with
  | [] => mret []
  | j :: rest => l ← parseAdr j; ls ← parseAdrs rest; mret (l :: ls)
  end.

Definition parseOptionalAdrs (js : option (list AdrJson))
  : M (option (list loc)) :=
  match js with
  | None => mret None
  | Some l => ls ← parseAdrs l; mret (Some ls)
  end.

Definition parseRepo (j : RepoJson) : M loc :=
  a ← parseAdrs (j_adrs j);
  added ← parseOptionalAdrs (j_addedAdrs j);
  deleted ← parseOptionalAdrs (j_deletedAdrs j);
  allocRepo (mkRepository (j_fullName j) (j_activeBranch j) a added deleted).

(** [JSON.parse(text)] for the text of an array of repositories, the only
    texts the store writes.  (On a text that is not JSON [JSON.parse]
    throws a [SyntaxError], and on a value that is not an array
    [isValidRepoList] throws a [TypeError]; the type of the slot leaves
    these texts out.) *)
Fixpoint JSON_parse (js : list RepoJson) : M (list loc) :=
  match js with
  | [] => mret []
  | j :: rest => l ← parseRepo j; ls ← JSON_parse rest; mret (l :: ls)
  end.

(** ** The validity checks *)

Definition isValidAdr (s : Store) (adr : option loc) : bool :=
  match adr with
  | None => false
  | Some l =>
      has (originalMd (adrAt s l)) && has (editedMd (adrAt s l))
      && has (path (adrAt s l))
  end.

(** ** The methods of the store *)

Definition updateLocalStorageRepositories : M unit :=
  modify (fun s =>
    set_localStorage
      (setItem_addedRepositories (JSON_stringify s (addedRepositories s))
         (localStorage s)) s).

Definition openAdr (adr : option loc) : M unit :=
  cur ← gets currentlyEditedAdr;
  if negb (same_ref adr cur) then
    repo ← gets (fun s =>
      List.find (fun repo => includes (adrs (repoAt s repo)) adr)
        (addedRepositories s));
    valid ← gets (fun s => isValidAdr s adr);
    match valid, repo, adr with
    | true, Some r, Some a =>
        modify (set_currentRepository (Some r));;
        modify (fun s =>
          set_currentBranch (Some (activeBranch (repoAt s r))) s);;
        modify (set_currentlyEditedAdr (Some a));;
        modify (emit (open_adr a))
    | _, _, _ => mret tt
    end
  else mret tt.

Definition openAnyAdr : M unit :=
  reposWithAdrs ← gets (fun s =>
    List.filter (fun repo => truthy (at_index (adrs (repoAt s repo)) 0))
      (addedRepositories s));
  match reposWithAdrs with
  | r0 :: _ =>
      someAdr ← gets (fun s => at_index (adrs (repoAt s r0)) 0);
      openAdr someAdr
  | [] => mret tt
  end.

Definition assertSomeAdrIsOpened : M unit :=
  stale ← gets (fun s =>
    same_ref (currentlyEditedAdr s) None
    || negb (isValidAdr s (currentlyEditedAdr s))
    || negb (existsb (fun repo =>
               includes (adrs (repoAt s repo)) (currentlyEditedAdr s))
             (addedRepositories s)));
  if (stale : bool) then
    modify (set_currentlyEditedAdr None);;
    modify (set_currentRepository None);;
    modify (set_currentBranch None);;
    openAnyAdr
  else mret tt.

Definition already_added_message (names : list string) : string :=
  "I won't add an already added repository to the store! "
  +:+ String.concat ", " names.

Definition addRepositories (repoList : list loc) : M unit :=
  alreadyAddedRepos ← gets (fun s =>
    List.filter (fun repoToAdd =>
      includes_string
        (map (fun repo => fullName (repoAt s repo)) (addedRepositories s))
        (fullName (repoAt s repoToAdd)))
      repoList);
  names ← gets (fun s =>
    map (fun repo => fullName (repoAt s repo)) alreadyAddedRepos);
  (if (0 <? length alreadyAddedRepos)%nat
   then throw (ThrownString (already_added_message names))
   else mret tt);;
  modify (fun s => set_addedRepositories (addedRepositories s ++ repoList) s);;
  updateLocalStorageRepositories;;
  assertSomeAdrIsOpened.

Definition removeRepository (repoToRemove : loc) : M unit :=
  modify (fun s =>
    set_addedRepositories
      (List.filter (fun repo =>
         negb (String.eqb (fullName (repoAt s repo))
                          (fullName (repoAt s repoToRemove))))
         (addedRepositories s)) s);;
  assertSomeAdrIsOpened;;
  updateLocalStorageRepositories.

Definition updateRepository (updatedRepository : loc) : M unit :=
  index ← gets (fun s =>
    findIndex (fun repo =>
      String.eqb (fullName (repoAt s repo))
                 (fullName (repoAt s updatedRepository)))
      (addedRepositories s));
  oldRepo ← gets (fun s => at_index (addedRepositories s) index);
  modify (fun s =>
    set_addedRepositories
      (snd (splice (addedRepositories s) index 1 [updatedRepository])) s);;
  match oldRepo with
  | None => throw TypeError
  | Some old =>
      inOld ← gets (fun s =>
        includes (adrs (repoAt s old)) (currentlyEditedAdr s));
      (if (inOld : bool) then
         cur ← gets currentlyEditedAdr;
         match cur with
         | None => throw TypeError
         | Some c =>
             found ← gets (fun s =>
               List.find (fun adr =>
                 bool_decide (read (path (adrAt s adr))
                              = read (path (adrAt s c))))
                 (adrs (repoAt s updatedRepository)));
             openAdr found
         end
       else mret tt);;
      updateLocalStorageRepositories
  end.

Definition setActiveBranch (branch : string) : M unit :=
  modify (set_this_activeBranch (Some branch)).

(** [s.split(c)] for a separator of one character: never empty. *)
Fixpoint split_char (c : ascii) (s : string) : list string :=
  match s with
  | EmptyString => [""]
  | String a rest =>
      if Ascii.eqb a c then "" :: split_char c rest
      else match split_char c rest with
           | seg :: segs => String a seg :: segs
           | [] => [String a ""]
           end
  end.

(** [s.replace(/^#+/, '')]. *)
Fixpoint strip_leading_hashes (s : string) : string :=
  match s with
  | String a rest =>
      if Ascii.eqb a "#"%char then strip_leading_hashes rest else s
  | EmptyString => s
  end.

(** [arr.find(f)] for a callback that may throw. *)
Fixpoint find_or_throw {A} (f : A -> completion bool) (arr : list A)
  : completion (option A) :=
  match arr with
  | [] => Normal None
  | x :: rest =>
      match f x with
      | Normal true => Normal (Some x)
      | Normal false => find_or_throw f rest
      | Abrupt e => Abrupt e
      end
  end.

(** [adr.path.split('/').pop() === adrName]; a record without a path
    makes [split] throw. *)
Definition has_file_name (s : Store) (adrName : string) (adr : loc)
  : completion bool :=
  match read (path (adrAt s adr)) with
  | Some p => Normal (bool_decide (last (split_char "/"%char p) = Some adrName))
  | None => Abrupt TypeError
  end.

Definition openAdrBy (repoFullName adrName : string) : M (option loc) :=
  repo ← gets (fun s =>
    List.find (fun repo => String.eqb (fullName (repoAt s repo)) repoFullName)
      (addedRepositories s));
  adr ← match repo with
        | Some r =>
            fun s =>
              (find_or_throw (has_file_name s adrName) (adrs (repoAt s r)), s)
        | None => mret None
        end;
  match adr with
  | Some a => openAdr (Some a);; mret (Some a)
  | None => mret None
  end.

Definition set_adrs (l : list loc) (r : Repository) : Repository :=
  mkRepository (fullName r) (activeBranch r) l (addedAdrs r) (deletedAdrs r).
Definition set_addedAdrs (l : option (list loc)) (r : Repository)
  : Repository :=
  mkRepository (fullName r) (activeBranch r) (adrs r) l (deletedAdrs r).
Definition set_deletedAdrs (l : option (list loc)) (r : Repository)
  : Repository :=
  mkRepository (fullName r) (activeBranch r) (adrs r) (addedAdrs r) l.
Definition set_editedMd (p : property string) (a : ADR) : ADR :=
  mkADR (originalMd a) p (id a) (path a).
Definition set_path (p : property string) (a : ADR) : ADR :=
  mkADR (originalMd a) (editedMd a) (id a) p.

(** Mutating an object in place. *)
Definition updateAdrObject (l : loc) (f : ADR -> ADR) : M unit :=
  modify (fun s => writeAdr l (f (adrAt s l)) s).
Definition updateRepoObject (l : loc) (f : Repository -> Repository)
  : M unit :=
  modify (fun s => writeRepo l (f (repoAt s l)) s).

Definition deleteAdr (adr : option loc) (repo : loc) : M unit :=
  adrIndex ← gets (fun s =>
    findIndex (fun adrEl => same_ref (Some adrEl) adr) (adrs (repoAt s repo)));
  absent ← gets (fun s => negb (truthy (deletedAdrs (repoAt s repo))));
  (if (absent : bool) then updateRepoObject repo (set_deletedAdrs (Some []))
   else mret tt);;
  removed ← gets (fun s => fst (splice (adrs (repoAt s repo)) adrIndex 1 []));
  updateRepoObject repo
    (fun r => set_adrs (snd (splice (adrs r) adrIndex 1 [])) r);;
  (* the array made by [concat] is dropped *)
  _ ← gets (fun s => default [] (deletedAdrs (repoAt s repo)) ++ removed);
  assertSomeAdrIsOpened.

Definition setMode (m : string) : M unit :=
  if includes_string ["basic"; "advanced"; "professional"] m then
    modify (set_mode_field m);;
    modify (fun s => set_localStorage (setItem_mode m (localStorage s)) s);;
    modify (emit (set_mode m))
  else mret tt.

Section Collaborators.

(** What the store imports from [./classes] and [./parser], and the
    built-in [String.prototype.trim]. *)

(** [adr2md(new ArchitecturalDecisionRecord())]: the text of an empty
    record. *)
Variable adr2md_of_new_record : string.

Variable naturalCase2snakeCase : string -> string.

Variable trim : string -> string.

(** [repo instanceof Repository] where [isValidRepoList] asks it, that is
    on the objects [JSON.parse] has just built. *)
Variable instanceof_Repository : Repository -> bool.

Definition new_adr_path (i : Z) : string :=
  "docs/adr/" +:+ padStart 4 "0" (toString i) +:+ "-unnamed.md".

Definition createNewAdr (repo : loc) : M (option loc) :=
  added ← gets (fun s => includes (addedRepositories s) (Some repo));
  if (added : bool) then
    let md := adr2md_of_new_record in
    i ← gets (fun s =>
      Number_add
        (Math_max_or_minus_one
           (map (fun adr => id (adrAt s adr)) (adrs (repoAt s repo)))) 1);
    newAdr ← allocAdr (mkADR Undefined (Holds md) i (Holds (new_adr_path i)));
    updateRepoObject repo (fun r => set_adrs (adrs r ++ [newAdr]) r);;
    absent ← gets (fun s => negb (truthy (addedAdrs (repoAt s repo))));
    (if (absent : bool) then updateRepoObject repo (set_addedAdrs (Some []))
     else mret tt);;
    l ← gets (fun s => addedAdrs (repoAt s repo));
    match l with
    | Some l => updateRepoObject repo (set_addedAdrs (Some (l ++ [newAdr])))
    | None => throw TypeError
    end;;
    mret (Some newAdr)
  else
    updateLocalStorageRepositories;;
    mret None.

Definition updateMdOfCurrentAdr (md : string) : M unit :=
  cur ← gets currentlyEditedAdr;
  match cur with
  | None => throw TypeError
  | Some c =>
      updateAdrObject c (set_editedMd (Holds md));;
      rename ← gets (fun s =>
        match currentRepository s with
        | Some r =>
            match addedAdrs (repoAt s r) with
            | Some l => includes l (Some c)
            | None => false
            end
        | None => false
        end);
      (if (rename : bool) then
         p ← gets (fun s => read (path (adrAt s c)));
         match p with
         | None => throw TypeError
         | Some p =>
             let segments := split_char "/"%char p in
             let title :=
               trim (strip_leading_hashes
                       (default "" (head (split_char "010"%char md)))) in
             i ← gets (fun s => id (adrAt s c));
             let name :=
               padStart 4 "0" (toString i) +:+ "-"
               +:+ naturalCase2snakeCase title +:+ ".md" in
             updateAdrObject c
               (set_path
                  (Holds (String.concat "/" (removelast segments ++ [name]))))
         end
       else mret tt);;
      updateLocalStorageRepositories
  end.

Definition isValidRepoList (s : Store) (repos : list loc) : bool :=
  forallb (fun repo =>
    instanceof_Repository (repoAt s repo)
    && forallb (fun adr => isValidAdr s (Some adr)) (adrs (repoAt s repo)))
    repos.

Definition reload : M unit :=
  addedRepos ← gets (fun s => item_addedRepositories (localStorage s));
  match addedRepos with
  | Some text =>
      parsed ← JSON_parse text;
      valid ← gets (fun s => isValidRepoList s parsed);
      if (valid : bool) then addRepositories parsed else mret tt
  | None => mret tt
  end;;
  stored ← gets (fun s => item_mode (localStorage s));
  modify (set_mode_field
            (match stored with
             | Some m => if String.eqb m "" then "basic" else m
             | None => "basic"
             end)).

End Collaborators.

(** * The vocabulary of the statements *)

(** ** What the methods do, in closed form *)

Definition recognized_modes : list string :=
  ["basic"; "advanced"; "professional"].

(** The first added repository whose [adrs] holds the record. *)
Definition containing (s : Store) (adr : option loc) : option loc :=
  List.find (fun repo => includes (adrs (repoAt s repo)) adr)
    (addedRepositories s).

(** The state once record [a] of repository [r] has been opened. *)
Definition opened (r a : loc) (s : Store) : Store :=
  mkStore (adrObjects s) (repoObjects s) (Some r)
    (Some (activeBranch (repoAt s r))) (Some a) (addedRepositories s)
    (mode s) (this_activeBranch s) (localStorage s)
    (emitted s ++ [open_adr a]).

(** The test of [assertSomeAdrIsOpened]: nothing is open, or what is open
    is not a valid record, or no added repository holds it. *)
Definition stale (s : Store) : bool :=
  same_ref (currentlyEditedAdr s) None
  || negb (isValidAdr s (currentlyEditedAdr s))
  || negb (existsb (fun repo =>
             includes (adrs (repoAt s repo)) (currentlyEditedAdr s))
           (addedRepositories s)).

(** The state with the three selection fields reset to [undefined]. *)
Definition cleared (s : Store) : Store :=
  mkStore (adrObjects s) (repoObjects s) None None None
    (addedRepositories s) (mode s) (this_activeBranch s) (localStorage s)
    (emitted s).

(** The record [openAnyAdr] picks: the first one of the first added
    repository that has any. *)
Definition firstAdr (s : Store) : option loc :=
  match List.filter
          (fun repo => truthy (at_index (adrs (repoAt s repo)) 0))
          (addedRepositories s) with
  | r0 :: _ => at_index (adrs (repoAt s r0)) 0
  | [] => None
  end.

(** [needle] occurs somewhere in [hay]. *)
Definition occurs_in (needle hay : string) : Prop :=
  exists before after, hay = before +:+ needle +:+ after.

(** The incoming repositories whose name is already taken, as
    [addRepositories] filters them. *)
Definition alreadyAdded (s : Store) (repoList : list loc) : list loc :=
  List.filter (fun repoToAdd =>
    includes_string
      (map (fun repo => fullName (repoAt s repo)) (addedRepositories s))
      (fullName (repoAt s repoToAdd)))
    repoList.

(** The state after the incoming repositories were appended and the
    snapshot written, before the selection is repaired. *)
Definition appended (s : Store) (repoList : list loc) : Store :=
  let s1 := set_addedRepositories (addedRepositories s ++ repoList) s in
  set_localStorage
    (setItem_addedRepositories (JSON_stringify s1 (addedRepositories s1))
       (localStorage s1)) s1.

(** The state once the snapshot of [addedRepositories] has been written. *)
Definition persisted (s : Store) : Store :=
  set_localStorage
    (setItem_addedRepositories (JSON_stringify s (addedRepositories s))
       (localStorage s)) s.

(** The added repositories that [removeRepository(r)] keeps. *)
Definition remaining (s : Store) (r : loc) : list loc :=
  List.filter (fun repo =>
    negb (String.eqb (fullName (repoAt s repo)) (fullName (repoAt s r))))
    (addedRepositories s).

(** The repository object as [deleteAdr] leaves it. *)
Definition spliced (s : Store) (adr : option loc) (repo : loc) : Repository :=
  let r := repoAt s repo in
  mkRepository (fullName r) (activeBranch r)
    (snd (splice (adrs r)
            (findIndex (fun adrEl => same_ref (Some adrEl) adr) (adrs r))
            1 []))
    (addedAdrs r)
    (Some (default [] (deletedAdrs r))).

(** The identifier [createNewAdr] gives to the next record of [repo]. *)
Definition nextId (s : Store) (repo : loc) : Z :=
  Number_add
    (Math_max_or_minus_one
       (map (fun adr => id (adrAt s adr)) (adrs (repoAt s repo)))) 1.

(** [Number.MAX_SAFE_INTEGER], that is [2 ^ 53 - 1]: up to it, adding one
    to an integer is exact. *)
Definition MAX_SAFE_INTEGER : Z := 9007199254740991.

(** The identifiers of the records the repository lists. *)
Definition identifiers (s : Store) (repo : loc) : list Z :=
  map (fun adr => id (adrAt s adr)) (adrs (repoAt s repo)).

(** The state a successful [createNewAdr(repo)] leaves. *)
Definition created (md : string) (s : Store) (repo : loc) : Store :=
  let r := repoAt s repo in
  let newAdr := fresh (dom (adrObjects s)) in
  writeRepo repo
    (mkRepository (fullName r) (activeBranch r) (adrs r ++ [newAdr])
       (Some (default [] (addedAdrs r) ++ [newAdr])) (deletedAdrs r))
    (writeAdr newAdr
       (mkADR Undefined (Holds md) (nextId s repo)
          (Holds (new_adr_path (nextId s repo)))) s).

(** [m] is the greatest element of [xs]. *)
Definition is_maximum (m : Z) (xs : list Z) : Prop :=
  In m xs /\ Forall (fun x => x <= m) xs.

(** The four decimal digits of a number below 10000, written out from the
    wording of the pattern [NNNN]. *)
Definition decimal_digit (n : Z) : ascii :=
  ascii_of_nat (48 + Z.to_nat (n mod 10)).
Definition four_digits (n : Z) : string :=
  String (decimal_digit (n / 1000))
    (String (decimal_digit (n / 100))
       (String (decimal_digit (n / 10)) (String (decimal_digit n) ""))).

(** The integers [from], [from + 1], ... ([count] of them). *)
Fixpoint upto (count : nat) (from : Z) : list Z :=
  match count with
  | O => []
  | S k => from :: upto k (from + 1)
  end.

(** Everything in the state but the two heaps. *)
Definition data (s : Store) :=
  (currentRepository s, currentBranch s, currentlyEditedAdr s,
   addedRepositories s, mode s, this_activeBranch s, localStorage s,
   emitted s).

(** [s'] has all the objects of [s], unchanged, and the same data. *)
Definition extends (s s' : Store) : Prop :=
  adrObjects s ⊆ adrObjects s' /\ repoObjects s ⊆ repoObjects s'
  /\ data s' = data s.

(** The object [JSON.parse] builds for the text of a record. *)
Definition adr_of_json (j : AdrJson) : ADR :=
  mkADR (parsed_property (j_originalMd j)) (parsed_property (j_editedMd j))
    (j_id j) (parsed_property (j_path j)).

(** The records at [ls] are the ones the texts [js] denote. *)
Definition records_parsed (s : Store) (ls : list loc) (js : list AdrJson)
  : Prop :=
  Forall2 (fun l j => adrObjects s !! l = Some (adr_of_json j)) ls js.

(** The repository at [l] is the one the text [j] denotes. *)
Definition repo_parsed (s : Store) (l : loc) (j : RepoJson) : Prop :=
  exists r, repoObjects s !! l = Some r
            /\ fullName r = j_fullName j
            /\ activeBranch r = j_activeBranch j
            /\ records_parsed s (adrs r) (j_adrs j).

(** The store as it is when the page is loaded, before [created] runs
    [reload], over a given local storage. *)
Definition freshStore (ls : LocalStorage) : Store :=
  mkStore ∅ ∅ None None None [] "basic" None ls [].

(** The local storage once the store has written both of its slots: the
    snapshot as [updateLocalStorageRepositories] writes it and the mode as
    [setMode] writes it. *)
Definition serialized (s : Store) : LocalStorage :=
  setItem_mode (mode s) (localStorage (exec updateLocalStorageRepositories s)).

(** Equality of two records by path, identifier and both texts. *)
Definition same_record (a b : ADR) : Prop :=
  path a = path b /\ id a = id b /\ originalMd a = originalMd b
  /\ editedMd a = editedMd b.

(** Equality of two repositories by full name and, record by record, by
    [same_record]. *)
Definition same_repository (s s' : Store) (r r' : loc) : Prop :=
  fullName (repoAt s r) = fullName (repoAt s' r')
  /\ Forall2 (fun a a' => same_record (adrAt s a) (adrAt s' a'))
       (adrs (repoAt s r)) (adrs (repoAt s' r')).

Definition equivalent (s s' : Store) : Prop :=
  Forall2 (same_repository s s') (addedRepositories s) (addedRepositories s')
  /\ mode s = mode s'.

(** Whether the stored snapshot passes [isValidRepoList], as [reload]
    finds out on a fresh store. *)
Definition stored_data_valid (instanceof_Repository : Repository -> bool)
  (ls : LocalStorage) : bool :=
  match item_addedRepositories ls with
  | Some text =>
      match JSON_parse text (freshStore ls) with
      | (Normal parsed, s1) => isValidRepoList instanceof_Repository s1 parsed
      | (Abrupt _, _) => false
      end
  | None => false
  end.

(** ** The selection invariant *)

(** When a record is open it is a valid one, some added repository holds
    it, that repository is the current one and the current branch is its
    active branch. *)
Definition selection_invariant (s : Store) : Prop :=
  forall a, currentlyEditedAdr s = Some a ->
    isValidAdr s (Some a) = true
    /\ exists r, In r (addedRepositories s) /\ In a (adrs (repoAt s r))
                 /\ currentRepository s = Some r
                 /\ currentBranch s = Some (activeBranch (repoAt s r)).

(** The open record is listed by at most one added repository. *)
Definition exclusively_listed (s : Store) : Prop :=
  forall a r1 r2,
    currentlyEditedAdr s = Some a ->
    In r1 (addedRepositories s) -> In r2 (addedRepositories s) ->
    In a (adrs (repoAt s r1)) -> In a (adrs (repoAt s r2)) -> r1 = r2.

(** ** References that hold no object *)

Definition allocatedAdr (s : Store) (l : loc) : bool :=
  bool_decide (is_Some (adrObjects s !! l)).
Definition allocatedRepo (s : Store) (l : loc) : bool :=
  bool_decide (is_Some (repoObjects s !! l)).

(** Every location the store or a repository holds is the location of an
    object. *)
Definition no_dangling_reference (s : Store) : bool :=
  forallb (allocatedRepo s) (addedRepositories s)
  && forallb (allocatedRepo s) (option_list (currentRepository s))
  && forallb (allocatedAdr s) (option_list (currentlyEditedAdr s))
  && forallb (fun entry =>
       forallb (allocatedAdr s)
         (adrs entry.2 ++ default [] (addedAdrs entry.2)
          ++ default [] (deletedAdrs entry.2)))
       (map_to_list (repoObjects s)).

(** ** A small world of objects *)

(** Three records and five repositories as a caller may have built them;
    record 2 was never given an [originalMd]. *)
Definition sample_records : gmap loc ADR :=
  <[1%positive := mkADR (Holds "x") (Holds "x") 0
                    (Holds "docs/adr/0000-init.md")]>
  (<[2%positive := mkADR Missing (Holds "y") 3 (Holds "docs/adr/0003-b.md")]>
  (<[3%positive := mkADR (Holds "z") (Holds "z") 1
                     (Holds "docs/adr/0001-other.md")]> ∅)).

Definition sample_repositories : gmap loc Repository :=
  <[1%positive := mkRepository "org/repo" "main" [1%positive] None None]>
  (<[2%positive := mkRepository "org/two" "dev" [2%positive] None None]>
  (<[3%positive := mkRepository "org/repo" "main" [3%positive] None None]>
  (<[4%positive := mkRepository "org/three" "trunk" [3%positive] None None]>
  (<[5%positive := mkRepository "org/empty" "main" [] None None]> ∅)))).

(** The store of a first visit: nothing stored, nothing added. *)
Definition first_visit : Store :=
  mkStore sample_records sample_repositories None None None [] "basic" None
    (mkLocalStorage None None) [].

(** ... after [addRepositories([repo 1])]: record 1 is open. *)
Definition one_added : Store :=
  exec (addRepositories [1%positive]) first_visit.

(** ... after [addRepositories([repo 1, repo 2])]: record 1 is open. *)
Definition two_added : Store :=
  exec (addRepositories [1%positive; 2%positive]) first_visit.

(** ... after [addRepositories([repo 1, repo 4, repo 5])]. *)
Definition three_added : Store :=
  exec (addRepositories [1%positive; 4%positive; 5%positive]) first_visit.

(** ... after [addRepositories([repo 3, repo 4])]: both repositories list
    record 3, which is open as a record of repository 3. *)
Definition shared_added : Store :=
  exec (addRepositories [3%positive; 4%positive]) first_visit.

(** ** Three claims, as they are worded *)

(** What C5 says of the identifier: [createNewAdr] on an added repository
    gives 0 when the repository has no record, and otherwise one more than
    the greatest identifier of its records. *)
Definition numbered_after_greatest (md : string) (s : Store) (repo : loc)
  : Prop :=
  In repo (addedRepositories s) ->
  exists newAdr s',
    createNewAdr md repo s = (Normal (Some newAdr), s')
    /\ (identifiers s repo = [] -> id (adrAt s' newAdr) = 0)
    /\ (identifiers s repo <> [] ->
        is_maximum (id (adrAt s' newAdr) - 1) (identifiers s repo)).

(** What C3 says: once [removeRepository(r)] has run, another valid record
    is current, with its repository and branch, or no repository with a
    record is left and the three selection fields are cleared. *)
Definition reselects_or_nothing_left (s : Store) (r : loc) : Prop :=
  forall a, currentlyEditedAdr s = Some a -> In a (adrs (repoAt s r)) ->
    let s' := exec (removeRepository r) s in
    (exists b r',
        b <> a /\ isValidAdr s' (Some b) = true
        /\ In r' (addedRepositories s') /\ In b (adrs (repoAt s' r'))
        /\ currentlyEditedAdr s' = Some b
        /\ currentRepository s' = Some r'
        /\ currentBranch s' = Some (activeBranch (repoAt s' r')))
    \/ ((forall r', In r' (addedRepositories s') -> adrs (repoAt s' r') = [])
        /\ currentlyEditedAdr s' = None
        /\ currentRepository s' = None
        /\ currentBranch s' = None).

(** What C6 says of the failing path: the call reports that nothing was
    created and writes nothing to the local storage. *)
Definition failure_skips_persistence (md : string) (s : Store) (repo : loc)
  : Prop :=
  ~ In repo (addedRepositories s) ->
  outcome (createNewAdr md repo) s = Normal None
  /\ localStorage (exec (createNewAdr md repo) s) = localStorage s.

(** ** The calls of the methods *)

(** A call of a method of the store, with its arguments. *)
Inductive call : Type :=
  | call_reload
  | call_updateLocalStorageRepositories
  | call_addRepositories (repoList : list loc)
  | call_removeRepository (repoToRemove : loc)
  | call_updateRepository (updatedRepository : loc)
  | call_setActiveBranch (branch : string)
  | call_assertSomeAdrIsOpened
  | call_openAnyAdr
  | call_openAdrBy (repoFullName adrName : string)
  | call_openAdr (adr : option loc)
  | call_updateMdOfCurrentAdr (md : string)
  | call_createNewAdr (repo : loc)
  | call_deleteAdr (adr : option loc) (repo : loc)
  | call_setMode (m : string).

Section Calls.

Variable adr2md_of_new_record : string.
Variable naturalCase2snakeCase : string -> string.
Variable trim : string -> string.
Variable instanceof_Repository : Repository -> bool.

(** The state a call leaves, whether it returns or throws. *)
Definition after (c : call) (s : Store) : Store :=
  match c with
  | call_reload => exec (reload instanceof_Repository) s
  | call_updateLocalStorageRepositories =>
      exec updateLocalStorageRepositories s
  | call_addRepositories repoList => exec (addRepositories repoList) s
  | call_removeRepository repo => exec (removeRepository repo) s
  | call_updateRepository repo => exec (updateRepository repo) s
  | call_setActiveBranch branch => exec (setActiveBranch branch) s
  | call_assertSomeAdrIsOpened => exec assertSomeAdrIsOpened s
  | call_openAnyAdr => exec openAnyAdr s
  | call_openAdrBy repoFullName adrName =>
      exec (openAdrBy repoFullName adrName) s
  | call_openAdr adr => exec (openAdr adr) s
  | call_updateMdOfCurrentAdr md =>
      exec (updateMdOfCurrentAdr naturalCase2snakeCase trim md) s
  | call_createNewAdr repo => exec (createNewAdr adr2md_of_new_record repo) s
  | call_deleteAdr adr repo => exec (deleteAdr adr repo) s
  | call_setMode m => exec (setMode m) s
  end.

End Calls.

(** ** The snapshot, the names and the records that can be stored *)

(** The snapshot kept in the local storage is the one
    [updateLocalStorageRepositories] would write now. *)
Definition in_sync (s : Store) : Prop :=
  item_addedRepositories (localStorage s)
  = Some (JSON_stringify s (addedRepositories s)).

(** The full names of the added repositories, in order. *)
Definition names (s : Store) : list string :=
  map (fun repo => fullName (repoAt s repo)) (addedRepositories s).

(** The record keeps its three properties through [JSON.stringify]: each
    of them holds a value. *)
Definition storable (a : ADR) : bool :=
  truthy (read (originalMd a)) && truthy (read (editedMd a))
  && truthy (read (path a)).

(** The character does not occur in the string. *)
Fixpoint free_of (c : ascii) (s : string) : bool :=
  match s with
  | EmptyString => true
  | String a rest => negb (Ascii.eqb a c) && free_of c rest
  end.

(** The file name [createNewAdr] gives to the record numbered [i]. *)
Definition new_adr_file (i : Z) : string :=
  padStart 4 "0" (toString i) +:+ "-unnamed.md".

(** The file name [updateMdOfCurrentAdr] gives to a locally added record
    numbered [i] when its text becomes [md]. *)
Definition renamed_file (naturalCase2snakeCase trim : string -> string)
  (i : Z) (md : string) : string :=
  padStart 4 "0" (toString i) +:+ "-"
  +:+ naturalCase2snakeCase
        (trim (strip_leading_hashes
                 (default "" (head (split_char "010"%char md)))))
  +:+ ".md".

(** The open record is one its repository added locally, as
    [updateMdOfCurrentAdr] tests it. *)
Definition locally_added (s : Store) (c : loc) : bool :=
  match currentRepository s with
  | Some r =>
      match addedAdrs (repoAt s r) with
      | Some l => includes l (Some c)
      | None => false
      end
  | None => false
  end.

(** The optional list of records is the one the optional text denotes. *)
Definition optional_parsed (s : Store) (ls : option (list loc))
  (js : option (list AdrJson)) : Prop :=
  match ls, js with
  | Some ls, Some js => records_parsed s ls js
  | None, None => True
  | _, _ => False
  end.

(** The repository at [l] is the one the text [j] denotes, the two
    optional lists included. *)
Definition repo_parsed_fully (s : Store) (l : loc) (j : RepoJson) : Prop :=
  exists r, repoObjects s !! l = Some r
            /\ fullName r = j_fullName j
            /\ activeBranch r = j_activeBranch j
            /\ records_parsed s (adrs r) (j_adrs j)
            /\ optional_parsed s (addedAdrs r) (j_addedAdrs j)
            /\ optional_parsed s (deletedAdrs r) (j_deletedAdrs j).

(** The mode [reload] takes from the local storage. *)
Definition stored_mode (ls : LocalStorage) : string :=
  match item_mode ls with
  | Some m => if String.eqb m "" then "basic" else m
  | None => "basic"
  end.

(** Whether the snapshot in the local storage of [s] passes
    [isValidRepoList] when [reload] reads it in [s]. *)
Definition snapshot_passes (instanceof_Repository : Repository -> bool)
  (s : Store) : bool :=
  match item_addedRepositories (localStorage s) with
  | Some text =>
      match JSON_parse text s with
      | (Normal parsed, s1) => isValidRepoList instanceof_Repository s1 parsed
      | (Abrupt _, _) => false
      end
  | None => false
  end.

(** The record of repository [u] that [updateRepository] looks for: the
    first one at the path of record [c]. *)
Definition recordAtPathOf (s : Store) (u c : loc) : option loc :=
  List.find (fun adr =>
    bool_decide (read (path (adrAt s adr)) = read (path (adrAt s c))))
    (adrs (repoAt s u)).

(** The first added repository that bears the full name of [u]. *)
Definition namesake (s : Store) (u : loc) : option loc :=
  List.find (fun repo =>
    String.eqb (fullName (repoAt s repo)) (fullName (repoAt s u)))
    (addedRepositories s).

(** ** Three more states of the small world *)

(** The store [one_added] with the identifier of record 1 set to [2 ^ 53],
    the least integer that adding one to does not change. *)
Definition at_the_limit : Store :=
  writeAdr 1%positive
    (mkADR (Holds "x") (Holds "x") 9007199254740992
       (Holds "docs/adr/0000-init.md")) one_added.

(** The store of a first visit after
    [addRepositories([repo 2, repo 3, repo 4])]: the first record found is
    record 2, which is not valid, so nothing is open. *)
Definition nothing_opened : Store :=
  exec (addRepositories [2%positive; 3%positive; 4%positive]) first_visit.

(** The store [one_added] after [createNewAdr(repo 1)] and [openAdr] of
    the record made: a locally added record is open. *)
Definition new_record_opened : Store :=
  exec (newAdr ← createNewAdr "# New" 1%positive; openAdr newAdr) one_added.

(** ** Repositories by name, records by file name *)

(** The first added repository of the given full name, as [openAdrBy]
    finds it. *)
Definition repositoryNamed (s : Store) (repoFullName : string) : option loc :=
  List.find (fun repo => String.eqb (fullName (repoAt s repo)) repoFullName)
    (addedRepositories s).

(** The last segment of a path. *)
Definition fileName (p : string) : option string :=
  last (split_char "/"%char p).

(** The record has a path, and its file is not the one named. *)
Definition other_file (s : Store) (adrName : string) (adr : loc) : Prop :=
  exists q, read (path (adrAt s adr)) = Some q /\ fileName q <> Some adrName.

(** * Properties *)

(** ** Running the monad *)

Ltac run :=
  unfold exec, outcome;
  cbv beta delta [mbind M_bind mret M_ret bind ret gets modify throw
                  updateRepoObject updateAdrObject];
  cbn beta iota.

Lemma includes_In (arr : list loc) (l : loc) :
  includes arr (Some l) = true <-> In l arr.
Proof.
  unfold includes. rewrite existsb_exists. split.
  - intros (x & Hx & Heq). apply Pos.eqb_eq in Heq. now subst.
  - intros H. exists l. split; [assumption | apply Pos.eqb_refl].
Qed.

Lemma includes_string_In (arr : list string) (x : string) :
  includes_string arr x = true <-> In x arr.
Proof.
  unfold includes_string. rewrite existsb_exists. split.
  - intros (y & Hy & Heq). apply String.eqb_eq in Heq. now subst.
  - intros H. exists x. split; [assumption | apply String.eqb_refl].
Qed.

(** ** setMode *)

(** C9. [setMode(m)] with one of the three recognized values sets the mode
    to [m], writes [m] under the key [mode] of the local storage and emits
    [set-mode] carrying [m], and changes nothing else; with any other value
    it returns leaving the whole state as it was: no write, no event. *)
Theorem setMode_spec (m : string) (s : Store) :
  (In m recognized_modes ->
     setMode m s =
       (Normal tt,
        mkStore (adrObjects s) (repoObjects s) (currentRepository s)
          (currentBranch s) (currentlyEditedAdr s) (addedRepositories s)
          m (this_activeBranch s)
          (mkLocalStorage (item_addedRepositories (localStorage s)) (Some m))
          (emitted s ++ [set_mode m])))
  /\ (~ In m recognized_modes -> setMode m s = (Normal tt, s)).
Proof.
  unfold setMode, recognized_modes.
  destruct (includes_string ["basic"; "advanced"; "professional"] m) eqn:E.
  - split; [intros _; reflexivity |].
    intros Hn. apply includes_string_In in E. contradiction.
  - split; [| intros _; reflexivity].
    intros Hin. apply includes_string_In in Hin. congruence.
Qed.

(** ** openAdr *)

Lemma containing_Some (s : Store) (adr : option loc) (r : loc) :
  containing s adr = Some r ->
  exists a, adr = Some a /\ In r (addedRepositories s)
            /\ In a (adrs (repoAt s r)).
Proof.
  unfold containing. intros H. apply find_some in H as [Hin Hinc].
  destruct adr as [a |]; [| discriminate].
  exists a. rewrite includes_In in Hinc. auto.
Qed.

Lemma containing_None (s : Store) (adr : option loc) :
  containing s adr = None <->
  forall r, In r (addedRepositories s) ->
            includes (adrs (repoAt s r)) adr = false.
Proof.
  unfold containing. split.
  - intros H r Hr. exact (find_none _ _ H r Hr).
  - intros H. destruct (List.find _ _) as [r |] eqn:E; [| reflexivity].
    apply find_some in E as [Hin Hinc]. rewrite (H r Hin) in Hinc.
    discriminate.
Qed.

Lemma containing_exists (s : Store) (a r : loc) :
  In r (addedRepositories s) -> In a (adrs (repoAt s r)) ->
  exists r', containing s (Some a) = Some r'.
Proof.
  intros Hr Ha. destruct (containing s (Some a)) as [r' |] eqn:E; [eauto |].
  rewrite containing_None in E. specialize (E r Hr).
  apply includes_In in Ha. congruence.
Qed.

Lemma same_ref_true (a b : option loc) : same_ref a b = true <-> a = b.
Proof. unfold same_ref. apply bool_decide_eq_true. Qed.

Lemma same_ref_false (a b : option loc) : same_ref a b = false <-> a <> b.
Proof. unfold same_ref. apply bool_decide_eq_false. Qed.

Lemma openAdr_opens (a r : loc) (s : Store) :
  currentlyEditedAdr s <> Some a ->
  isValidAdr s (Some a) = true ->
  containing s (Some a) = Some r ->
  openAdr (Some a) s = (Normal tt, opened r a s).
Proof.
  intros Hcur Hvalid Hrepo. unfold openAdr. run.
  assert (E : same_ref (Some a) (currentlyEditedAdr s) = false)
    by (apply same_ref_false; congruence).
  rewrite E. cbn [negb]. unfold containing in Hrepo.
  rewrite Hrepo, Hvalid. reflexivity.
Qed.

Lemma openAdr_noop (adr : option loc) (s : Store) :
  adr = currentlyEditedAdr s \/ isValidAdr s adr = false
  \/ containing s adr = None ->
  openAdr adr s = (Normal tt, s).
Proof.
  intros H. unfold openAdr. run.
  destruct (same_ref adr (currentlyEditedAdr s)) eqn:E; cbn [negb];
    [reflexivity |].
  fold (containing s adr).
  destruct H as [H | [H | H]].
  - apply same_ref_false in E. contradiction.
  - rewrite H. reflexivity.
  - rewrite H. destruct (isValidAdr s adr); reflexivity.
Qed.

(** C4. Opening a valid record [a] held by some added repository, and not
    the one already open, makes [a] the record being edited, makes the
    (first) added repository whose [adrs] holds [a] the current repository,
    copies that repository's active branch and emits [open-adr] carrying
    [a], changing nothing else.  Opening something that is not a valid
    record, or that no added repository holds, returns normally and leaves
    the state as it was. *)
Theorem openAdr_spec (s : Store) :
  (forall a : loc,
     isValidAdr s (Some a) = true ->
     (exists r, In r (addedRepositories s) /\ In a (adrs (repoAt s r))) ->
     currentlyEditedAdr s <> Some a ->
     exists r,
       In r (addedRepositories s) /\ In a (adrs (repoAt s r))
       /\ containing s (Some a) = Some r
       /\ openAdr (Some a) s =
            (Normal tt,
             mkStore (adrObjects s) (repoObjects s) (Some r)
               (Some (activeBranch (repoAt s r))) (Some a)
               (addedRepositories s) (mode s) (this_activeBranch s)
               (localStorage s) (emitted s ++ [open_adr a])))
  /\ (forall adr : option loc,
        isValidAdr s adr = false
        \/ (forall r a, adr = Some a -> In r (addedRepositories s) ->
                        ~ In a (adrs (repoAt s r))) ->
        openAdr adr s = (Normal tt, s)).
Proof.
  split.
  - intros a Hvalid (r0 & Hr0 & Ha0) Hcur.
    destruct (containing_exists s a r0 Hr0 Ha0) as [r Hr].
    exists r. destruct (containing_Some _ _ _ Hr) as (a' & Heq & Hin & Hina).
    injection Heq as <-. repeat split; try assumption.
    now apply openAdr_opens.
  - intros adr [Hinv | Hnone]; apply openAdr_noop; [auto |].
    right. right. apply containing_None. intros r Hr.
    destruct adr as [a |]; [| reflexivity].
    destruct (includes (adrs (repoAt s r)) (Some a)) eqn:E; [| reflexivity].
    apply includes_In in E. exfalso. exact (Hnone r a eq_refl Hr E).
Qed.

(** ** The repair of the selection *)

Lemma openAnyAdr_eq (s : Store) : openAnyAdr s = openAdr (firstAdr s) s.
Proof.
  unfold openAnyAdr, firstAdr. run.
  destruct (List.filter _ _); [| reflexivity].
  symmetry. apply openAdr_noop. right. left. reflexivity.
Qed.

Lemma assertSomeAdrIsOpened_eq (s : Store) :
  assertSomeAdrIsOpened s =
    if stale s then openAdr (firstAdr (cleared s)) (cleared s)
    else (Normal tt, s).
Proof.
  unfold assertSomeAdrIsOpened. run. fold (stale s).
  destruct (stale s); [| reflexivity].
  apply (openAnyAdr_eq (cleared s)).
Qed.

Lemma at_index_0 {A} (l : list A) : at_index l 0 = head l.
Proof. destruct l; reflexivity. Qed.

Lemma firstAdr_Some (s : Store) (b : loc) :
  firstAdr s = Some b ->
  exists r, In r (addedRepositories s) /\ head (adrs (repoAt s r)) = Some b
            /\ containing s (Some b) = Some r.
Proof.
  unfold firstAdr, containing.
  induction (addedRepositories s) as [| r rs IH]; cbn [List.filter List.find].
  - discriminate.
  - rewrite at_index_0.
    destruct (head (adrs (repoAt s r))) as [b0 |] eqn:Eh; cbn [truthy].
    + rewrite at_index_0, Eh. intros [= ->]. exists r.
      assert (Hin : In b (adrs (repoAt s r))).
      { destruct (adrs (repoAt s r)); [discriminate |].
        injection Eh as ->. now left. }
      apply includes_In in Hin. rewrite Hin. repeat split; auto. now left.
    + intros H. destruct (IH H) as (r' & Hr' & Hh & Hf).
      exists r'. repeat split; auto; [now right |].
      destruct (adrs (repoAt s r)); [| discriminate]. exact Hf.
Qed.

Lemma firstAdr_None (s : Store) :
  firstAdr s = None <->
  forall r, In r (addedRepositories s) -> adrs (repoAt s r) = [].
Proof.
  unfold firstAdr.
  induction (addedRepositories s) as [| r rs IH]; cbn [List.filter].
  - split; [intros _ r [] | reflexivity].
  - rewrite at_index_0. destruct (adrs (repoAt s r)) as [| b l] eqn:E;
      cbn [head truthy].
    + rewrite IH. split.
      * intros H r' [<- | Hr']; [exact E | exact (H r' Hr')].
      * intros H r' Hr'. apply H. now right.
    + rewrite at_index_0, E. split; [discriminate |].
      intros H. specialize (H r (or_introl eq_refl)). congruence.
Qed.

(** The selection fields are the only ones the repair touches, besides the
    event it may emit. *)
Lemma assertSomeAdrIsOpened_cases (s : Store) :
  (stale s = false /\ assertSomeAdrIsOpened s = (Normal tt, s))
  \/ (stale s = true
      /\ (forall b, firstAdr s = Some b -> isValidAdr s (Some b) = false)
      /\ assertSomeAdrIsOpened s = (Normal tt, cleared s))
  \/ (stale s = true
      /\ exists b r, firstAdr s = Some b /\ isValidAdr s (Some b) = true
                     /\ containing s (Some b) = Some r
                     /\ assertSomeAdrIsOpened s
                        = (Normal tt, opened r b (cleared s))).
Proof.
  rewrite assertSomeAdrIsOpened_eq.
  destruct (stale s) eqn:Es; [| left; auto]. right.
  change (firstAdr (cleared s)) with (firstAdr s).
  destruct (firstAdr s) as [b |] eqn:Ef.
  - destruct (isValidAdr s (Some b)) eqn:Ev.
    + right. split; [reflexivity |].
      destruct (firstAdr_Some s b Ef) as (r & Hr & Hh & Hc).
      exists b, r. repeat split; auto.
      apply openAdr_opens; [discriminate | exact Ev | exact Hc].
    + left. split; [reflexivity |]. split; [intros ? [= <-]; exact Ev |].
      apply openAdr_noop. right. left. exact Ev.
  - left. split; [reflexivity |]. split; [discriminate |].
    apply openAdr_noop. right. left. reflexivity.
Qed.

(** ** addRepositories *)

Lemma append_assoc (a b c : string) : (a +:+ b) +:+ c = a +:+ b +:+ c.
Proof.
  induction a as [| x a IH]; [reflexivity |].
  change (String x ((a +:+ b) +:+ c) = String x (a +:+ b +:+ c)).
  now f_equal.
Qed.

Lemma append_empty_r (a : string) : a +:+ "" = a.
Proof.
  induction a as [| x a IH]; [reflexivity |].
  change (String x (a +:+ "") = String x a). now f_equal.
Qed.

Lemma occurs_in_prefixed (needle pre hay : string) :
  occurs_in needle hay -> occurs_in needle (pre +:+ hay).
Proof.
  intros (b & a & ->). exists (pre +:+ b), a. now rewrite append_assoc.
Qed.

Lemma occurs_in_join (sep n : string) (names : list string) :
  In n names -> occurs_in n (String.concat sep names).
Proof.
  induction names as [| x [| y rest] IH]; intros Hin.
  - destruct Hin.
  - destruct Hin as [-> | []]. exists "", "".
    change (n = n +:+ ""). now rewrite append_empty_r.
  - destruct Hin as [-> | Hin].
    + exists "", (sep +:+ String.concat sep (y :: rest)). reflexivity.
    + change (String.concat sep (x :: y :: rest))
        with (x +:+ sep +:+ String.concat sep (y :: rest)).
      apply occurs_in_prefixed, occurs_in_prefixed, IH, Hin.
Qed.

Lemma alreadyAdded_In (s : Store) (repoList : list loc) (r : loc) :
  In r (alreadyAdded s repoList) <->
  In r repoList
  /\ exists r', In r' (addedRepositories s)
                /\ fullName (repoAt s r') = fullName (repoAt s r).
Proof.
  unfold alreadyAdded. rewrite filter_In, includes_string_In, in_map_iff.
  split; intros (Hr & r' & H1 & H2); eauto.
Qed.

Lemma addRepositories_throws (s : Store) (repoList : list loc) :
  alreadyAdded s repoList <> [] ->
  addRepositories repoList s =
    (Abrupt (ThrownString
       (already_added_message
          (map (fun repo => fullName (repoAt s repo))
             (alreadyAdded s repoList)))), s).
Proof.
  intros Hne. unfold addRepositories. run. fold (alreadyAdded s repoList).
  destruct (alreadyAdded s repoList); [contradiction | reflexivity].
Qed.

Lemma addRepositories_appends (s : Store) (repoList : list loc) :
  alreadyAdded s repoList = [] ->
  addRepositories repoList s = assertSomeAdrIsOpened (appended s repoList).
Proof.
  intros He. unfold addRepositories, updateLocalStorageRepositories. run.
  fold (alreadyAdded s repoList). rewrite He. reflexivity.
Qed.

Lemma assertSomeAdrIsOpened_frame (s : Store) :
  outcome assertSomeAdrIsOpened s = Normal tt
  /\ adrObjects (exec assertSomeAdrIsOpened s) = adrObjects s
  /\ repoObjects (exec assertSomeAdrIsOpened s) = repoObjects s
  /\ addedRepositories (exec assertSomeAdrIsOpened s) = addedRepositories s
  /\ mode (exec assertSomeAdrIsOpened s) = mode s
  /\ localStorage (exec assertSomeAdrIsOpened s) = localStorage s.
Proof.
  unfold exec, outcome.
  destruct (assertSomeAdrIsOpened_cases s)
    as [[_ ->] | [(_ & _ & ->) | (_ & b & r & _ & _ & _ & ->)]];
    repeat split.
Qed.

(** C2. When some incoming repository bears the full name of a repository
    already added, [addRepositories] throws a message in which every
    colliding full name occurs, and the state is exactly what it was: no
    repository of the batch is added.  Without a collision the call
    returns normally with the whole batch appended, in order, to
    [addedRepositories]. *)
Theorem addRepositories_all_or_nothing (s : Store) (repoList : list loc) :
  ((exists r r', In r repoList /\ In r' (addedRepositories s)
                 /\ fullName (repoAt s r) = fullName (repoAt s r')) ->
   exists msg,
     addRepositories repoList s = (Abrupt (ThrownString msg), s)
     /\ forall r r', In r repoList -> In r' (addedRepositories s) ->
                     fullName (repoAt s r) = fullName (repoAt s r') ->
                     occurs_in (fullName (repoAt s r)) msg)
  /\ ((forall r r', In r repoList -> In r' (addedRepositories s) ->
                    fullName (repoAt s r) <> fullName (repoAt s r')) ->
      outcome (addRepositories repoList) s = Normal tt
      /\ addedRepositories (exec (addRepositories repoList) s)
         = addedRepositories s ++ repoList).
Proof.
  split.
  - intros (r & r' & Hr & Hr' & Heq).
    assert (Hne : alreadyAdded s repoList <> []).
    { intros He. assert (Hin : In r (alreadyAdded s repoList))
        by (apply alreadyAdded_In; eauto).
      rewrite He in Hin. destruct Hin. }
    eexists. split; [apply addRepositories_throws, Hne |].
    intros q q' Hq Hq' Hqeq. unfold already_added_message.
    apply occurs_in_prefixed, occurs_in_join, in_map_iff.
    exists q. split; [reflexivity |]. apply alreadyAdded_In. eauto.
  - intros Hfree.
    assert (He : alreadyAdded s repoList = []).
    { destruct (alreadyAdded s repoList) as [| r l] eqn:E; [reflexivity |].
      assert (Hin : In r (alreadyAdded s repoList))
        by (rewrite E; now left).
      apply alreadyAdded_In in Hin as (Hr & r' & Hr' & Heq).
      exfalso. exact (Hfree r r' Hr Hr' (eq_sym Heq)). }
    unfold exec, outcome. rewrite (addRepositories_appends _ _ He).
    destruct (assertSomeAdrIsOpened_frame (appended s repoList))
      as (Ho & _ & _ & Ha & _).
    split; [exact Ho | exact Ha].
Qed.

(** ** removeRepository *)

Lemma removeRepository_eq (s : Store) (r : loc) :
  removeRepository r s =
    (Normal tt,
     persisted (exec assertSomeAdrIsOpened
                  (set_addedRepositories (remaining s r) s))).
Proof.
  unfold removeRepository, updateLocalStorageRepositories. run.
  fold (remaining s r).
  destruct (assertSomeAdrIsOpened_frame
              (set_addedRepositories (remaining s r) s)) as (Ho & _).
  unfold outcome, exec in *.
  destruct (assertSomeAdrIsOpened _) as [c s2]. cbn in Ho. subst c.
  reflexivity.
Qed.

Lemma stale_not_held (s : Store) :
  (forall r, In r (addedRepositories s) ->
             includes (adrs (repoAt s r)) (currentlyEditedAdr s) = false) ->
  stale s = true.
Proof.
  intros H. unfold stale.
  assert (E : existsb (fun repo =>
                includes (adrs (repoAt s repo)) (currentlyEditedAdr s))
                (addedRepositories s) = false).
  { apply not_true_is_false. intros Hex. apply existsb_exists in Hex.
    destruct Hex as (r & Hr & Hinc). rewrite (H r Hr) in Hinc.
    discriminate. }
  rewrite E. apply orb_true_r.
Qed.

(** C3, as amended.  Let the open record [a] be listed by [r] and by no
    repository that [removeRepository(r)] keeps.  After the call, either
    the first record of the first remaining repository that has records is
    valid and has become the current one, with [currentRepository] the
    repository holding it and [currentBranch] that repository's active
    branch; or the three selection fields are cleared, which happens when
    no remaining repository has a record and also when that first record
    is not valid. *)
Theorem removeRepository_reselects (s : Store) (r a : loc) :
  currentlyEditedAdr s = Some a ->
  In a (adrs (repoAt s r)) ->
  (forall r', In r' (remaining s r) -> ~ In a (adrs (repoAt s r'))) ->
  let s' := exec (removeRepository r) s in
  outcome (removeRepository r) s = Normal tt
  /\ addedRepositories s' = remaining s r
  /\ adrObjects s' = adrObjects s
  /\ repoObjects s' = repoObjects s
  /\ ((exists b r',
         firstAdr s' = Some b /\ isValidAdr s' (Some b) = true /\ b <> a
         /\ In r' (addedRepositories s') /\ In b (adrs (repoAt s' r'))
         /\ currentlyEditedAdr s' = Some b
         /\ currentRepository s' = Some r'
         /\ currentBranch s' = Some (activeBranch (repoAt s' r')))
      \/ ((forall b, firstAdr s' = Some b -> isValidAdr s' (Some b) = false)
          /\ currentlyEditedAdr s' = None
          /\ currentRepository s' = None
          /\ currentBranch s' = None)).
Proof.
  intros Hcur Ha Hother s'. subst s'. unfold exec, outcome.
  rewrite removeRepository_eq. cbn [fst snd].
  set (s1 := set_addedRepositories (remaining s r) s).
  assert (Hstale : stale s1 = true).
  { apply stale_not_held. intros r' Hr'.
    change (In r' (remaining s r)) in Hr'.
    change (includes (adrs (repoAt s r')) (currentlyEditedAdr s) = false).
    rewrite Hcur.
    destruct (includes (adrs (repoAt s r')) (Some a)) eqn:E; [| reflexivity].
    apply includes_In in E. exfalso. exact (Hother r' Hr' E). }
  unfold exec.
  destruct (assertSomeAdrIsOpened_cases s1)
    as [[Hn _] | [(_ & Hinv & ->) | (_ & b & r' & Hf & Hv & Hc & ->)]].
  - congruence.
  - repeat split. right. repeat split. exact Hinv.
  - repeat split. left. exists b, r'.
    destruct (containing_Some _ _ _ Hc) as (b' & [= <-] & Hr' & Hb).
    repeat split; try assumption.
    intros ->. exact (Hother r' Hr' Hb).
Qed.

(** ** deleteAdr *)

Lemma repoAt_writeRepo (s : Store) (l : loc) (r : Repository) :
  repoAt (writeRepo l r s) l = r.
Proof. unfold repoAt, writeRepo. cbn. apply lookup_total_insert_eq. Qed.

Lemma repoAt_writeRepo_ne (s : Store) (l l' : loc) (r : Repository) :
  l <> l' -> repoAt (writeRepo l r s) l' = repoAt s l'.
Proof.
  intros H. unfold repoAt, writeRepo. cbn.
  now apply lookup_total_insert_ne.
Qed.

Lemma writeRepo_writeRepo (s : Store) (l : loc) (r1 r2 : Repository) :
  writeRepo l r2 (writeRepo l r1 s) = writeRepo l r2 s.
Proof.
  unfold writeRepo, set_repoObjects. cbn. f_equal. apply insert_insert_eq.
Qed.

Lemma findIndex_absent {A} (f : A -> bool) (l : list A) :
  (forall x, In x l -> f x = false) -> findIndex f l = -1.
Proof.
  induction l as [| x l IH]; intros H; cbn [findIndex]; [reflexivity |].
  rewrite (H x (or_introl eq_refl)), IH by (intros y Hy; apply H; now right).
  reflexivity.
Qed.

(** [splice(-1, 1)] takes the last element off, if there is one. *)
Lemma splice_minus_one {A} (l : list A) :
  snd (splice l (-1) 1 []) = removelast l.
Proof.
  unfold splice. cbn [snd]. destruct l as [| x l]; [reflexivity |].
  rewrite removelast_firstn_len. set (n := length (x :: l)).
  assert (Hn : (1 <= n)%nat) by (subst n; cbn; lia).
  change (-1 <? 0) with true. cbv iota.
  replace (Z.to_nat (Z.max (Z.of_nat n + -1) 0)) with (pred n) by lia.
  replace (Z.to_nat (Z.min (Z.max 1 0)
             (Z.of_nat n - Z.max (Z.of_nat n + -1) 0))) with 1%nat by lia.
  replace (pred n + 1)%nat with n by lia.
  subst n. rewrite skipn_all. now rewrite !app_nil_r.
Qed.

Lemma deleteAdr_eq (s : Store) (adr : option loc) (repo : loc) :
  deleteAdr adr repo s =
    assertSomeAdrIsOpened (writeRepo repo (spliced s adr repo) s).
Proof.
  unfold deleteAdr. run. unfold spliced.
  destruct (deletedAdrs (repoAt s repo)) as [d |] eqn:Ed; cbn [truthy negb].
  - unfold set_adrs. rewrite Ed. reflexivity.
  - rewrite repoAt_writeRepo, writeRepo_writeRepo. reflexivity.
Qed.

Lemma deleteAdr_repo (s : Store) (adr : option loc) (repo : loc) :
  outcome (deleteAdr adr repo) s = Normal tt
  /\ repoAt (exec (deleteAdr adr repo) s) repo = spliced s adr repo.
Proof.
  unfold outcome, exec. rewrite deleteAdr_eq.
  destruct (assertSomeAdrIsOpened_frame
              (writeRepo repo (spliced s adr repo) s)) as (Ho & _ & Hr & _).
  split; [exact Ho |].
  unfold repoAt, exec in *. rewrite Hr.
  apply (repoAt_writeRepo s repo).
Qed.

(** C8. Whatever record and repository [deleteAdr] is given, the
    repository's [deletedAdrs] does not grow: the list is created empty
    when it was absent and is otherwise left exactly as it was, so the
    record spliced out of [adrs] is not appended to it. *)
Theorem deleteAdr_deletedAdrs_never_grows
  (s : Store) (adr : option loc) (repo : loc) :
  deletedAdrs (repoAt (exec (deleteAdr adr repo) s) repo)
  = Some (match deletedAdrs (repoAt s repo) with
          | Some l => l
          | None => []
          end).
Proof.
  destruct (deleteAdr_repo s adr repo) as [_ ->]. unfold spliced. cbn.
  destruct (deletedAdrs (repoAt s repo)); reflexivity.
Qed.

(** C10. When the record given to [deleteAdr] is not an element of
    [repo.adrs], the index [-1] goes to [splice]: a non-empty [adrs] loses
    its last element and is one shorter, and an empty [adrs] stays
    empty. *)
Theorem deleteAdr_absent_record_drops_last
  (s : Store) (adr : option loc) (repo : loc) :
  (forall a, adr = Some a -> ~ In a (adrs (repoAt s repo))) ->
  let before := adrs (repoAt s repo) in
  let after := adrs (repoAt (exec (deleteAdr adr repo) s) repo) in
  (before <> [] ->
     after = removelast before
     /\ (length after + 1 = length before)%nat
     /\ exists x, before = after ++ [x])
  /\ (before = [] -> after = []).
Proof.
  intros Habs before after.
  assert (Hafter : after = removelast before).
  { subst after before. destruct (deleteAdr_repo s adr repo) as [_ ->].
    unfold spliced. cbn [adrs].
    rewrite findIndex_absent; [apply splice_minus_one |].
    intros x Hx. apply same_ref_false. intros <-.
    exact (Habs x eq_refl Hx). }
  split.
  - intros Hne. split; [exact Hafter |].
    destruct (exists_last Hne) as (l' & x & Hl).
    rewrite Hafter, Hl, removelast_last. split; [| eauto].
    rewrite length_app. cbn. lia.
  - intros He. rewrite Hafter, He. reflexivity.
Qed.

(** ** createNewAdr *)

Section CreateNewAdr.

Variable md : string.

Lemma createNewAdr_added (s : Store) (repo : loc) :
  In repo (addedRepositories s) ->
  createNewAdr md repo s
  = (Normal (Some (fresh (dom (adrObjects s)))), created md s repo).
Proof.
  intros Hin. apply includes_In in Hin. unfold createNewAdr. run.
  rewrite Hin. unfold allocAdr. cbv beta zeta.
  set (l := fresh (dom (adrObjects s))).
  fold (nextId s repo).
  set (a := mkADR Undefined (Holds md) (nextId s repo)
              (Holds (new_adr_path (nextId s repo)))).
  change (repoAt (writeAdr l a s) repo) with (repoAt s repo).
  rewrite !repoAt_writeRepo. unfold created. fold l. fold a.
  unfold set_adrs at 1. cbn [addedAdrs].
  destruct (addedAdrs (repoAt s repo)) as [d |] eqn:Ed;
    cbn [truthy negb]; rewrite ?repoAt_writeRepo;
    unfold set_adrs, set_addedAdrs;
    cbn [addedAdrs fullName activeBranch adrs deletedAdrs];
    rewrite ?repoAt_writeRepo;
    cbn [addedAdrs fullName activeBranch adrs deletedAdrs];
    rewrite ?writeRepo_writeRepo, ?Ed; cbn [default app].
  - rewrite !repoAt_writeRepo, writeRepo_writeRepo. reflexivity.
  - reflexivity.
Qed.

Lemma createNewAdr_not_added (s : Store) (repo : loc) :
  ~ In repo (addedRepositories s) ->
  createNewAdr md repo s = (Normal None, persisted s).
Proof.
  intros Hin. unfold createNewAdr. run.
  destruct (includes (addedRepositories s) (Some repo)) eqn:E.
  - apply includes_In in E. contradiction.
  - reflexivity.
Qed.

Lemma Math_max_or_minus_one_bounds (xs : list Z) :
  -1 <= Math_max_or_minus_one xs
  /\ Forall (fun x => x <= Math_max_or_minus_one xs) xs
  /\ (Math_max_or_minus_one xs = -1 \/ In (Math_max_or_minus_one xs) xs).
Proof.
  induction xs as [| x xs (Hlo & Hall & Hin)].
  - repeat split; [cbn; lia | constructor | now left].
  - cbn [Math_max_or_minus_one fold_right].
    fold (Math_max_or_minus_one xs).
    split; [lia |]. split.
    + constructor; [lia |]. eapply Forall_impl; [exact Hall |].
      cbn. intros; lia.
    + destruct (Z.max_spec x (Math_max_or_minus_one xs)) as [[_ ->] | [_ ->]].
      * destruct Hin as [Hin | Hin]; [now left | right; now right].
      * right. now left.
Qed.

Lemma In_upto (count : nat) (from x : Z) :
  from <= x < from + Z.of_nat count -> In x (upto count from).
Proof.
  revert from. induction count as [| k IH]; intros from Hx; [lia |].
  cbn [upto]. destruct (Z.eq_dec from x) as [-> | Hne]; [now left |].
  right. apply IH. lia.
Qed.

Lemma padStart_four_digits (n : Z) :
  0 <= n < 10000 -> padStart 4 "0" (toString n) = four_digits n.
Proof.
  intros Hn.
  assert (H : forallb (fun k =>
                String.eqb (padStart 4 "0" (toString k)) (four_digits k))
                (upto (Z.to_nat 10000) 0) = true)
    by (vm_compute; reflexivity).
  apply String.eqb_eq.
  apply (proj1 (forallb_forall _ _) H n), In_upto. lia.
Qed.

Lemma toNumber_exact (n : Z) :
  - 9007199254740992 <= n <= 9007199254740992 -> toNumber n = n.
Proof.
  intros Hn. unfold toNumber.
  destruct (Z.abs n <? 9007199254740992) eqn:E; [reflexivity |].
  apply Z.ltb_ge in E.
  assert (H : n = 9007199254740992 \/ n = - 9007199254740992) by lia.
  destruct H as [-> | ->]; vm_compute; reflexivity.
Qed.

Lemma nextId_exact (s : Store) (repo : loc) :
  Forall (fun i => i <= MAX_SAFE_INTEGER) (identifiers s repo) ->
  nextId s repo = Math_max_or_minus_one (identifiers s repo) + 1.
Proof.
  intros Hsafe. unfold nextId, Number_add. fold (identifiers s repo).
  apply toNumber_exact.
  destruct (Math_max_or_minus_one_bounds (identifiers s repo))
    as (Hlo & _ & Hor).
  destruct Hor as [-> | Hin]; [lia |].
  rewrite List.Forall_forall in Hsafe. specialize (Hsafe _ Hin).
  unfold MAX_SAFE_INTEGER in Hsafe. lia.
Qed.

(** C5, as amended.  For a repository that is one of the added ones and
    whose identifiers are all at most [Number.MAX_SAFE_INTEGER], so that
    adding one to the greatest is exact, [createNewAdr]
    returns a record that is a new object; its [originalMd] holds
    [undefined] and its [editedMd] the text of an empty record; its [id]
    is 0 when the repository has no record and, the identifiers being
    non-negative, one more than the greatest identifier otherwise; its path
    is [docs/adr/], the identifier padded with zeros to four characters,
    then [-unnamed.md], which for an identifier below 10000 is the pattern
    [docs/adr/NNNN-unnamed.md]; and the record is appended to the
    repository's [adrs] and to its [addedAdrs], the latter created when it
    was absent. *)
Theorem createNewAdr_spec (s : Store) (repo : loc) :
  In repo (addedRepositories s) ->
  let ids := map (fun adr => id (adrAt s adr)) (adrs (repoAt s repo)) in
  Forall (fun i => i <= MAX_SAFE_INTEGER) ids ->
  exists newAdr s',
    createNewAdr md repo s = (Normal (Some newAdr), s')
    /\ adrObjects s !! newAdr = None
    /\ originalMd (adrAt s' newAdr) = Undefined
    /\ editedMd (adrAt s' newAdr) = Holds md
    /\ id (adrAt s' newAdr) = 1 + Math_max_or_minus_one ids
    /\ (ids = [] -> id (adrAt s' newAdr) = 0)
    /\ (ids <> [] -> Forall (fun i => 0 <= i) ids ->
        is_maximum (id (adrAt s' newAdr) - 1) ids)
    /\ path (adrAt s' newAdr)
       = Holds ("docs/adr/"
                +:+ padStart 4 "0" (toString (id (adrAt s' newAdr)))
                +:+ "-unnamed.md")
    /\ (0 <= id (adrAt s' newAdr) < 10000 ->
        path (adrAt s' newAdr)
        = Holds ("docs/adr/" +:+ four_digits (id (adrAt s' newAdr))
                 +:+ "-unnamed.md"))
    /\ adrs (repoAt s' repo) = adrs (repoAt s repo) ++ [newAdr]
    /\ addedAdrs (repoAt s' repo)
       = Some (match addedAdrs (repoAt s repo) with
               | Some l => l
               | None => []
               end ++ [newAdr]).
Proof.
  intros Hin ids Hsafe.
  exists (fresh (dom (adrObjects s))), (created md s repo).
  split; [now apply createNewAdr_added |].
  split; [apply not_elem_of_dom, is_fresh |].
  assert (Ha : adrAt (created md s repo) (fresh (dom (adrObjects s)))
               = mkADR Undefined (Holds md) (nextId s repo)
                   (Holds (new_adr_path (nextId s repo)))).
  { unfold adrAt, created, writeRepo, writeAdr. cbn.
    apply lookup_total_insert_eq. }
  assert (Hr : repoAt (created md s repo) repo
               = mkRepository (fullName (repoAt s repo))
                   (activeBranch (repoAt s repo))
                   (adrs (repoAt s repo) ++ [fresh (dom (adrObjects s))])
                   (Some (default [] (addedAdrs (repoAt s repo))
                          ++ [fresh (dom (adrObjects s))]))
                   (deletedAdrs (repoAt s repo))).
  { unfold created. apply repoAt_writeRepo. }
  rewrite Ha, Hr. cbn [originalMd editedMd id path adrs addedAdrs].
  rewrite (nextId_exact s repo Hsafe).
  change (identifiers s repo) with ids.
  destruct (Math_max_or_minus_one_bounds ids) as (Hlo & Hall & Hmax).
  split; [reflexivity |]. split; [reflexivity |]. split; [lia |].
  split; [intros ->; reflexivity |].
  split.
  { intros Hne Hpos.
    replace (Math_max_or_minus_one ids + 1 - 1)
      with (Math_max_or_minus_one ids) by lia.
    split; [| exact Hall].
    destruct Hmax as [Hm | Hm]; [| exact Hm].
    destruct ids as [| i rest]; [contradiction |].
    apply Forall_inv in Hpos. apply Forall_inv in Hall. lia. }
  split; [reflexivity |].
  split.
  { intros Hrange. unfold new_adr_path. now rewrite padStart_four_digits. }
  split; [reflexivity |].
  destruct (addedAdrs (repoAt s repo)); reflexivity.
Qed.

(** C6, as amended.  For a repository that is not one of the added ones,
    [createNewAdr] returns [undefined], creates nothing and does write the
    snapshot of [addedRepositories] to the local storage: the state is the
    one [updateLocalStorageRepositories] leaves.  For an added repository
    it returns the new record and the local storage is left as it was:
    the write is not reached on this path. *)
Theorem createNewAdr_persists_only_on_failure (s : Store) (repo : loc) :
  (~ In repo (addedRepositories s) ->
     createNewAdr md repo s
     = (Normal None, exec updateLocalStorageRepositories s)
     /\ item_addedRepositories
          (localStorage (exec (createNewAdr md repo) s))
        = Some (JSON_stringify s (addedRepositories s)))
  /\ (In repo (addedRepositories s) ->
      (exists newAdr, outcome (createNewAdr md repo) s = Normal (Some newAdr))
      /\ localStorage (exec (createNewAdr md repo) s) = localStorage s).
Proof.
  split; intros Hin.
  - unfold exec. rewrite (createNewAdr_not_added s repo Hin).
    split; reflexivity.
  - unfold exec, outcome. rewrite (createNewAdr_added s repo Hin).
    split; [eexists; reflexivity | reflexivity].
Qed.

End CreateNewAdr.

(** ** Reading a snapshot back *)

Lemma extends_refl (s : Store) : extends s s.
Proof. repeat split; reflexivity. Qed.

Lemma extends_trans (s1 s2 s3 : Store) :
  extends s1 s2 -> extends s2 s3 -> extends s1 s3.
Proof.
  intros (Ha & Hr & Hd) (Ha' & Hr' & Hd'). repeat split.
  - etransitivity; eassumption.
  - etransitivity; eassumption.
  - congruence.
Qed.

Lemma allocAdr_spec (a : ADR) (s : Store) :
  exists l s', allocAdr a s = (Normal l, s') /\ extends s s'
               /\ adrObjects s' !! l = Some a.
Proof.
  exists (fresh (dom (adrObjects s))),
         (writeAdr (fresh (dom (adrObjects s))) a s).
  split; [reflexivity |]. split.
  - repeat split; [| reflexivity]. cbn.
    apply insert_subseteq, not_elem_of_dom, is_fresh.
  - cbn. apply lookup_insert_eq.
Qed.

Lemma allocRepo_spec (r : Repository) (s : Store) :
  exists l s', allocRepo r s = (Normal l, s') /\ extends s s'
               /\ repoObjects s' !! l = Some r.
Proof.
  exists (fresh (dom (repoObjects s))),
         (writeRepo (fresh (dom (repoObjects s))) r s).
  split; [reflexivity |]. split.
  - repeat split; [reflexivity |]. cbn.
    apply insert_subseteq, not_elem_of_dom, is_fresh.
  - cbn. apply lookup_insert_eq.
Qed.

Lemma records_parsed_extends (s s' : Store) ls js :
  extends s s' -> records_parsed s ls js -> records_parsed s' ls js.
Proof.
  intros (Ha & _) H. eapply Forall2_impl; [exact H |].
  cbn. intros l j Hl. eapply lookup_weaken; eassumption.
Qed.

Lemma parseAdrs_spec (js : list AdrJson) (s : Store) :
  exists ls s', parseAdrs js s = (Normal ls, s') /\ extends s s'
                /\ records_parsed s' ls js.
Proof.
  revert s. induction js as [| j js IH]; intros s.
  - exists [], s. repeat split; try reflexivity. constructor.
  - destruct (allocAdr_spec (adr_of_json j) s) as (l & s1 & E1 & X1 & L1).
    destruct (IH s1) as (ls & s2 & E2 & X2 & L2).
    exists (l :: ls), s2. split; [| split].
    + cbn [parseAdrs]. run. unfold parseAdr. fold (adr_of_json j).
      rewrite E1, E2. reflexivity.
    + eapply extends_trans; eassumption.
    + constructor; [| exact L2].
      destruct X2 as (Ha & _). eapply lookup_weaken; eassumption.
Qed.

Lemma parseOptionalAdrs_spec (js : option (list AdrJson)) (s : Store) :
  exists ls s', parseOptionalAdrs js s = (Normal ls, s') /\ extends s s'.
Proof.
  destruct js as [js |].
  - destruct (parseAdrs_spec js s) as (ls & s' & E & X & _).
    exists (Some ls), s'. split; [| exact X].
    cbn [parseOptionalAdrs]. run. rewrite E. reflexivity.
  - exists None, s. split; [reflexivity | apply extends_refl].
Qed.

Lemma repo_parsed_extends (s s' : Store) l j :
  extends s s' -> repo_parsed s l j -> repo_parsed s' l j.
Proof.
  intros X (r & Hr & Hn & Hb & Ha). exists r. repeat split; auto.
  - destruct X as (_ & Hsub & _). eapply lookup_weaken; eassumption.
  - eapply records_parsed_extends; eassumption.
Qed.

Lemma parseRepo_spec (j : RepoJson) (s : Store) :
  exists l s', parseRepo j s = (Normal l, s') /\ extends s s'
               /\ repo_parsed s' l j.
Proof.
  destruct (parseAdrs_spec (j_adrs j) s) as (a & s1 & E1 & X1 & L1).
  destruct (parseOptionalAdrs_spec (j_addedAdrs j) s1) as (ad & s2 & E2 & X2).
  destruct (parseOptionalAdrs_spec (j_deletedAdrs j) s2)
    as (de & s3 & E3 & X3).
  destruct (allocRepo_spec
              (mkRepository (j_fullName j) (j_activeBranch j) a ad de) s3)
    as (l & s4 & E4 & X4 & L4).
  exists l, s4. split; [| split].
  - unfold parseRepo. run. rewrite E1, E2, E3. exact E4.
  - repeat (eapply extends_trans; [eassumption |]). apply extends_refl.
  - eexists. split; [exact L4 |]. repeat split.
    eapply records_parsed_extends; [| exact L1].
    repeat (eapply extends_trans; [eassumption |]). apply extends_refl.
Qed.

Lemma JSON_parse_spec (js : list RepoJson) (s : Store) :
  exists ls s', JSON_parse js s = (Normal ls, s') /\ extends s s'
                /\ Forall2 (repo_parsed s') ls js.
Proof.
  revert s. induction js as [| j js IH]; intros s.
  - exists [], s. repeat split; try reflexivity. constructor.
  - destruct (parseRepo_spec j s) as (l & s1 & E1 & X1 & L1).
    destruct (IH s1) as (ls & s2 & E2 & X2 & L2).
    exists (l :: ls), s2. split; [| split].
    + cbn [JSON_parse]. run. rewrite E1, E2. reflexivity.
    + eapply extends_trans; eassumption.
    + constructor; [| exact L2].
      eapply repo_parsed_extends; eassumption.
Qed.

(** ** The round trip through the local storage *)

Section Reload.

Variable instanceof_Repository : Repository -> bool.

Lemma parsed_property_read {A} (p : property A) :
  has (parsed_property (read p)) = true -> parsed_property (read p) = p.
Proof. destruct p; cbn; congruence. Qed.

Lemma valid_record_round_trip (s s1 : Store) (a a' : loc) :
  adrObjects s1 !! a' = Some (adr_of_json (stringifyAdr s a)) ->
  isValidAdr s1 (Some a') = true ->
  same_record (adrAt s a) (adrAt s1 a').
Proof.
  intros Hl Hv. unfold isValidAdr in Hv. unfold adrAt in *.
  rewrite (lookup_total_correct _ _ _ Hl) in *.
  unfold adr_of_json, stringifyAdr in *. cbn in *.
  apply andb_prop in Hv as [Hv Hp]. apply andb_prop in Hv as [Ho He].
  unfold same_record. cbn.
  rewrite (parsed_property_read _ Ho), (parsed_property_read _ He),
    (parsed_property_read _ Hp).
  repeat split.
Qed.

Lemma valid_records_round_trip (s s1 : Store) (ls' ls : list loc) :
  records_parsed s1 ls' (map (stringifyAdr s) ls) ->
  forallb (fun adr => isValidAdr s1 (Some adr)) ls' = true ->
  Forall2 (fun a a' => same_record (adrAt s a) (adrAt s1 a')) ls ls'.
Proof.
  unfold records_parsed. revert ls'.
  induction ls as [| a ls IH]; intros ls' H Hv; cbn [map] in H.
  - inversion H. constructor.
  - inversion H as [| a' j ls'' js Ha Hrest]; subst.
    cbn [forallb] in Hv. apply andb_prop in Hv as [Hva Hv].
    constructor; [| now apply IH].
    now apply valid_record_round_trip.
Qed.

Lemma valid_repos_round_trip (s s1 : Store) (ls' ls : list loc) :
  Forall2 (repo_parsed s1) ls' (map (stringifyRepo s) ls) ->
  isValidRepoList instanceof_Repository s1 ls' = true ->
  Forall2 (same_repository s s1) ls ls'.
Proof.
  unfold isValidRepoList. revert ls'.
  induction ls as [| r ls IH]; intros ls' H Hv; cbn [map] in H.
  - inversion H. constructor.
  - inversion H as [| r' j ls'' js Hr Hrest]; subst.
    cbn [forallb] in Hv. apply andb_prop in Hv as [Hvr Hv].
    constructor; [| now apply IH].
    destruct Hr as (r1 & Hl & Hn & _ & Ha).
    apply andb_prop in Hvr as [_ Hvr].
    unfold same_repository, repoAt in *.
    rewrite (lookup_total_correct _ _ _ Hl) in *.
    split; [now rewrite Hn |].
    now apply valid_records_round_trip.
Qed.

Lemma alreadyAdded_none (s : Store) (repoList : list loc) :
  addedRepositories s = [] -> alreadyAdded s repoList = [].
Proof.
  intros He. unfold alreadyAdded. rewrite He. cbn.
  induction repoList as [| r l IH]; [reflexivity | exact IH].
Qed.

(** C7. Let the store write its repositories and its mode to the local
    storage, and let a fresh store run [reload] over that storage; the
    mode is taken not to be the empty string, as it is in every state the
    store reaches.  The call returns normally with the mode read back.
    When the stored snapshot passes [isValidRepoList], the repositories
    read back are the ones written, in order, equal by full name and,
    record by record, by path, identifier, [originalMd] and [editedMd];
    when it does not pass, the snapshot is dropped and the fresh store has
    no repository. *)
Theorem reload_round_trip (s : Store) :
  mode s <> "" ->
  let fresh := freshStore (serialized s) in
  let s' := exec (reload instanceof_Repository) fresh in
  outcome (reload instanceof_Repository) fresh = Normal tt
  /\ mode s' = mode s
  /\ (stored_data_valid instanceof_Repository (serialized s) = true ->
      equivalent s s')
  /\ (stored_data_valid instanceof_Repository (serialized s) = false ->
      addedRepositories s' = []).
Proof.
  intros Hmode fresh s'. subst s' fresh.
  set (text := JSON_stringify s (addedRepositories s)).
  assert (Hm : (if String.eqb (mode s) "" then "basic" else mode s) = mode s).
  { destruct (String.eqb (mode s) "") eqn:E; [| reflexivity].
    apply String.eqb_eq in E. contradiction. }
  unfold stored_data_valid, exec, outcome, reload. run.
  change (item_addedRepositories (localStorage (freshStore (serialized s))))
    with (Some text).
  change (item_addedRepositories (serialized s)) with (Some text).
  cbv beta iota.
  set (fresh := freshStore (serialized s)).
  destruct (JSON_parse_spec text fresh) as (ls & s1 & E & X & L).
  assert (Hd : data s1 = data fresh) by apply X.
  injection Hd as Hcr Hcb Hce Hadd Hmo Hab Hls Hem.
  rewrite E.
  destruct (isValidRepoList instanceof_Repository s1 ls) eqn:Ev.
  - rewrite (addRepositories_appends s1 ls (alreadyAdded_none s1 ls Hadd)).
    destruct (assertSomeAdrIsOpened_frame (appended s1 ls))
      as (Ho & Ha & Hr & Hl & _ & Hst).
    unfold exec, outcome in *.
    destruct (assertSomeAdrIsOpened (appended s1 ls)) as [c s2].
    cbn [fst snd] in *. subst c.
    assert (Hitem : item_mode (localStorage s2) = Some (mode s)).
    { rewrite Hst. cbn. rewrite Hls. reflexivity. }
    rewrite Hitem. cbn [fst snd mode set_mode_field].
    split; [reflexivity |]. split; [exact Hm |].
    split; [| discriminate]. intros _. split; [| cbn; now rewrite Hm].
    cbn [addedRepositories set_mode_field]. rewrite Hl. cbn. rewrite Hadd.
    cbn [app].
    eapply Forall2_impl; [apply (valid_repos_round_trip s s1 ls); eauto |].
    intros r r' Hs. unfold same_repository, repoAt, adrAt in *.
    cbn [adrObjects repoObjects set_mode_field].
    rewrite Ha, Hr. exact Hs.
  - assert (Hitem : item_mode (localStorage s1) = Some (mode s))
      by (rewrite Hls; reflexivity).
    rewrite Hitem. cbn [fst snd mode set_mode_field addedRepositories].
    split; [reflexivity |]. split; [exact Hm |].
    split; [discriminate | intros _; exact Hadd].
Qed.

(** X3. When [instanceof Repository] is false of every object [JSON.parse]
    builds, only the empty snapshot passes the validation: the snapshot of
    a store that has a repository is rejected by [isValidRepoList]. *)
Lemma plain_objects_never_valid (s : Store) :
  (forall r, instanceof_Repository r = false) ->
  addedRepositories s <> [] ->
  stored_data_valid instanceof_Repository (serialized s) = false.
Proof.
  intros Hplain Hne. unfold stored_data_valid.
  change (item_addedRepositories (serialized s))
    with (Some (JSON_stringify s (addedRepositories s))).
  destruct (JSON_parse_spec (JSON_stringify s (addedRepositories s))
              (freshStore (serialized s))) as (ls & s1 & E & _ & L).
  rewrite E. destruct (addedRepositories s) as [| r rs]; [contradiction |].
  inversion L; subst. cbn [isValidRepoList forallb].
  now rewrite Hplain.
Qed.

End Reload.

(** ** The sample states *)

Lemma sample_states_have_no_dangling_reference :
  Forall (fun s => no_dangling_reference s = true)
    [first_visit; one_added; two_added; three_added; shared_added;
     exec (updateRepository 3%positive) one_added;
     exec (removeRepository 1%positive) two_added;
     exec (removeRepository 1%positive) three_added;
     exec (removeRepository 3%positive) shared_added].
Proof. repeat constructor. Qed.

(** ** updateRepository and the selection invariant *)

(** C1. [updateRepository] does not keep the selection invariant.  With
    record 1 of repository 1 open, replacing repository 1 by repository 3,
    which bears the same full name and has no record at the path of
    record 1, returns normally and leaves record 1 open and repository 1
    current, although repository 1 is no longer added and no added
    repository holds record 1. *)
Theorem updateRepository_breaks_selection_invariant :
  selection_invariant one_added
  /\ outcome (updateRepository 3%positive) one_added = Normal tt
  /\ addedRepositories (exec (updateRepository 3%positive) one_added)
     = [3%positive]
  /\ currentlyEditedAdr (exec (updateRepository 3%positive) one_added)
     = Some 1%positive
  /\ currentRepository (exec (updateRepository 3%positive) one_added)
     = Some 1%positive
  /\ ~ selection_invariant (exec (updateRepository 3%positive) one_added).
Proof.
  split.
  { intros a Ha. vm_compute in Ha. injection Ha as <-.
    split; [reflexivity |]. exists 1%positive.
    repeat split; vm_compute; auto. }
  repeat split; try (vm_compute; reflexivity).
  intros Hinv. destruct (Hinv 1%positive) as (_ & r & Hr & _ & Hc & _).
  { vm_compute. reflexivity. }
  vm_compute in Hr, Hc. destruct Hr as [<- | []]. discriminate.
Qed.

(** ** The invariant under the other methods *)

Lemma openAdr_cases (adr : option loc) (s : Store) :
  openAdr adr s = (Normal tt, s)
  \/ exists a r, adr = Some a /\ isValidAdr s (Some a) = true
                 /\ containing s (Some a) = Some r
                 /\ openAdr adr s = (Normal tt, opened r a s).
Proof.
  destruct (same_ref adr (currentlyEditedAdr s)) eqn:Es.
  { left. apply openAdr_noop. left. now apply same_ref_true. }
  destruct (isValidAdr s adr) eqn:Ev.
  2: { left. apply openAdr_noop. auto. }
  destruct (containing s adr) as [r |] eqn:Ec.
  2: { left. apply openAdr_noop. auto. }
  right. destruct adr as [a |]; [| discriminate].
  exists a, r. repeat split; auto.
  apply openAdr_opens; auto. apply same_ref_false in Es. congruence.
Qed.

Lemma selection_invariant_nothing_open (s : Store) :
  currentlyEditedAdr s = None -> selection_invariant s.
Proof. intros H a Ha. congruence. Qed.

Lemma selection_invariant_opened (s : Store) (r b : loc) :
  isValidAdr s (Some b) = true -> containing s (Some b) = Some r ->
  selection_invariant (opened r b s).
Proof.
  intros Hv Hc a [= <-]. split; [exact Hv |].
  destruct (containing_Some _ _ _ Hc) as (b' & [= <-] & Hr & Hb).
  exists r. repeat split; assumption.
Qed.

(** The invariant only reads the heaps, the list of repositories and the
    three selection fields. *)
Lemma selection_invariant_frame (s s' : Store) :
  adrObjects s' = adrObjects s -> repoObjects s' = repoObjects s ->
  addedRepositories s' = addedRepositories s ->
  currentlyEditedAdr s' = currentlyEditedAdr s ->
  currentRepository s' = currentRepository s ->
  currentBranch s' = currentBranch s ->
  selection_invariant s -> selection_invariant s'.
Proof.
  intros Ha Hr Hl Hc Hcr Hcb Hinv a Hopen.
  unfold selection_invariant, isValidAdr, adrAt, repoAt in *.
  rewrite Ha, Hr, Hl, Hcr, Hcb. apply Hinv. congruence.
Qed.

Lemma openAdr_keeps_invariant (adr : option loc) (s : Store) :
  selection_invariant s -> selection_invariant (exec (openAdr adr) s).
Proof.
  intros Hinv. unfold exec.
  destruct (openAdr_cases adr s) as [-> | (a & r & _ & Hv & Hc & ->)];
    [exact Hinv | now apply selection_invariant_opened].
Qed.

(** The repair restores the invariant by itself when it finds the
    selection stale, and leaves a selection that is not stale alone. *)
Lemma assertSomeAdrIsOpened_restores (s : Store) :
  (stale s = false -> selection_invariant s) ->
  selection_invariant (exec assertSomeAdrIsOpened s).
Proof.
  intros Hinv. unfold exec.
  destruct (assertSomeAdrIsOpened_cases s)
    as [[Hn ->] | [(_ & _ & ->) | (_ & b & r & _ & Hv & Hc & ->)]].
  - exact (Hinv Hn).
  - now apply selection_invariant_nothing_open.
  - now apply (selection_invariant_opened (cleared s)).
Qed.

Lemma not_stale (s : Store) :
  stale s = false ->
  exists a r, currentlyEditedAdr s = Some a
              /\ isValidAdr s (Some a) = true
              /\ In r (addedRepositories s) /\ In a (adrs (repoAt s r)).
Proof.
  unfold stale. intros H.
  apply orb_false_elim in H as [H Hex]. apply orb_false_elim in H as [Hn Hv].
  apply negb_false_iff in Hv, Hex. apply same_ref_false in Hn.
  destruct (currentlyEditedAdr s) as [a |]; [| contradiction].
  apply existsb_exists in Hex as (r & Hr & Hin). apply includes_In in Hin.
  eauto 6.
Qed.

Lemma removeRepository_keeps_invariant (r : loc) (s : Store) :
  exclusively_listed s -> selection_invariant s ->
  selection_invariant (exec (removeRepository r) s).
Proof.
  intros Hex Hinv. unfold exec. rewrite removeRepository_eq. cbn [snd].
  set (s1 := set_addedRepositories (remaining s r) s).
  apply (selection_invariant_frame (exec assertSomeAdrIsOpened s1));
    try reflexivity.
  apply assertSomeAdrIsOpened_restores. intros Hn.
  destruct (not_stale s1 Hn) as (a & r2 & Hcur & Hv & Hr2 & Ha2).
  change (currentlyEditedAdr s = Some a) in Hcur.
  change (In r2 (remaining s r)) in Hr2.
  change (In a (adrs (repoAt s r2))) in Ha2.
  destruct (Hinv a Hcur) as (_ & r1 & Hr1 & Ha1 & Hcr & Hcb).
  assert (Hr2' : In r2 (addedRepositories s))
    by (unfold remaining in Hr2; now apply filter_In in Hr2).
  assert (r1 = r2) as -> by (eapply Hex; eauto).
  intros a' Ha'. change (currentlyEditedAdr s = Some a') in Ha'.
  assert (a' = a) as -> by congruence.
  split; [exact Hv |]. exists r2. repeat split; assumption.
Qed.

Lemma addRepositories_keeps_invariant (repoList : list loc) (s : Store) :
  selection_invariant s ->
  selection_invariant (exec (addRepositories repoList) s).
Proof.
  intros Hinv. unfold exec.
  destruct (alreadyAdded s repoList) as [| x l] eqn:E.
  - rewrite (addRepositories_appends s repoList E).
    apply assertSomeAdrIsOpened_restores. intros _ a Ha.
    destruct (Hinv a Ha) as (Hv & r & Hr & Hin & Hcr & Hcb).
    split; [exact Hv |]. exists r. repeat split; try assumption.
    cbn. apply in_or_app. now left.
  - rewrite addRepositories_throws by (rewrite E; discriminate).
    exact Hinv.
Qed.

Lemma deleteAdr_keeps_invariant (adr : option loc) (repo : loc) (s : Store) :
  exclusively_listed s -> selection_invariant s ->
  selection_invariant (exec (deleteAdr adr repo) s).
Proof.
  intros Hex Hinv. unfold exec. rewrite deleteAdr_eq.
  set (s1 := writeRepo repo (spliced s adr repo) s).
  apply assertSomeAdrIsOpened_restores. intros Hn.
  destruct (not_stale s1 Hn) as (a & r2 & Hcur & Hv & Hr2 & Ha2).
  change (currentlyEditedAdr s = Some a) in Hcur.
  change (In r2 (addedRepositories s)) in Hr2.
  change (isValidAdr s (Some a) = true) in Hv.
  destruct (Hinv a Hcur) as (_ & r1 & Hr1 & Ha1 & Hcr & Hcb).
  intros a' Ha'. change (currentlyEditedAdr s = Some a') in Ha'.
  assert (a' = a) as -> by congruence.
  split; [exact Hv |]. exists r1.
  change (In r1 (addedRepositories s) /\ In a (adrs (repoAt s1 r1))
          /\ currentRepository s = Some r1
          /\ currentBranch s = Some (activeBranch (repoAt s1 r1))).
  assert (Hb : activeBranch (repoAt s1 r1) = activeBranch (repoAt s r1)).
  { destruct (decide (repo = r1)) as [<- | Hne].
    - unfold s1. now rewrite repoAt_writeRepo.
    - unfold s1. now rewrite repoAt_writeRepo_ne. }
  rewrite Hb. repeat split; try assumption.
  destruct (decide (repo = r2)) as [<- | Hne2].
  - destruct (decide (repo = r1)) as [<- | Hne1]; [exact Ha2 |].
    unfold s1. rewrite repoAt_writeRepo_ne by assumption. exact Ha1.
  - unfold s1 in Ha2. rewrite repoAt_writeRepo_ne in Ha2 by assumption.
    assert (r1 = r2) as -> by (eapply Hex; eauto).
    unfold s1. rewrite repoAt_writeRepo_ne by assumption. exact Ha2.
Qed.

Lemma adrAt_writeAdr (s : Store) (l : loc) (a : ADR) :
  adrAt (writeAdr l a s) l = a.
Proof. unfold adrAt, writeAdr. cbn. apply lookup_total_insert_eq. Qed.

Lemma writeAdr_writeAdr (s : Store) (l : loc) (a1 a2 : ADR) :
  writeAdr l a2 (writeAdr l a1 s) = writeAdr l a2 s.
Proof.
  unfold writeAdr, set_adrObjects. cbn. f_equal. apply insert_insert_eq.
Qed.

Lemma valid_allocated (s : Store) (a : loc) :
  isValidAdr s (Some a) = true -> is_Some (adrObjects s !! a).
Proof.
  unfold isValidAdr, adrAt. rewrite lookup_total_alt.
  destruct (adrObjects s !! a); [eauto | discriminate].
Qed.

Lemma listing_allocated (s : Store) (r a : loc) :
  In a (adrs (repoAt s r)) -> is_Some (repoObjects s !! r).
Proof.
  unfold repoAt. rewrite lookup_total_alt.
  destruct (repoObjects s !! r); [eauto | intros []].
Qed.

Lemma selection_invariant_extends (s s' : Store) :
  extends s s' -> selection_invariant s -> selection_invariant s'.
Proof.
  intros (Ha & Hr & Hd) Hinv a Hcur.
  injection Hd as Hcr Hcb Hce Hadd _ _ _ _.
  rewrite Hce in Hcur.
  destruct (Hinv a Hcur) as (Hv & r & Hin & Hl & Hrepo & Hbranch).
  destruct (valid_allocated s a Hv) as [x Hx].
  destruct (listing_allocated s r a Hl) as [y Hy].
  assert (Ea : adrAt s' a = adrAt s a).
  { unfold adrAt. rewrite (lookup_total_correct _ _ _ Hx).
    apply lookup_total_correct. eapply lookup_weaken; eassumption. }
  assert (Er : repoAt s' r = repoAt s r).
  { unfold repoAt. rewrite (lookup_total_correct _ _ _ Hy).
    apply lookup_total_correct. eapply lookup_weaken; eassumption. }
  split.
  - unfold isValidAdr in *. now rewrite Ea.
  - exists r. rewrite Er, Hadd, Hcr, Hcb. repeat split; assumption.
Qed.

Section OtherMethods.

Variable adr2md_of_new_record : string.
Variable naturalCase2snakeCase : string -> string.
Variable trim : string -> string.
Variable instanceof_Repository : Repository -> bool.

Lemma createNewAdr_keeps_invariant (repo : loc) (s : Store) :
  selection_invariant s ->
  selection_invariant (exec (createNewAdr adr2md_of_new_record repo) s).
Proof.
  intros Hinv. unfold exec.
  destruct (in_dec Pos.eq_dec repo (addedRepositories s)) as [Hin | Hout].
  2: { rewrite (createNewAdr_not_added _ s repo Hout).
       revert Hinv. now apply selection_invariant_frame. }
  rewrite (createNewAdr_added _ s repo Hin). cbn [snd].
  intros a Hcur. change (currentlyEditedAdr s = Some a) in Hcur.
  destruct (Hinv a Hcur) as (Hv & r & Hr & Hl & Hrepo & Hbranch).
  set (l := fresh (dom (adrObjects s))).
  assert (Hne : l <> a).
  { intros <-. destruct (valid_allocated s l Hv) as [x Hx].
    apply (is_fresh (dom (adrObjects s))). apply elem_of_dom. eauto. }
  assert (Ea : adrAt (created adr2md_of_new_record s repo) a = adrAt s a).
  { unfold adrAt, created, writeRepo, writeAdr. cbn. fold l.
    now apply lookup_total_insert_ne. }
  split.
  - unfold isValidAdr in *. now rewrite Ea.
  - exists r.
    change (In r (addedRepositories s)
            /\ In a (adrs (repoAt (created adr2md_of_new_record s repo) r))
            /\ currentRepository s = Some r
            /\ currentBranch s
               = Some (activeBranch
                         (repoAt (created adr2md_of_new_record s repo) r))).
    destruct (decide (repo = r)) as [<- | Hner].
    + unfold created. rewrite repoAt_writeRepo. cbn [adrs activeBranch].
      repeat split; try assumption. apply in_or_app. now left.
    + unfold created. rewrite repoAt_writeRepo_ne by assumption.
      repeat split; assumption.
Qed.

(** What [updateMdOfCurrentAdr] leaves of the open record: the new text
    and, possibly, a new path. *)
Lemma updateMdOfCurrentAdr_state (md : string) (s : Store) (c : loc) :
  currentlyEditedAdr s = Some c ->
  let s' := exec (updateMdOfCurrentAdr naturalCase2snakeCase trim md) s in
  exists p,
    (p = path (adrAt s c) \/ exists x, p = Holds x)
    /\ adrObjects s'
       = <[c := mkADR (originalMd (adrAt s c)) (Holds md) (id (adrAt s c)) p]>
           (adrObjects s)
    /\ repoObjects s' = repoObjects s
    /\ addedRepositories s' = addedRepositories s
    /\ currentlyEditedAdr s' = Some c
    /\ currentRepository s' = currentRepository s
    /\ currentBranch s' = currentBranch s.
Proof.
  intros Hcur s'. subst s'. unfold exec, updateMdOfCurrentAdr. run.
  rewrite Hcur. cbv beta iota.
  match goal with
  | |- context [if ?b then _ else _] => destruct b
  end.
  - rewrite !adrAt_writeAdr. cbn [path set_editedMd].
    destruct (read (path (adrAt s c))) as [p |] eqn:Ep.
    + cbn [snd]. rewrite !adrAt_writeAdr, writeAdr_writeAdr.
      eexists. split; [right; eexists; reflexivity |].
      cbn. rewrite Hcur. repeat split.
    + cbn [snd]. exists (path (adrAt s c)). split; [now left |].
      cbn. rewrite Hcur. repeat split.
  - cbn [snd]. exists (path (adrAt s c)). split; [now left |].
    cbn. rewrite Hcur. repeat split.
Qed.

Lemma updateMdOfCurrentAdr_keeps_invariant (md : string) (s : Store) :
  selection_invariant s ->
  selection_invariant
    (exec (updateMdOfCurrentAdr naturalCase2snakeCase trim md) s).
Proof.
  intros Hinv. destruct (currentlyEditedAdr s) as [c |] eqn:Hcur.
  2: { unfold exec, updateMdOfCurrentAdr. run. rewrite Hcur. exact Hinv. }
  destruct (updateMdOfCurrentAdr_state md s c Hcur)
    as (p & Hp & Ha & Hr & Hl & Hc & Hcr & Hcb).
  destruct (Hinv c Hcur) as (Hv & r & Hin & Hlist & Hrepo & Hbranch).
  intros a Hopen. rewrite Hc in Hopen. injection Hopen as <-.
  split.
  - unfold isValidAdr, adrAt in *. rewrite Ha, lookup_total_insert_eq.
    cbn [originalMd editedMd path].
    apply andb_prop in Hv as [Hv Hpath]. apply andb_prop in Hv as [Ho _].
    rewrite Ho. destruct Hp as [-> | [x ->]]; [now rewrite Hpath |].
    reflexivity.
  - exists r. unfold repoAt in *. rewrite Hr, Hl, Hcr, Hcb.
    repeat split; assumption.
Qed.

Lemma openAdrBy_state (repoFullName adrName : string) (s : Store) :
  exec (openAdrBy repoFullName adrName) s = s
  \/ exists adr, exec (openAdrBy repoFullName adrName) s
                 = exec (openAdr adr) s.
Proof.
  unfold exec, openAdrBy. run.
  destruct (List.find _ (addedRepositories s)) as [r |]; [| now left].
  destruct (find_or_throw _ _) as [[a |] | e]; [| now left | now left].
  right. exists (Some a). cbn. destruct (openAdr (Some a) s) as [[] ?];
    reflexivity.
Qed.

Lemma reload_keeps_invariant (s : Store) :
  selection_invariant s ->
  selection_invariant (exec (reload instanceof_Repository) s).
Proof.
  intros Hinv. unfold exec, reload. run.
  destruct (item_addedRepositories (localStorage s)) as [text |].
  2: { cbn [snd]. revert Hinv. now apply selection_invariant_frame. }
  destruct (JSON_parse_spec text s) as (ls & s1 & E & X & _). rewrite E.
  pose proof (selection_invariant_extends s s1 X Hinv) as Hinv1.
  destruct (isValidRepoList instanceof_Repository s1 ls).
  - pose proof (addRepositories_keeps_invariant ls s1 Hinv1) as Hinv2.
    unfold exec in Hinv2. destruct (addRepositories ls s1) as [[[] | e] s2];
      cbn [snd] in *; [| exact Hinv2].
    revert Hinv2. now apply selection_invariant_frame.
  - cbn [snd]. revert Hinv1. now apply selection_invariant_frame.
Qed.

(** X1. Every method but [updateRepository] keeps the selection invariant
    of a store whose open record is listed by one repository only. *)
Lemma selection_invariant_kept (c : call) (s : Store) :
  (forall u, c <> call_updateRepository u) ->
  exclusively_listed s -> selection_invariant s ->
  selection_invariant
    (after adr2md_of_new_record naturalCase2snakeCase trim
       instanceof_Repository c s).
Proof.
  intros Hc Hex Hinv. destruct c; cbn [after].
  - now apply reload_keeps_invariant.
  - revert Hinv. now apply selection_invariant_frame.
  - now apply addRepositories_keeps_invariant.
  - now apply removeRepository_keeps_invariant.
  - exfalso. now apply (Hc updatedRepository).
  - revert Hinv. now apply selection_invariant_frame.
  - apply assertSomeAdrIsOpened_restores. now intros _.
  - unfold exec. rewrite openAnyAdr_eq. now apply openAdr_keeps_invariant.
  - destruct (openAdrBy_state repoFullName adrName s) as [-> | [adr ->]];
      [exact Hinv | now apply openAdr_keeps_invariant].
  - now apply openAdr_keeps_invariant.
  - now apply updateMdOfCurrentAdr_keeps_invariant.
  - now apply createNewAdr_keeps_invariant.
  - now apply deleteAdr_keeps_invariant.
  - unfold exec, setMode. destruct (includes_string _ m); [| exact Hinv].
    revert Hinv. now apply selection_invariant_frame.
Qed.

Lemma openAdr_mode (adr : option loc) (s : Store) :
  mode (exec (openAdr adr) s) = mode s.
Proof.
  unfold exec.
  destruct (openAdr_cases adr s) as [-> | (a & r & _ & _ & _ & ->)];
    reflexivity.
Qed.

Lemma updateRepository_state (u : loc) (s : Store) :
  let s1 :=
    set_addedRepositories
      (snd (splice (addedRepositories s)
              (findIndex (fun repo =>
                 String.eqb (fullName (repoAt s repo)) (fullName (repoAt s u)))
                 (addedRepositories s)) 1 [u])) s in
  exec (updateRepository u) s = s1
  \/ exec (updateRepository u) s = persisted s1
  \/ exists adr, exec (updateRepository u) s
                 = persisted (exec (openAdr adr) s1).
Proof.
  intros s1. unfold exec, updateRepository. run. fold s1.
  destruct (at_index _ _) as [old |]; [| now left].
  destruct (includes _ _); [| right; now left].
  destruct (currentlyEditedAdr s1) as [c |]; [| now left].
  right. right.
  exists (List.find (fun adr =>
            bool_decide (read (path (adrAt s1 adr))
                         = read (path (adrAt s1 c))))
            (adrs (repoAt s1 u))).
  unfold exec.
  destruct (openAdr_cases
              (List.find (fun adr =>
                 bool_decide (read (path (adrAt s1 adr))
                              = read (path (adrAt s1 c))))
                 (adrs (repoAt s1 u))) s1)
    as [E | (a & r & _ & _ & _ & E)]; rewrite E; reflexivity.
Qed.

(** X2. No method leaves the mode empty: when the mode is not the empty
    string before a call, it is not the empty string after it. *)
Lemma mode_never_empty (c : call) (s : Store) :
  mode s <> "" ->
  mode (after adr2md_of_new_record naturalCase2snakeCase trim
          instanceof_Repository c s) <> "".
Proof.
  intros Hm. destruct c; cbn [after].
  - unfold exec, reload. run.
    assert (Hset : forall o st,
              mode (set_mode_field
                      (match o with
                       | Some m => if String.eqb m "" then "basic" else m
                       | None => "basic"
                       end) st) <> "").
    { intros [m |] st; cbn; [| discriminate].
      destruct (String.eqb m "") eqn:E; [discriminate |].
      now apply String.eqb_neq in E. }
    destruct (item_addedRepositories (localStorage s)) as [text |];
      [| apply Hset].
    destruct (JSON_parse_spec text s) as (ls & s1 & E & X & _). rewrite E.
    destruct X as (_ & _ & Hd). injection Hd as _ _ _ _ Hmode _ _ _.
    destruct (isValidRepoList instanceof_Repository s1 ls); [| apply Hset].
    destruct (alreadyAdded s1 ls) as [| x l] eqn:Ea.
    + rewrite (addRepositories_appends s1 ls Ea).
      destruct (assertSomeAdrIsOpened_frame (appended s1 ls)) as (Ho & _).
      unfold outcome in Ho.
      destruct (assertSomeAdrIsOpened (appended s1 ls)) as [c s2].
      cbn in Ho. subst c. apply Hset.
    + rewrite addRepositories_throws by (rewrite Ea; discriminate).
      cbn [snd]. congruence.
  - exact Hm.
  - unfold exec. destruct (alreadyAdded s repoList) as [| x l] eqn:Ea.
    + rewrite (addRepositories_appends s repoList Ea).
      destruct (assertSomeAdrIsOpened_frame (appended s repoList))
        as (_ & _ & _ & _ & Hmode & _).
      unfold exec in Hmode. now rewrite Hmode.
    + rewrite addRepositories_throws by (rewrite Ea; discriminate).
      exact Hm.
  - unfold exec. rewrite removeRepository_eq. cbn [snd].
    change (mode (exec assertSomeAdrIsOpened
                    (set_addedRepositories (remaining s repoToRemove) s))
            <> "").
    destruct (assertSomeAdrIsOpened_frame
                (set_addedRepositories (remaining s repoToRemove) s))
      as (_ & _ & _ & _ & Hmode & _).
    now rewrite Hmode.
  - destruct (updateRepository_state updatedRepository s)
      as [-> | [-> | [adr ->]]]; try exact Hm.
    change (mode (exec (openAdr adr)
                    (set_addedRepositories
                       (snd (splice (addedRepositories s)
                          (findIndex (fun repo =>
                             String.eqb (fullName (repoAt s repo))
                               (fullName (repoAt s updatedRepository)))
                             (addedRepositories s)) 1 [updatedRepository]))
                       s)) <> "").
    now rewrite openAdr_mode.
  - exact Hm.
  - destruct (assertSomeAdrIsOpened_frame s) as (_ & _ & _ & _ & Hmode & _).
    now rewrite Hmode.
  - unfold exec. rewrite openAnyAdr_eq. fold (exec (openAdr (firstAdr s)) s).
    now rewrite openAdr_mode.
  - destruct (openAdrBy_state repoFullName adrName s) as [-> | [adr ->]];
      [exact Hm | now rewrite openAdr_mode].
  - now rewrite openAdr_mode.
  - unfold exec, updateMdOfCurrentAdr. run.
    destruct (currentlyEditedAdr s) as [c0 |]; [| exact Hm]. cbv beta iota.
    match goal with
    | |- context [if ?b then _ else _] => destruct b
    end; [| exact Hm].
    match goal with
    | |- context [match ?x with Some _ => _ | None => _ end] => destruct x
    end; exact Hm.
  - unfold exec.
    destruct (in_dec Pos.eq_dec repo (addedRepositories s)) as [Hin | Hout].
    + now rewrite (createNewAdr_added _ s repo Hin).
    + now rewrite (createNewAdr_not_added _ s repo Hout).
  - unfold exec. rewrite deleteAdr_eq.
    destruct (assertSomeAdrIsOpened_frame
                (writeRepo repo (spliced s adr repo) s))
      as (_ & _ & _ & _ & Hmode & _).
    unfold exec in Hmode. now rewrite Hmode.
  - unfold exec, setMode.
    destruct (includes_string _ m) eqn:E; [| exact Hm]. cbn.
    apply includes_string_In in E.
    destruct E as [<- | [<- | [<- | []]]]; discriminate.
Qed.

End OtherMethods.

(** ** removeRepository, as the claim words it *)

(** Removing repository 1 while its record is open leaves repository 2,
    whose only record is not valid: nothing is open afterwards although a
    repository with a record remains. *)
Lemma removeRepository_third_outcome :
  selection_invariant two_added
  /\ currentlyEditedAdr (exec (removeRepository 1%positive) two_added) = None
  /\ adrs (repoAt (exec (removeRepository 1%positive) two_added) 2%positive)
     = [2%positive]
  /\ ~ reselects_or_nothing_left two_added 1%positive.
Proof.
  split.
  { intros a Ha. vm_compute in Ha. injection Ha as <-.
    split; [reflexivity |]. exists 1%positive.
    repeat split; vm_compute; auto. }
  split; [vm_compute; reflexivity |]. split; [vm_compute; reflexivity |].
  intros H. destruct (H 1%positive) as [(b & r' & _ & _ & _ & _ & Hb & _)
                                       | (Hempty & _)].
  - vm_compute. reflexivity.
  - vm_compute. auto.
  - vm_compute in Hb. discriminate.
  - specialize (Hempty 2%positive). vm_compute in Hempty.
    assert (Hin : 2%positive = 2%positive \/ False) by now left.
    specialize (Hempty Hin). discriminate.
Qed.

(** When the open record is also listed by a repository that stays,
    [removeRepository] finds the selection in order and leaves it alone:
    the record stays open and the removed repository stays current.  This
    is why the amended C3 and the lemmas on the invariant ask for a record
    that one repository only lists. *)
Lemma removeRepository_shared_record :
  selection_invariant shared_added
  /\ ~ exclusively_listed shared_added
  /\ addedRepositories (exec (removeRepository 3%positive) shared_added)
     = [4%positive]
  /\ currentlyEditedAdr (exec (removeRepository 3%positive) shared_added)
     = Some 3%positive
  /\ currentRepository (exec (removeRepository 3%positive) shared_added)
     = Some 3%positive
  /\ ~ selection_invariant (exec (removeRepository 3%positive) shared_added).
Proof.
  split.
  { intros a Ha. vm_compute in Ha. injection Ha as <-.
    split; [reflexivity |]. exists 3%positive.
    repeat split; vm_compute; auto. }
  split.
  { intros H.
    assert (E : 3%positive = 4%positive); [| discriminate].
    apply (H 3%positive); vm_compute; auto. }
  repeat split; try (vm_compute; reflexivity).
  intros Hinv. destruct (Hinv 3%positive) as (_ & r & Hr & _ & Hc & _).
  { vm_compute. reflexivity. }
  vm_compute in Hr, Hc. destruct Hr as [<- | []]. discriminate.
Qed.

(** ** Instances *)

Lemma setMode_spec_instance :
  setMode "advanced" first_visit
  = (Normal tt,
     mkStore sample_records sample_repositories None None None [] "advanced"
       None (mkLocalStorage None (Some "advanced")) [set_mode "advanced"])
  /\ setMode "bogus" first_visit = (Normal tt, first_visit).
Proof.
  split.
  - apply (proj1 (setMode_spec "advanced" first_visit)).
    vm_compute. auto.
  - apply (proj2 (setMode_spec "bogus" first_visit)).
    vm_compute. intros [H | [H | [H | []]]]; discriminate.
Defined.

Lemma openAdr_spec_instance :
  isValidAdr three_added (Some 3%positive) = true
  /\ currentlyEditedAdr three_added <> Some 3%positive
  /\ (exists r,
        In r (addedRepositories three_added)
        /\ In 3%positive (adrs (repoAt three_added r))
        /\ containing three_added (Some 3%positive) = Some r
        /\ openAdr (Some 3%positive) three_added =
             (Normal tt,
              mkStore (adrObjects three_added) (repoObjects three_added)
                (Some r) (Some (activeBranch (repoAt three_added r)))
                (Some 3%positive) (addedRepositories three_added)
                (mode three_added) (this_activeBranch three_added)
                (localStorage three_added)
                (emitted three_added ++ [open_adr 3%positive])))
  /\ openAdr (Some 2%positive) three_added = (Normal tt, three_added)
  /\ openAdr None three_added = (Normal tt, three_added).
Proof.
  split; [reflexivity |]. split; [vm_compute; discriminate |]. split.
  - apply (proj1 (openAdr_spec three_added) 3%positive).
    + reflexivity.
    + exists 4%positive. vm_compute. auto.
    + vm_compute. discriminate.
  - split.
    + apply (proj2 (openAdr_spec three_added) (Some 2%positive)).
      left. reflexivity.
    + apply (proj2 (openAdr_spec three_added) None). left. reflexivity.
Defined.

Lemma addRepositories_all_or_nothing_instance :
  (exists msg,
      addRepositories [2%positive; 3%positive] two_added
      = (Abrupt (ThrownString msg), two_added)
      /\ occurs_in "org/two" msg /\ occurs_in "org/repo" msg)
  /\ outcome (addRepositories [1%positive; 2%positive]) first_visit
     = Normal tt
  /\ addedRepositories
       (exec (addRepositories [1%positive; 2%positive]) first_visit)
     = [1%positive; 2%positive].
Proof.
  split.
  - destruct (proj1 (addRepositories_all_or_nothing two_added
                       [2%positive; 3%positive])) as (msg & Hmsg & Hall).
    { exists 3%positive, 1%positive. vm_compute. auto. }
    exists msg. split; [exact Hmsg |]. split.
    + apply (Hall 2%positive 2%positive); vm_compute; auto.
    + apply (Hall 3%positive 1%positive); vm_compute; auto.
  - apply (proj2 (addRepositories_all_or_nothing first_visit
                    [1%positive; 2%positive])).
    intros r r' _ H. vm_compute in H. destruct H.
Defined.

Lemma removeRepository_reselects_instance :
  currentlyEditedAdr three_added = Some 1%positive
  /\ In 1%positive (adrs (repoAt three_added 1%positive))
  /\ (forall r', In r' (remaining three_added 1%positive) ->
                 ~ In 1%positive (adrs (repoAt three_added r')))
  /\ currentlyEditedAdr (exec (removeRepository 1%positive) three_added)
     = Some 3%positive
  /\ currentRepository (exec (removeRepository 1%positive) three_added)
     = Some 4%positive
  /\ currentBranch (exec (removeRepository 1%positive) three_added)
     = Some "trunk"
  /\ let s' := exec (removeRepository 1%positive) three_added in
     outcome (removeRepository 1%positive) three_added = Normal tt
     /\ addedRepositories s' = remaining three_added 1%positive
     /\ adrObjects s' = adrObjects three_added
     /\ repoObjects s' = repoObjects three_added
     /\ ((exists b r',
            firstAdr s' = Some b /\ isValidAdr s' (Some b) = true
            /\ b <> 1%positive
            /\ In r' (addedRepositories s') /\ In b (adrs (repoAt s' r'))
            /\ currentlyEditedAdr s' = Some b
            /\ currentRepository s' = Some r'
            /\ currentBranch s' = Some (activeBranch (repoAt s' r')))
         \/ ((forall b, firstAdr s' = Some b ->
                        isValidAdr s' (Some b) = false)
             /\ currentlyEditedAdr s' = None
             /\ currentRepository s' = None
             /\ currentBranch s' = None)).
Proof.
  assert (H3 : forall r', In r' (remaining three_added 1%positive) ->
                          ~ In 1%positive (adrs (repoAt three_added r'))).
  { intros r' Hr'. vm_compute in Hr'.
    destruct Hr' as [<- | [<- | []]]; vm_compute.
    - intros [H | []]. discriminate.
    - intros []. }
  split; [reflexivity |]. split; [vm_compute; auto |]. split; [exact H3 |].
  split; [reflexivity |]. split; [reflexivity |]. split; [reflexivity |].
  apply (removeRepository_reselects three_added 1%positive 1%positive).
  - reflexivity.
  - vm_compute. auto.
  - exact H3.
Defined.

Lemma deleteAdr_absent_record_drops_last_instance :
  (forall a, Some 3%positive = Some a ->
             ~ In a (adrs (repoAt two_added 1%positive)))
  /\ adrs (repoAt two_added 1%positive) = [1%positive]
  /\ adrs (repoAt (exec (deleteAdr (Some 3%positive) 1%positive) two_added)
             1%positive) = []
  /\ adrs (repoAt (exec (deleteAdr (Some 3%positive) 5%positive) two_added)
             5%positive) = [].
Proof.
  assert (H : forall a, Some 3%positive = Some a ->
                        ~ In a (adrs (repoAt two_added 1%positive))).
  { intros a [= <-]. vm_compute. intros [E | []]. discriminate. }
  split; [exact H |]. split; [reflexivity |]. split.
  - apply (proj1 (proj1 (deleteAdr_absent_record_drops_last two_added
                           (Some 3%positive) 1%positive H)
                    ltac:(vm_compute; discriminate))).
  - apply (proj2 (deleteAdr_absent_record_drops_last two_added
                    (Some 3%positive) 5%positive
                    ltac:(intros a _; vm_compute; intros []))).
    reflexivity.
Defined.

Lemma createNewAdr_spec_instance :
  In 1%positive (addedRepositories two_added)
  /\ Forall (fun i => i <= MAX_SAFE_INTEGER)
       (map (fun adr => id (adrAt two_added adr))
          (adrs (repoAt two_added 1%positive)))
  /\ Forall (fun i => 0 <= i)
       (map (fun adr => id (adrAt two_added adr))
          (adrs (repoAt two_added 1%positive)))
  /\ exists newAdr s',
       createNewAdr "# Title" 1%positive two_added
       = (Normal (Some newAdr), s')
       /\ adrObjects two_added !! newAdr = None
       /\ originalMd (adrAt s' newAdr) = Undefined
       /\ editedMd (adrAt s' newAdr) = Holds "# Title"
       /\ id (adrAt s' newAdr) = 1
       /\ is_maximum (id (adrAt s' newAdr) - 1) [0]
       /\ path (adrAt s' newAdr) = Holds "docs/adr/0001-unnamed.md"
       /\ adrs (repoAt s' 1%positive) = [1%positive; newAdr]
       /\ addedAdrs (repoAt s' 1%positive) = Some [newAdr].
Proof.
  assert (Hin : In 1%positive (addedRepositories two_added))
    by (vm_compute; auto).
  assert (Hpos : Forall (fun i => 0 <= i)
                   (map (fun adr => id (adrAt two_added adr))
                      (adrs (repoAt two_added 1%positive)))).
  { vm_compute. constructor; [discriminate | constructor]. }
  assert (Hsafe : Forall (fun i => i <= MAX_SAFE_INTEGER)
                    (map (fun adr => id (adrAt two_added adr))
                       (adrs (repoAt two_added 1%positive)))).
  { change (map (fun adr => id (adrAt two_added adr))
              (adrs (repoAt two_added 1%positive))) with [0].
    constructor; [unfold MAX_SAFE_INTEGER; lia | constructor]. }
  split; [exact Hin |]. split; [exact Hsafe |]. split; [exact Hpos |].
  destruct (createNewAdr_spec "# Title" two_added 1%positive Hin Hsafe)
    as (newAdr & s' & Hrun & Hnew & Ho & He & Hid & _ & Hmax & Hp & _
        & Hadrs & Hadded).
  exists newAdr, s'.
  split; [exact Hrun |]. split; [exact Hnew |]. split; [exact Ho |].
  split; [exact He |]. split; [exact Hid |].
  split; [apply Hmax; [vm_compute; discriminate | exact Hpos] |].
  split; [rewrite Hp, Hid; reflexivity |].
  split; [exact Hadrs | exact Hadded].
Defined.

(** With a record numbered [2 ^ 53] in the repository, the sum
    [Math.max(...) + 1] is rounded back to [2 ^ 53]: the record
    [createNewAdr] makes bears the identifier the repository has already,
    not one more than the greatest. *)
Lemma createNewAdr_repeats_identifier :
  In 1%positive (addedRepositories at_the_limit)
  /\ identifiers at_the_limit 1%positive = [9007199254740992]
  /\ (exists newAdr s',
        createNewAdr "# Title" 1%positive at_the_limit
        = (Normal (Some newAdr), s')
        /\ id (adrAt s' newAdr) = 9007199254740992)
  /\ ~ numbered_after_greatest "# Title" at_the_limit 1%positive.
Proof.
  assert (Hin : In 1%positive (addedRepositories at_the_limit))
    by (vm_compute; auto).
  assert (Hids : identifiers at_the_limit 1%positive = [9007199254740992])
    by (vm_compute; reflexivity).
  assert (Hrun : createNewAdr "# Title" 1%positive at_the_limit
                 = (Normal (Some (fresh (dom (adrObjects at_the_limit)))),
                    created "# Title" at_the_limit 1%positive))
    by (now apply createNewAdr_added).
  assert (Hid : id (adrAt (created "# Title" at_the_limit 1%positive)
                      (fresh (dom (adrObjects at_the_limit))))
                = 9007199254740992) by (vm_compute; reflexivity).
  split; [exact Hin |]. split; [exact Hids |]. split.
  - eexists. eexists. split; [exact Hrun | exact Hid].
  - intros H. destruct (H Hin) as (a & s' & Hrun' & _ & Hmax).
    rewrite Hrun in Hrun'. injection Hrun' as <- <-.
    assert (Hne : identifiers at_the_limit 1%positive <> [])
      by (rewrite Hids; discriminate).
    specialize (Hmax Hne).
    change (is_maximum
              (id (adrAt (created "# Title" at_the_limit 1%positive)
                     (fresh (dom (adrObjects at_the_limit)))) - 1)
              (identifiers at_the_limit 1%positive)) in Hmax.
    rewrite Hids, Hid in Hmax.
    destruct Hmax as [[Heq | []] _]. discriminate Heq.
Qed.

(** On a first visit, [createNewAdr] for a repository that was never
    added does write to the local storage: the key [addedRepositories],
    absent before, holds the text of the empty list afterwards. *)
Lemma createNewAdr_failure_writes_storage :
  ~ In 1%positive (addedRepositories first_visit)
  /\ outcome (createNewAdr "# Title" 1%positive) first_visit = Normal None
  /\ item_addedRepositories (localStorage first_visit) = None
  /\ item_addedRepositories
       (localStorage (exec (createNewAdr "# Title" 1%positive) first_visit))
     = Some []
  /\ ~ failure_skips_persistence "# Title" first_visit 1%positive.
Proof.
  assert (Hout : ~ In 1%positive (addedRepositories first_visit))
    by (vm_compute; intros []).
  split; [exact Hout |]. repeat split.
  intros H. destruct (H Hout) as [_ Hls]. vm_compute in Hls. discriminate.
Qed.

Lemma createNewAdr_persists_only_on_failure_instance :
  ~ In 1%positive (addedRepositories first_visit)
  /\ In 1%positive (addedRepositories two_added)
  /\ (createNewAdr "# Title" 1%positive first_visit
      = (Normal None, exec updateLocalStorageRepositories first_visit)
      /\ item_addedRepositories
           (localStorage
              (exec (createNewAdr "# Title" 1%positive) first_visit))
         = Some (JSON_stringify first_visit (addedRepositories first_visit)))
  /\ ((exists newAdr,
         outcome (createNewAdr "# Title" 1%positive) two_added
         = Normal (Some newAdr))
      /\ localStorage (exec (createNewAdr "# Title" 1%positive) two_added)
         = localStorage two_added).
Proof.
  assert (Hout : ~ In 1%positive (addedRepositories first_visit))
    by (vm_compute; intros []).
  assert (Hin : In 1%positive (addedRepositories two_added))
    by (vm_compute; auto).
  split; [exact Hout |]. split; [exact Hin |]. split.
  - exact (proj1 (createNewAdr_persists_only_on_failure "# Title"
                    first_visit 1%positive) Hout).
  - exact (proj2 (createNewAdr_persists_only_on_failure "# Title"
                    two_added 1%positive) Hin).
Defined.

Lemma reload_round_trip_instance :
  mode three_added <> ""
  /\ stored_data_valid (fun _ => true) (serialized three_added) = true
  /\ stored_data_valid (fun _ => false) (serialized three_added) = false
  /\ outcome (reload (fun _ => true)) (freshStore (serialized three_added))
     = Normal tt
  /\ equivalent three_added
       (exec (reload (fun _ => true)) (freshStore (serialized three_added)))
  /\ addedRepositories
       (exec (reload (fun _ => false)) (freshStore (serialized three_added)))
     = [].
Proof.
  assert (Hmode : mode three_added <> "") by (vm_compute; discriminate).
  split; [exact Hmode |]. split; [vm_compute; reflexivity |].
  split; [vm_compute; reflexivity |].
  destruct (reload_round_trip (fun _ => true) three_added Hmode)
    as (Ho & _ & Heq & _).
  destruct (reload_round_trip (fun _ => false) three_added Hmode)
    as (_ & _ & _ & Hempty).
  split; [exact Ho |]. split.
  - apply Heq. vm_compute. reflexivity.
  - apply Hempty. vm_compute. reflexivity.
Defined.


(** * Further properties of the methods *)

(** ** Opening and repairing twice *)

Lemma containing_held (s : Store) (adr : option loc) (r : loc) :
  containing s adr = Some r ->
  existsb (fun repo => includes (adrs (repoAt s repo)) adr)
    (addedRepositories s) = true.
Proof.
  unfold containing. intros H. apply find_some in H as [Hin Hinc].
  apply existsb_exists. eauto.
Qed.

Lemma opened_not_stale (s : Store) (r b : loc) :
  isValidAdr s (Some b) = true -> containing s (Some b) = Some r ->
  stale (opened r b s) = false.
Proof.
  intros Hv Hc. unfold stale.
  change (currentlyEditedAdr (opened r b s)) with (Some b).
  change (isValidAdr (opened r b s) (Some b)) with (isValidAdr s (Some b)).
  change (existsb _ (addedRepositories (opened r b s)))
    with (existsb (fun repo => includes (adrs (repoAt s repo)) (Some b))
            (addedRepositories s)).
  rewrite Hv, (containing_held s (Some b) r Hc). reflexivity.
Qed.

(** X4. Opening the same record twice in a row does nothing the second
    time: whatever the first [openAdr(adr)] did, a second call with the
    same argument returns normally and leaves the state, the log of
    events included, as the first call left it. *)
Theorem openAdr_twice (adr : option loc) (s : Store) :
  openAdr adr (exec (openAdr adr) s) = (Normal tt, exec (openAdr adr) s).
Proof.
  unfold exec.
  destruct (openAdr_cases adr s) as [E | (a & r & -> & Hv & Hc & E)];
    rewrite E; cbn [snd].
  - exact E.
  - apply openAdr_noop. left. reflexivity.
Qed.

(** X5. The repair is idempotent: running [assertSomeAdrIsOpened] on the
    state it has just left changes nothing, whether the first run kept the
    selection, opened a record or cleared everything. *)
Theorem assertSomeAdrIsOpened_twice (s : Store) :
  assertSomeAdrIsOpened (exec assertSomeAdrIsOpened s)
  = (Normal tt, exec assertSomeAdrIsOpened s).
Proof.
  unfold exec.
  destruct (assertSomeAdrIsOpened_cases s)
    as [[Hn E] | [(_ & Hinv & E) | (_ & b & r & _ & Hv & Hc & E)]];
    rewrite E; cbn [snd].
  - exact E.
  - rewrite assertSomeAdrIsOpened_eq.
    change (stale (cleared s)) with true. cbv iota.
    change (cleared (cleared s)) with (cleared s).
    change (firstAdr (cleared s)) with (firstAdr s).
    apply openAdr_noop. right. left.
    destruct (firstAdr s) as [b |]; [| reflexivity].
    exact (Hinv b eq_refl).
  - rewrite assertSomeAdrIsOpened_eq.
    rewrite (opened_not_stale (cleared s) r b Hv Hc). reflexivity.
Qed.

(** X6. What the repair guarantees, whatever the state it starts from:
    afterwards the selection is in order (a valid record that an added
    repository lists is open) or the three selection fields are cleared;
    a record is open whenever the first record of the first repository
    that has records is valid; and nothing is open when no added
    repository has a record. *)
Theorem assertSomeAdrIsOpened_settles (s : Store) :
  let s' := exec assertSomeAdrIsOpened s in
  (stale s' = false
   \/ (currentlyEditedAdr s' = None /\ currentRepository s' = None
       /\ currentBranch s' = None))
  /\ (forall b, firstAdr s = Some b -> isValidAdr s (Some b) = true ->
                stale s' = false)
  /\ ((forall r, In r (addedRepositories s) -> adrs (repoAt s r) = []) ->
      currentlyEditedAdr s' = None /\ currentRepository s' = None
      /\ currentBranch s' = None).
Proof.
  intros s'. subst s'. unfold exec.
  destruct (assertSomeAdrIsOpened_cases s)
    as [[Hn E] | [(_ & Hinv & E) | (_ & b & r & Hf & Hv & Hc & E)]];
    rewrite E; cbn [snd].
  - split; [now left |]. split; [intros; exact Hn |].
    intros Hempty. destruct (not_stale s Hn) as (a & r & _ & _ & Hr & Ha).
    rewrite (Hempty r Hr) in Ha. destruct Ha.
  - split; [right; repeat split |]. split; [| repeat split].
    intros b Hf Hv. rewrite (Hinv b Hf) in Hv. discriminate.
  - pose proof (opened_not_stale (cleared s) r b Hv Hc) as Hok.
    split; [now left |]. split; [intros; exact Hok |].
    intros Hempty. apply firstAdr_None in Hempty. congruence.
Qed.

Lemma assertSomeAdrIsOpened_settles_instance :
  firstAdr two_added = Some 1%positive
  /\ isValidAdr two_added (Some 1%positive) = true
  /\ stale (exec assertSomeAdrIsOpened two_added) = false
  /\ (forall r, In r (addedRepositories first_visit) ->
                adrs (repoAt first_visit r) = [])
  /\ currentlyEditedAdr (exec assertSomeAdrIsOpened first_visit) = None.
Proof.
  split; [reflexivity |]. split; [reflexivity |]. split.
  - apply (proj1 (proj2 (assertSomeAdrIsOpened_settles two_added))
             1%positive); reflexivity.
  - assert (H : forall r, In r (addedRepositories first_visit) ->
                          adrs (repoAt first_visit r) = [])
      by (intros r Hr; vm_compute in Hr; destruct Hr).
    split; [exact H |].
    apply (proj2 (proj2 (assertSomeAdrIsOpened_settles first_visit)) H).
Defined.

(** ** The snapshot and the state *)

Lemma JSON_stringify_frame (s s' : Store) (repos : list loc) :
  adrObjects s' = adrObjects s -> repoObjects s' = repoObjects s ->
  JSON_stringify s' repos = JSON_stringify s repos.
Proof.
  intros Ha Hr. unfold JSON_stringify, stringifyRepo, stringifyAdr, repoAt,
    adrAt. now rewrite Ha, Hr.
Qed.

Lemma in_sync_persisted (s : Store) : in_sync (persisted s).
Proof. reflexivity. Qed.

Lemma in_sync_frame (s s' : Store) :
  adrObjects s' = adrObjects s -> repoObjects s' = repoObjects s ->
  addedRepositories s' = addedRepositories s ->
  localStorage s' = localStorage s ->
  in_sync s -> in_sync s'.
Proof.
  intros Ha Hr Hl Hs H. unfold in_sync in *.
  now rewrite Hs, Hl, (JSON_stringify_frame s s' _ Ha Hr).
Qed.

Lemma findIndex_range {A} (f : A -> bool) (l : list A) :
  findIndex f l = -1 \/ 0 <= findIndex f l < Z.of_nat (length l).
Proof.
  induction l as [| x l IH]; cbn [findIndex length]; [now left |].
  destruct (f x); [right; lia |].
  destruct IH as [-> | IH]; [now left |].
  right. destruct (findIndex f l <? 0) eqn:E; lia.
Qed.

(** [arr[arr.findIndex(f)]] is [arr.find(f)]. *)
Lemma at_index_findIndex {A} (f : A -> bool) (l : list A) :
  at_index l (findIndex f l) = List.find f l.
Proof.
  induction l as [| x l IH]; [reflexivity |].
  cbn [findIndex List.find]. destruct (f x); [reflexivity |].
  destruct (findIndex_range f l) as [E | Hr].
  - rewrite E in *. cbn. exact IH.
  - destruct (findIndex f l <? 0) eqn:E; [lia |].
    rewrite <- IH. unfold at_index.
    destruct (findIndex f l + 1 <? 0) eqn:E1; [lia |]. rewrite E.
    replace (Z.to_nat (findIndex f l + 1)) with (S (Z.to_nat (findIndex f l)))
      by lia.
    reflexivity.
Qed.

Lemma find_split {A} (f : A -> bool) (l : list A) (x : A) :
  List.find f l = Some x ->
  exists l1 l2, l = l1 ++ x :: l2 /\ f x = true
                /\ Forall (fun y => f y = false) l1
                /\ findIndex f l = Z.of_nat (length l1).
Proof.
  induction l as [| y l IH]; [discriminate |].
  cbn [List.find findIndex]. destruct (f y) eqn:E.
  - intros [= ->]. exists [], l. repeat split; auto.
  - intros H. destruct (IH H) as (l1 & l2 & -> & Hx & Hall & Hi).
    exists (y :: l1), l2. repeat split; auto.
    rewrite Hi. destruct (Z.of_nat (length l1) <? 0) eqn:E1; [lia |].
    cbn [length]. lia.
Qed.

(** [splice(i, 1, ...items)] at an index of the array replaces the element
    there. *)
Lemma splice_at {A} (l1 l2 : list A) (x : A) (items : list A) :
  splice (l1 ++ x :: l2) (Z.of_nat (length l1)) 1 items
  = ([x], l1 ++ items ++ l2).
Proof.
  unfold splice. rewrite length_app. cbn [length].
  assert (E : (Z.of_nat (length l1) <? 0) = false) by (apply Z.ltb_ge; lia).
  rewrite E.
  replace (Z.to_nat (Z.min (Z.of_nat (length l1))
             (Z.of_nat (length l1 + S (length l2))))) with (length l1) by lia.
  replace (Z.to_nat (Z.min (Z.max 1 0)
             (Z.of_nat (length l1 + S (length l2))
              - Z.min (Z.of_nat (length l1))
                  (Z.of_nat (length l1 + S (length l2))))))
    with 1%nat by lia.
  assert (D1 : skipn (length l1) (l1 ++ x :: l2) = x :: l2).
  { rewrite skipn_app, skipn_all, Nat.sub_diag. reflexivity. }
  assert (D2 : skipn (length l1 + 1) (l1 ++ x :: l2) = l2).
  { rewrite skipn_app, (skipn_all2 l1) by lia.
    replace (length l1 + 1 - length l1)%nat with 1%nat by lia. reflexivity. }
  assert (T : firstn (length l1) (l1 ++ x :: l2) = l1).
  { rewrite firstn_app, firstn_all, Nat.sub_diag. cbn.
    now rewrite app_nil_r. }
  rewrite D1, D2, T. reflexivity.
Qed.

(** [splice(-1, 1, ...items)] puts the items in place of the last element,
    or into the empty array. *)
Lemma splice_minus_one_items {A} (l items : list A) :
  snd (splice l (-1) 1 items) = removelast l ++ items.
Proof.
  unfold splice. cbn [snd]. destruct l as [| x l]; [cbn; now rewrite app_nil_r |].
  rewrite removelast_firstn_len. set (n := length (x :: l)).
  assert (Hn : (1 <= n)%nat) by (subst n; cbn; lia).
  change (-1 <? 0) with true. cbv iota.
  replace (Z.to_nat (Z.max (Z.of_nat n + -1) 0)) with (pred n) by lia.
  replace (Z.to_nat (Z.min (Z.max 1 0)
             (Z.of_nat n - Z.max (Z.of_nat n + -1) 0))) with 1%nat by lia.
  replace (pred n + 1)%nat with n by lia.
  subst n. rewrite skipn_all. now rewrite app_nil_r.
Qed.

(** ** updateRepository *)

Lemma openAdr_returns (adr : option loc) (s : Store) :
  openAdr adr s = (Normal tt, exec (openAdr adr) s).
Proof.
  unfold exec.
  destruct (openAdr_cases adr s) as [E | (a & r & _ & _ & _ & E)];
    rewrite E; reflexivity.
Qed.

Lemma updateRepository_unknown (u : loc) (s : Store) :
  namesake s u = None ->
  updateRepository u s
  = (Abrupt TypeError,
     set_addedRepositories (removelast (addedRepositories s) ++ [u]) s).
Proof.
  intros Hn. unfold updateRepository. run.
  rewrite at_index_findIndex. fold (namesake s u). rewrite Hn.
  rewrite findIndex_absent.
  - now rewrite splice_minus_one_items.
  - intros x Hx. exact (find_none _ _ Hn x Hx).
Qed.

Lemma updateRepository_known (u old : loc) (s : Store) (l1 l2 : list loc) :
  addedRepositories s = l1 ++ old :: l2 ->
  findIndex (fun repo =>
    String.eqb (fullName (repoAt s repo)) (fullName (repoAt s u)))
    (addedRepositories s) = Z.of_nat (length l1) ->
  let s1 := set_addedRepositories (l1 ++ u :: l2) s in
  updateRepository u s
  = (Normal tt,
     persisted
       (match currentlyEditedAdr s with
        | Some c =>
            if includes (adrs (repoAt s old)) (Some c)
            then exec (openAdr (recordAtPathOf s u c)) s1
            else s1
        | None => s1
        end)).
Proof.
  intros Hl Hi s1. unfold updateRepository. run. rewrite Hi, Hl.
  rewrite splice_at. cbn [snd app]. fold s1.
  assert (Hat : at_index (l1 ++ old :: l2) (Z.of_nat (length l1)) = Some old).
  { unfold at_index.
    assert (E : (Z.of_nat (length l1) <? 0) = false) by (apply Z.ltb_ge; lia).
    rewrite E, Nat2Z.id, nth_error_app2, Nat.sub_diag by lia. reflexivity. }
  rewrite Hat.
  change (repoAt s1 old) with (repoAt s old).
  assert (Hc1 : currentlyEditedAdr s1 = currentlyEditedAdr s) by reflexivity.
  destruct (currentlyEditedAdr s) as [c |] eqn:Hc; rewrite Hc1;
    [| reflexivity].
  destruct (includes (adrs (repoAt s old)) (Some c)); [| reflexivity].
  cbv beta. rewrite Hc1.
  change (List.find _ (adrs (repoAt s1 u))) with (recordAtPathOf s u c).
  rewrite openAdr_returns. reflexivity.
Qed.

Lemma namesake_split (u old : loc) (s : Store) :
  namesake s u = Some old ->
  exists l1 l2,
    addedRepositories s = l1 ++ old :: l2
    /\ fullName (repoAt s old) = fullName (repoAt s u)
    /\ Forall (fun r => fullName (repoAt s r) <> fullName (repoAt s u)) l1
    /\ findIndex (fun repo =>
         String.eqb (fullName (repoAt s repo)) (fullName (repoAt s u)))
         (addedRepositories s) = Z.of_nat (length l1).
Proof.
  intros H. apply find_split in H as (l1 & l2 & Hl & Hx & Hall & Hi).
  exists l1, l2. repeat split; auto.
  - now apply String.eqb_eq.
  - eapply Forall_impl; [exact Hall |]. cbn. intros r Hr.
    now apply String.eqb_neq.
Qed.

(** X7. [updateRepository] with a repository whose full name no added
    repository bears throws a [TypeError], and by then it has already
    spliced at index [-1]: the last added repository is gone and the given
    one stands in its place (an empty list gets the given one).  The
    selection and the local storage are left as they were. *)
Theorem updateRepository_unknown_name (u : loc) (s : Store) :
  (forall r, In r (addedRepositories s) ->
             fullName (repoAt s r) <> fullName (repoAt s u)) ->
  let s' := exec (updateRepository u) s in
  outcome (updateRepository u) s = Abrupt TypeError
  /\ addedRepositories s' = removelast (addedRepositories s) ++ [u]
  /\ currentlyEditedAdr s' = currentlyEditedAdr s
  /\ currentRepository s' = currentRepository s
  /\ currentBranch s' = currentBranch s
  /\ localStorage s' = localStorage s.
Proof.
  intros Hno s'. subst s'. unfold exec, outcome.
  rewrite updateRepository_unknown; [repeat split |].
  destruct (namesake s u) as [r |] eqn:E; [| reflexivity].
  apply find_some in E as [Hin Heq]. apply String.eqb_eq in Heq.
  exfalso. exact (Hno r Hin Heq).
Qed.

Lemma updateRepository_unknown_name_instance :
  (forall r, In r (addedRepositories two_added) ->
             fullName (repoAt two_added r)
             <> fullName (repoAt two_added 4%positive))
  /\ outcome (updateRepository 4%positive) two_added = Abrupt TypeError
  /\ addedRepositories two_added = [1%positive; 2%positive]
  /\ addedRepositories (exec (updateRepository 4%positive) two_added)
     = [1%positive; 4%positive].
Proof.
  assert (H : forall r, In r (addedRepositories two_added) ->
                        fullName (repoAt two_added r)
                        <> fullName (repoAt two_added 4%positive)).
  { intros r Hr. vm_compute in Hr.
    destruct Hr as [<- | [<- | []]]; vm_compute; discriminate. }
  split; [exact H |].
  destruct (updateRepository_unknown_name 4%positive two_added H)
    as (Ho & Ha & _).
  split; [exact Ho |]. split; [reflexivity | exact Ha].
Defined.

(** X8. [updateRepository] with a repository whose full name is borne by
    an added one returns normally; the first added repository of that name
    is replaced in place, so the list keeps its length and its full names,
    in order; and the snapshot in the local storage is that of the state
    left. *)
Theorem updateRepository_replaces_in_place (u old : loc) (s : Store) :
  namesake s u = Some old ->
  let s' := exec (updateRepository u) s in
  outcome (updateRepository u) s = Normal tt
  /\ (exists l1 l2,
        addedRepositories s = l1 ++ old :: l2
        /\ addedRepositories s' = l1 ++ u :: l2
        /\ Forall (fun r => fullName (repoAt s r) <> fullName (repoAt s u)) l1)
  /\ names s' = names s
  /\ adrObjects s' = adrObjects s
  /\ repoObjects s' = repoObjects s
  /\ in_sync s'.
Proof.
  intros Hn s'. subst s'.
  destruct (namesake_split u old s Hn) as (l1 & l2 & Hl & Hname & Hall & Hi).
  unfold exec, outcome. rewrite (updateRepository_known u old s l1 l2 Hl Hi).
  cbn [fst snd].
  set (s1 := set_addedRepositories (l1 ++ u :: l2) s).
  set (s2 := match currentlyEditedAdr s with
             | Some c =>
                 if includes (adrs (repoAt s old)) (Some c)
                 then exec (openAdr (recordAtPathOf s u c)) s1
                 else s1
             | None => s1
             end).
  assert (Hframe : adrObjects s2 = adrObjects s /\ repoObjects s2 = repoObjects s
                   /\ addedRepositories s2 = l1 ++ u :: l2).
  { subst s2. destruct (currentlyEditedAdr s) as [c |]; [| repeat split].
    destruct (includes _ _); [| repeat split]. unfold exec.
    destruct (openAdr_cases (recordAtPathOf s u c) s1)
      as [-> | (a & r & _ & _ & _ & ->)]; repeat split. }
  destruct Hframe as (Ha & Hr & Hadd).
  split; [reflexivity |]. split; [exists l1, l2; auto |].
  split; [| split; [exact Ha | split; [exact Hr | apply in_sync_persisted]]].
  unfold names, repoAt.
  change (repoObjects (persisted s2)) with (repoObjects s2).
  change (addedRepositories (persisted s2)) with (addedRepositories s2).
  rewrite Hr, Hadd, Hl, !map_app. cbn [map]. f_equal. f_equal.
  symmetry. exact Hname.
Qed.

Lemma updateRepository_replaces_in_place_instance :
  namesake two_added 3%positive = Some 1%positive
  /\ outcome (updateRepository 3%positive) two_added = Normal tt
  /\ addedRepositories (exec (updateRepository 3%positive) two_added)
     = [3%positive; 2%positive]
  /\ names (exec (updateRepository 3%positive) two_added) = names two_added
  /\ in_sync (exec (updateRepository 3%positive) two_added).
Proof.
  assert (H : namesake two_added 3%positive = Some 1%positive)
    by reflexivity.
  split; [exact H |].
  destruct (updateRepository_replaces_in_place 3%positive 1%positive
              two_added H) as (Ho & _ & Hn & _ & _ & Hs).
  split; [exact Ho |]. split; [reflexivity |].
  split; [exact Hn | exact Hs].
Defined.



(** X10. When the new repository has no record at the path of the open
    one, [updateRepository] returns normally, emits nothing and leaves the
    three selection fields as they were.  If moreover the replaced
    repository was the only added one that listed the open record, and it
    was added once, no added repository lists the open record any
    more. *)
Theorem updateRepository_path_gone (u old c : loc) (s : Store) :
  namesake s u = Some old ->
  currentlyEditedAdr s = Some c ->
  recordAtPathOf s u c = None ->
  let s' := exec (updateRepository u) s in
  outcome (updateRepository u) s = Normal tt
  /\ currentlyEditedAdr s' = Some c
  /\ currentRepository s' = currentRepository s
  /\ currentBranch s' = currentBranch s
  /\ emitted s' = emitted s
  /\ (List.NoDup (addedRepositories s) ->
      (forall r, In r (addedRepositories s) -> In c (adrs (repoAt s r)) ->
                 r = old) ->
      ~ In c (adrs (repoAt s u)) ->
      containing s' (Some c) = None).
Proof.
  intros Hn Hcur Hfind s'. subst s'.
  destruct (namesake_split u old s Hn) as (l1 & l2 & Hl & _ & _ & Hi).
  unfold exec, outcome.
  rewrite (updateRepository_known u old s l1 l2 Hl Hi).
  cbn [fst snd]. rewrite Hcur, Hfind.
  set (s1 := set_addedRepositories (l1 ++ u :: l2) s).
  assert (E : exec (openAdr None) s1 = s1).
  { unfold exec. rewrite openAdr_noop; [reflexivity |]. right. now left. }
  rewrite E.
  assert (Hs2 : (if includes (adrs (repoAt s old)) (Some c) then s1 else s1)
                = s1) by (destruct (includes _ _); reflexivity).
  rewrite Hs2. split; [reflexivity |]. split; [exact Hcur |].
  split; [reflexivity |]. split; [reflexivity |]. split; [reflexivity |].
  intros Hnd Honly Hu. apply containing_None. intros r Hr.
  change (In r (l1 ++ u :: l2)) in Hr.
  change (includes (adrs (repoAt s r)) (Some c) = false).
  destruct (includes (adrs (repoAt s r)) (Some c)) eqn:Ei; [| reflexivity].
  apply includes_In in Ei. exfalso.
  rewrite Hl in Hnd. apply NoDup_remove_2 in Hnd.
  apply in_app_or in Hr as [Hr | [<- | Hr]]; [| exact (Hu Ei) |].
  - assert (r = old) as ->
      by (apply Honly; [rewrite Hl; apply in_or_app; now left | exact Ei]).
    apply Hnd, in_or_app. now left.
  - assert (r = old) as ->
      by (apply Honly;
          [rewrite Hl; apply in_or_app; right; now right | exact Ei]).
    apply Hnd, in_or_app. now right.
Qed.

Lemma updateRepository_path_gone_instance :
  namesake one_added 3%positive = Some 1%positive
  /\ currentlyEditedAdr one_added = Some 1%positive
  /\ recordAtPathOf one_added 3%positive 1%positive = None
  /\ outcome (updateRepository 3%positive) one_added = Normal tt
  /\ currentlyEditedAdr (exec (updateRepository 3%positive) one_added)
     = Some 1%positive
  /\ containing (exec (updateRepository 3%positive) one_added)
       (Some 1%positive) = None.
Proof.
  split; [reflexivity |]. split; [reflexivity |]. split; [reflexivity |].
  destruct (updateRepository_path_gone 3%positive 1%positive 1%positive
              one_added eq_refl eq_refl eq_refl)
    as (Ho & Hc & _ & _ & _ & Hgone).
  split; [exact Ho |]. split; [exact Hc |].
  apply Hgone.
  - vm_compute. repeat constructor. intros [].
  - intros r Hr _. vm_compute in Hr. destruct Hr as [<- | []]. reflexivity.
  - vm_compute. intros [H | []]. discriminate.
Defined.

(** ** removeRepository and the full names *)

Lemma removeRepository_frame (r : loc) (s : Store) :
  outcome (removeRepository r) s = Normal tt
  /\ addedRepositories (exec (removeRepository r) s) = remaining s r
  /\ adrObjects (exec (removeRepository r) s) = adrObjects s
  /\ repoObjects (exec (removeRepository r) s) = repoObjects s.
Proof.
  unfold exec, outcome. rewrite removeRepository_eq. cbn [fst snd].
  destruct (assertSomeAdrIsOpened_frame
              (set_addedRepositories (remaining s r) s))
    as (_ & Ha & Hr & Hl & _).
  repeat split; assumption.
Qed.

Lemma names_frame (s s' : Store) :
  repoObjects s' = repoObjects s ->
  names s' = map (fun repo => fullName (repoAt s repo)) (addedRepositories s').
Proof. intros Hr. unfold names, repoAt. now rewrite Hr. Qed.

Lemma filter_all {A} (f : A -> bool) (l : list A) :
  (forall x, In x l -> f x = true) -> List.filter f l = l.
Proof.
  induction l as [| x l IH]; intros H; [reflexivity |].
  cbn [List.filter]. rewrite (H x (or_introl eq_refl)), IH; [reflexivity |].
  intros y Hy. apply H. now right.
Qed.

(** X11. [removeRepository] goes by the full name, not by the object: it
    returns normally, takes out every added repository that bears the full
    name of its argument and keeps the others in order; afterwards no
    added repository bears that name; and when none bore it, the list is
    left as it was. *)
Theorem removeRepository_by_name (r : loc) (s : Store) :
  let s' := exec (removeRepository r) s in
  outcome (removeRepository r) s = Normal tt
  /\ addedRepositories s'
     = List.filter (fun repo =>
         negb (String.eqb (fullName (repoAt s repo)) (fullName (repoAt s r))))
         (addedRepositories s)
  /\ (forall x, In x (addedRepositories s') <->
                In x (addedRepositories s)
                /\ fullName (repoAt s x) <> fullName (repoAt s r))
  /\ ~ In (fullName (repoAt s r)) (names s')
  /\ ((forall x, In x (addedRepositories s) ->
                 fullName (repoAt s x) <> fullName (repoAt s r)) ->
      addedRepositories s' = addedRepositories s).
Proof.
  intros s'. subst s'.
  destruct (removeRepository_frame r s) as (Ho & Hl & _ & Hr).
  assert (Hiff : forall x, In x (remaining s r) <->
                   In x (addedRepositories s)
                   /\ fullName (repoAt s x) <> fullName (repoAt s r)).
  { intros x. unfold remaining. rewrite filter_In, negb_true_iff.
    now rewrite String.eqb_neq. }
  split; [exact Ho |]. split; [exact Hl |]. rewrite Hl.
  split; [exact Hiff |]. split.
  - rewrite (names_frame s _ Hr), Hl. intros Hin.
    apply in_map_iff in Hin as (x & Hname & Hx).
    apply Hiff in Hx as [_ Hne]. contradiction.
  - intros Hnone. apply filter_all. intros x Hx.
    apply negb_true_iff, String.eqb_neq, Hnone, Hx.
Qed.

Lemma removeRepository_by_name_instance :
  (forall x, In x (addedRepositories two_added) ->
             fullName (repoAt two_added x)
             <> fullName (repoAt two_added 4%positive))
  /\ addedRepositories (exec (removeRepository 4%positive) two_added)
     = addedRepositories two_added
  /\ addedRepositories (exec (removeRepository 3%positive) two_added)
     = [2%positive].
Proof.
  assert (H : forall x, In x (addedRepositories two_added) ->
                        fullName (repoAt two_added x)
                        <> fullName (repoAt two_added 4%positive)).
  { intros x Hx. vm_compute in Hx.
    destruct Hx as [<- | [<- | []]]; vm_compute; discriminate. }
  split; [exact H |]. split.
  - apply (removeRepository_by_name 4%positive two_added), H.
  - destruct (removeRepository_by_name 3%positive two_added) as (_ & E & _).
    rewrite E. reflexivity.
Defined.

Lemma map_filter_names (s : Store) (n : string) (l : list loc) :
  map (fun repo => fullName (repoAt s repo))
    (List.filter (fun repo =>
       negb (String.eqb (fullName (repoAt s repo)) n)) l)
  = List.filter (fun m => negb (String.eqb m n))
      (map (fun repo => fullName (repoAt s repo)) l).
Proof.
  induction l as [| x l IH]; [reflexivity |]. cbn [List.filter map].
  destruct (negb (String.eqb (fullName (repoAt s x)) n)); cbn [map];
    now rewrite IH.
Qed.

(** X12. The full names of the added repositories stay pairwise distinct:
    if they are, they still are after [removeRepository], after
    [updateRepository] with a name that is there, and after an
    [addRepositories] that returns normally with a batch whose own full
    names are pairwise distinct. *)
Theorem distinct_names_kept (s : Store) :
  List.NoDup (names s) ->
  (forall r, List.NoDup (names (exec (removeRepository r) s)))
  /\ (forall u old, namesake s u = Some old ->
                    List.NoDup (names (exec (updateRepository u) s)))
  /\ (forall repoList,
        List.NoDup (map (fun repo => fullName (repoAt s repo)) repoList) ->
        outcome (addRepositories repoList) s = Normal tt ->
        List.NoDup (names (exec (addRepositories repoList) s))).
Proof.
  intros Hnd. split; [| split].
  - intros r. destruct (removeRepository_frame r s) as (_ & Hl & _ & Hr).
    rewrite (names_frame s _ Hr), Hl. unfold remaining.
    rewrite map_filter_names. now apply List.NoDup_filter.
  - intros u old Hn.
    destruct (namesake_split u old s Hn) as (l1 & l2 & Hl & Hname & _ & Hi).
    unfold exec. rewrite (updateRepository_known u old s l1 l2 Hl Hi).
    cbn [snd].
    set (s1 := set_addedRepositories (l1 ++ u :: l2) s).
    set (s2 := match currentlyEditedAdr s with
               | Some c =>
                   if includes (adrs (repoAt s old)) (Some c)
                   then exec (openAdr (recordAtPathOf s u c)) s1
                   else s1
               | None => s1
               end).
    assert (Hframe : repoObjects s2 = repoObjects s
                     /\ addedRepositories s2 = l1 ++ u :: l2).
    { subst s2. destruct (currentlyEditedAdr s) as [c |]; [| repeat split].
      destruct (includes _ _); [| repeat split]. unfold exec.
      destruct (openAdr_cases (recordAtPathOf s u c) s1)
        as [-> | (a & r & _ & _ & _ & ->)]; repeat split. }
    destruct Hframe as (Hr & Hadd).
    assert (E : names (persisted s2) = names s).
    { unfold names, repoAt.
      change (repoObjects (persisted s2)) with (repoObjects s2).
      change (addedRepositories (persisted s2)) with (addedRepositories s2).
      rewrite Hr, Hadd, Hl, !map_app. cbn [map]. f_equal. f_equal.
      symmetry. exact Hname. }
    now rewrite E.
  - intros repoList Hbatch Ho.
    destruct (alreadyAdded s repoList) as [| x l] eqn:Ea.
    2: { unfold outcome in Ho.
         rewrite addRepositories_throws in Ho by (rewrite Ea; discriminate).
         discriminate. }
    unfold exec. rewrite (addRepositories_appends s repoList Ea).
    destruct (assertSomeAdrIsOpened_frame (appended s repoList))
      as (_ & _ & Hr & Hl & _).
    unfold exec in *.
    rewrite (names_frame (appended s repoList) _ Hr), Hl.
    change (List.NoDup
              (map (fun repo => fullName (repoAt s repo))
                 (addedRepositories s ++ repoList))).
    rewrite map_app. apply List.NoDup_app; [exact Hnd | exact Hbatch |].
    intros n Hn1 Hn2. apply in_map_iff in Hn2 as (x & Hx & Hin).
    assert (Hc : In x (alreadyAdded s repoList)).
    { apply alreadyAdded_In. split; [exact Hin |].
      apply in_map_iff in Hn1 as (y & Hy & Hyin). exists y. split; congruence. }
    rewrite Ea in Hc. destruct Hc.
Qed.

Lemma distinct_names_kept_instance :
  List.NoDup (names two_added)
  /\ namesake two_added 3%positive = Some 1%positive
  /\ List.NoDup (names (exec (removeRepository 2%positive) two_added))
  /\ List.NoDup (names (exec (updateRepository 3%positive) two_added))
  /\ outcome (addRepositories [4%positive; 5%positive]) two_added = Normal tt
  /\ List.NoDup
       (names (exec (addRepositories [4%positive; 5%positive]) two_added)).
Proof.
  assert (H : List.NoDup (names two_added)).
  { vm_compute. repeat constructor.
    - intros [E | []]. discriminate.
    - intros []. }
  split; [exact H |]. split; [reflexivity |].
  destruct (distinct_names_kept two_added H) as (Hrem & Hupd & Hadd).
  split; [apply Hrem |]. split; [apply (Hupd 3%positive 1%positive eq_refl) |].
  split; [reflexivity |]. apply Hadd; [| reflexivity].
  vm_compute. repeat constructor.
  - intros [E | []]. discriminate.
  - intros [].
Defined.

(** ** Which methods keep the snapshot up to date *)

Section Snapshot.

Variable adr2md_of_new_record : string.
Variable naturalCase2snakeCase : string -> string.
Variable trim : string -> string.

Lemma updateMdOfCurrentAdr_normal (md : string) (s : Store) :
  outcome (updateMdOfCurrentAdr naturalCase2snakeCase trim md) s = Normal tt ->
  exists x, exec (updateMdOfCurrentAdr naturalCase2snakeCase trim md) s
            = persisted x.
Proof.
  unfold exec, outcome, updateMdOfCurrentAdr. run.
  destruct (currentlyEditedAdr s) as [c |]; [| discriminate]. cbv beta iota.
  match goal with
  | |- context [if ?b then _ else _] => destruct b
  end; [| intros _; eexists; reflexivity].
  match goal with
  | |- context [match ?x with Some _ => _ | None => _ end] => destruct x
  end; [intros _; eexists; reflexivity | discriminate].
Qed.

(** X13. The methods that write the snapshot leave it up to date: after
    [removeRepository], and after [addRepositories], [updateRepository] or
    [updateMdOfCurrentAdr] whenever they return normally, the text under
    [addedRepositories] in the local storage is the serialization of the
    repositories of the state left. *)
Theorem snapshot_up_to_date_after_writers (s : Store) :
  (forall r, in_sync (exec (removeRepository r) s))
  /\ (forall repoList,
        outcome (addRepositories repoList) s = Normal tt ->
        in_sync (exec (addRepositories repoList) s))
  /\ (forall u,
        outcome (updateRepository u) s = Normal tt ->
        in_sync (exec (updateRepository u) s))
  /\ (forall md,
        outcome (updateMdOfCurrentAdr naturalCase2snakeCase trim md) s
        = Normal tt ->
        in_sync (exec (updateMdOfCurrentAdr naturalCase2snakeCase trim md) s)).
Proof.
  split; [| split; [| split]].
  - intros r. unfold exec. rewrite removeRepository_eq.
    apply in_sync_persisted.
  - intros repoList Ho.
    destruct (alreadyAdded s repoList) as [| x l] eqn:Ea.
    2: { unfold outcome in Ho.
         rewrite addRepositories_throws in Ho by (rewrite Ea; discriminate).
         discriminate. }
    unfold exec. rewrite (addRepositories_appends s repoList Ea).
    destruct (assertSomeAdrIsOpened_frame (appended s repoList))
      as (_ & Ha & Hr & Hl & _ & Hs).
    apply (in_sync_frame (appended s repoList)); try assumption.
    reflexivity.
  - intros u Ho. destruct (namesake s u) as [old |] eqn:Hn.
    + destruct (namesake_split u old s Hn) as (l1 & l2 & Hl & _ & _ & Hi).
      unfold exec. rewrite (updateRepository_known u old s l1 l2 Hl Hi).
      apply in_sync_persisted.
    + unfold outcome in Ho. rewrite (updateRepository_unknown u s Hn) in Ho.
      discriminate.
  - intros md Ho. destruct (updateMdOfCurrentAdr_normal md s Ho) as [x ->].
    apply in_sync_persisted.
Qed.

Lemma stringify_differs (s s' : Store) (repo : loc) :
  addedRepositories s' = addedRepositories s ->
  In repo (addedRepositories s) ->
  length (adrs (repoAt s' repo)) <> length (adrs (repoAt s repo)) ->
  JSON_stringify s' (addedRepositories s')
  <> JSON_stringify s (addedRepositories s).
Proof.
  intros Hl Hin Hlen Heq. rewrite Hl in Heq. unfold JSON_stringify in Heq.
  assert (E : stringifyRepo s' repo = stringifyRepo s repo).
  { exact (proj1 map_ext_in_iff Heq repo Hin). }
  apply (f_equal (fun j => length (j_adrs j))) in E.
  unfold stringifyRepo in E. cbn [j_adrs] in E.
  rewrite !length_map in E. contradiction.
Qed.

Lemma splice_one_shorter {A} (l : list A) (i : Z) :
  l <> [] -> i = -1 \/ 0 <= i < Z.of_nat (length l) ->
  (length (snd (splice l i 1 [])) + 1 = length l)%nat.
Proof.
  intros Hne Hi. assert (Hlen : (1 <= length l)%nat).
  { destruct l; [contradiction | cbn; lia]. }
  unfold splice. cbn [snd app].
  rewrite length_app, length_firstn, length_skipn.
  destruct Hi as [-> | Hi].
  - change (-1 <? 0) with true. cbv iota. lia.
  - assert (E : (i <? 0) = false) by (apply Z.ltb_ge; lia). rewrite E. lia.
Qed.

(** X14. [createNewAdr] on an added repository and [deleteAdr] on an added
    repository that has records change the repositories without writing
    the snapshot: the local storage is left as it was, and its text is not
    the serialization of the state left, so a snapshot that was up to date
    no longer is. *)
Theorem snapshot_outrun_by_create_and_delete (s : Store) (repo : loc) :
  In repo (addedRepositories s) ->
  (let s' := exec (createNewAdr adr2md_of_new_record repo) s in
   localStorage s' = localStorage s
   /\ JSON_stringify s' (addedRepositories s')
      <> JSON_stringify s (addedRepositories s)
   /\ (in_sync s -> ~ in_sync s'))
  /\ (forall adr,
        adrs (repoAt s repo) <> [] ->
        let s' := exec (deleteAdr adr repo) s in
        localStorage s' = localStorage s
        /\ JSON_stringify s' (addedRepositories s')
           <> JSON_stringify s (addedRepositories s)
        /\ (in_sync s -> ~ in_sync s')).
Proof.
  intros Hin.
  assert (Hstale : forall s' : Store,
            localStorage s' = localStorage s ->
            JSON_stringify s' (addedRepositories s')
            <> JSON_stringify s (addedRepositories s) ->
            in_sync s -> ~ in_sync s').
  { intros s' Hs Hne H H'. unfold in_sync in *. rewrite Hs, H in H'.
    injection H' as E. now apply Hne. }
  split.
  - cbv zeta. unfold exec. rewrite (createNewAdr_added _ s repo Hin).
    cbn [snd].
    assert (Hne : JSON_stringify (created adr2md_of_new_record s repo)
                    (addedRepositories (created adr2md_of_new_record s repo))
                  <> JSON_stringify s (addedRepositories s)).
    { apply (stringify_differs s _ repo); [reflexivity | exact Hin |].
      unfold created. rewrite repoAt_writeRepo. cbn [adrs].
      rewrite length_app. cbn. lia. }
    split; [reflexivity |]. split; [exact Hne |].
    now apply Hstale.
  - intros adr Hne. cbv zeta.
    destruct (deleteAdr_repo s adr repo) as [_ Hrepo].
    assert (Hframe : localStorage (exec (deleteAdr adr repo) s) = localStorage s
                     /\ addedRepositories (exec (deleteAdr adr repo) s)
                        = addedRepositories s).
    { unfold exec. rewrite deleteAdr_eq.
      destruct (assertSomeAdrIsOpened_frame
                  (writeRepo repo (spliced s adr repo) s))
        as (_ & _ & _ & Hl & _ & Hs).
      unfold exec in *. now rewrite Hl, Hs. }
    destruct Hframe as (Hs & Hl).
    assert (Hdiff : JSON_stringify (exec (deleteAdr adr repo) s)
                      (addedRepositories (exec (deleteAdr adr repo) s))
                    <> JSON_stringify s (addedRepositories s)).
    { apply (stringify_differs s _ repo); [exact Hl | exact Hin |].
      rewrite Hrepo. unfold spliced. cbn [adrs].
      pose proof (splice_one_shorter (adrs (repoAt s repo))
                    (findIndex (fun adrEl => same_ref (Some adrEl) adr)
                       (adrs (repoAt s repo))) Hne
                    (findIndex_range _ _)).
      lia. }
    split; [exact Hs |]. split; [exact Hdiff |]. now apply Hstale.
Qed.

End Snapshot.

Lemma snapshot_up_to_date_after_writers_instance :
  outcome (addRepositories [4%positive]) two_added = Normal tt
  /\ in_sync (exec (addRepositories [4%positive]) two_added)
  /\ outcome (updateRepository 3%positive) two_added = Normal tt
  /\ in_sync (exec (updateRepository 3%positive) two_added)
  /\ outcome (updateMdOfCurrentAdr (fun t => t) (fun t => t) "# New") two_added
     = Normal tt
  /\ in_sync (exec (updateMdOfCurrentAdr (fun t => t) (fun t => t) "# New")
                two_added).
Proof.
  destruct (snapshot_up_to_date_after_writers (fun t => t) (fun t => t)
              two_added) as (_ & Hadd & Hupd & Hmd).
  split; [reflexivity |]. split; [apply Hadd; reflexivity |].
  split; [reflexivity |]. split; [apply Hupd; reflexivity |].
  split; [reflexivity |]. apply Hmd. reflexivity.
Defined.

Lemma snapshot_outrun_by_create_and_delete_instance :
  In 1%positive (addedRepositories two_added)
  /\ in_sync two_added
  /\ adrs (repoAt two_added 1%positive) <> []
  /\ localStorage (exec (createNewAdr "# Title" 1%positive) two_added)
     = localStorage two_added
  /\ ~ in_sync (exec (createNewAdr "# Title" 1%positive) two_added)
  /\ ~ in_sync (exec (deleteAdr (Some 1%positive) 1%positive) two_added).
Proof.
  assert (Hin : In 1%positive (addedRepositories two_added))
    by (vm_compute; auto).
  assert (Hs : in_sync two_added) by reflexivity.
  assert (Hne : adrs (repoAt two_added 1%positive) <> [])
    by (vm_compute; discriminate).
  split; [exact Hin |]. split; [exact Hs |]. split; [exact Hne |].
  destruct (snapshot_outrun_by_create_and_delete "# Title" two_added
              1%positive Hin) as ((Hls & _ & Hc) & Hd).
  split; [exact Hls |]. split; [exact (Hc Hs) |].
  exact (proj2 (proj2 (Hd (Some 1%positive) Hne)) Hs).
Defined.

(** ** The identifiers createNewAdr gives *)

Lemma Math_max_or_minus_one_is (xs : list Z) (m : Z) :
  -1 <= m -> In m xs -> Forall (fun x => x <= m) xs ->
  Math_max_or_minus_one xs = m.
Proof.
  intros Hm Hin Hall.
  destruct (Math_max_or_minus_one_bounds xs) as (_ & Hge & Hor).
  assert (H1 : m <= Math_max_or_minus_one xs).
  { rewrite List.Forall_forall in Hge. now apply Hge. }
  assert (H2 : Math_max_or_minus_one xs <= m).
  { destruct Hor as [-> | Hor]; [exact Hm |].
    rewrite List.Forall_forall in Hall. now apply Hall. }
  lia.
Qed.

Section Identifiers.

Variable md : string.

(** X15. On a repository whose identifiers are all at most
    [Number.MAX_SAFE_INTEGER], the identifier [createNewAdr] gives is never
    negative and is greater than the identifier of every record the
    repository lists; the record created is another object than any the
    heap holds. *)
Theorem createNewAdr_identifier_is_new (s : Store) (repo : loc) :
  In repo (addedRepositories s) ->
  Forall (fun i => i <= MAX_SAFE_INTEGER) (identifiers s repo) ->
  exists newAdr s',
    createNewAdr md repo s = (Normal (Some newAdr), s')
    /\ adrObjects s !! newAdr = None
    /\ 0 <= id (adrAt s' newAdr)
    /\ Forall (fun adr => id (adrAt s adr) < id (adrAt s' newAdr))
         (adrs (repoAt s repo)).
Proof.
  intros Hin Hsafe. exists (fresh (dom (adrObjects s))), (created md s repo).
  split; [now apply createNewAdr_added |].
  split; [apply not_elem_of_dom, is_fresh |].
  assert (Ha : id (adrAt (created md s repo) (fresh (dom (adrObjects s))))
               = nextId s repo).
  { unfold adrAt, created, writeRepo, writeAdr. cbn.
    now rewrite lookup_total_insert_eq. }
  rewrite Ha, (nextId_exact s repo Hsafe).
  destruct (Math_max_or_minus_one_bounds (identifiers s repo))
    as (Hlo & Hall & _).
  split; [lia |].
  apply List.Forall_forall. intros a Hinl.
  rewrite List.Forall_forall in Hall.
  specialize (Hall (id (adrAt s a))
                (in_map (fun adr => id (adrAt s adr)) _ _ Hinl)).
  cbn in Hall. lia.
Qed.

(** X16. On a repository whose identifiers are all below
    [Number.MAX_SAFE_INTEGER], two calls of [createNewAdr] in a row number
    their records consecutively: both return a record, the two records are
    different objects, the second identifier is the first plus one, and
    the repository lists the two after the records it had. *)
Theorem createNewAdr_consecutive (s : Store) (repo : loc) :
  In repo (addedRepositories s) ->
  Forall (fun i => i < MAX_SAFE_INTEGER) (identifiers s repo) ->
  exists a1 s1 a2 s2,
    createNewAdr md repo s = (Normal (Some a1), s1)
    /\ createNewAdr md repo s1 = (Normal (Some a2), s2)
    /\ a1 <> a2
    /\ id (adrAt s2 a1) = nextId s repo
    /\ id (adrAt s2 a2) = nextId s repo + 1
    /\ adrs (repoAt s2 repo) = adrs (repoAt s repo) ++ [a1; a2].
Proof.
  intros Hin Hbelow.
  assert (Hsafe : Forall (fun i => i <= MAX_SAFE_INTEGER)
                    (identifiers s repo)).
  { eapply List.Forall_impl; [| exact Hbelow]. cbv beta. intros i Hi. lia. }
  pose proof (nextId_exact s repo Hsafe) as Hn0.
  set (a1 := fresh (dom (adrObjects s))).
  set (s1 := created md s repo).
  assert (Hin1 : In repo (addedRepositories s1)) by exact Hin.
  set (a2 := fresh (dom (adrObjects s1))).
  exists a1, s1, a2, (created md s1 repo).
  split; [now apply createNewAdr_added |].
  split; [now apply createNewAdr_added |].
  assert (Hobj : adrObjects s1
                 = <[a1 := mkADR Undefined (Holds md) (nextId s repo)
                             (Holds (new_adr_path (nextId s repo)))]>
                     (adrObjects s)) by reflexivity.
  assert (Hne : a1 <> a2).
  { intros E. apply (is_fresh (dom (adrObjects s1))). fold a2. rewrite <- E.
    rewrite Hobj, dom_insert_L. set_solver. }
  assert (Hrepo1 : adrs (repoAt s1 repo) = adrs (repoAt s repo) ++ [a1]).
  { unfold s1, created. now rewrite repoAt_writeRepo. }
  destruct (Math_max_or_minus_one_bounds (identifiers s repo))
    as (Hlo & Hall & Hor).
  assert (Hhi : Math_max_or_minus_one (identifiers s repo)
                < MAX_SAFE_INTEGER).
  { destruct Hor as [Hm | Hm]; [rewrite Hm; unfold MAX_SAFE_INTEGER; lia |].
    rewrite List.Forall_forall in Hbelow. now apply Hbelow. }
  assert (Hmax1 : Math_max_or_minus_one (identifiers s1 repo)
                  = nextId s repo).
  { unfold identifiers. rewrite Hrepo1, map_app. cbn [map].
    assert (Hid1 : id (adrAt s1 a1) = nextId s repo).
    { unfold adrAt. rewrite Hobj. now rewrite lookup_total_insert_eq. }
    apply Math_max_or_minus_one_is.
    - lia.
    - apply in_or_app. right. left. exact Hid1.
    - apply Forall_app. split; [| constructor; [lia | constructor]].
      apply List.Forall_forall. intros x Hx.
      apply in_map_iff in Hx as (a & <- & Ha).
      destruct (Pos.eq_dec a a1) as [-> | Hd]; [lia |].
      assert (E : adrAt s1 a = adrAt s a).
      { unfold adrAt. rewrite Hobj.
        now apply lookup_total_insert_ne. }
      rewrite E. rewrite List.Forall_forall in Hall.
      specialize (Hall (id (adrAt s a))
                    (in_map (fun adr => id (adrAt s adr)) _ _ Ha)).
      cbn in Hall. lia. }
  assert (Hnext : nextId s1 repo = nextId s repo + 1).
  { unfold nextId at 1, Number_add. fold (identifiers s1 repo).
    rewrite Hmax1. apply toNumber_exact.
    unfold MAX_SAFE_INTEGER in Hhi. lia. }
  split; [exact Hne |].
  assert (Hobj2 : adrObjects (created md s1 repo)
                  = <[a2 := mkADR Undefined (Holds md) (nextId s1 repo)
                              (Holds (new_adr_path (nextId s1 repo)))]>
                      (adrObjects s1)) by reflexivity.
  split; [| split].
  - unfold adrAt. rewrite Hobj2, lookup_total_insert_ne by congruence.
    rewrite Hobj. now rewrite lookup_total_insert_eq.
  - unfold adrAt. rewrite Hobj2, lookup_total_insert_eq. exact Hnext.
  - unfold created at 1. rewrite repoAt_writeRepo. cbn [adrs].
    rewrite Hrepo1, <- app_assoc. reflexivity.
Qed.

End Identifiers.

Lemma createNewAdr_identifier_is_new_instance :
  In 2%positive (addedRepositories two_added)
  /\ identifiers two_added 2%positive = [3]
  /\ exists newAdr s',
       createNewAdr "# Title" 2%positive two_added
       = (Normal (Some newAdr), s')
       /\ adrObjects two_added !! newAdr = None
       /\ 0 <= id (adrAt s' newAdr)
       /\ Forall (fun adr => id (adrAt two_added adr) < id (adrAt s' newAdr))
            (adrs (repoAt two_added 2%positive)).
Proof.
  assert (Hin : In 2%positive (addedRepositories two_added))
    by (vm_compute; auto).
  assert (Hids : identifiers two_added 2%positive = [3])
    by (vm_compute; reflexivity).
  assert (Hsafe : Forall (fun i => i <= MAX_SAFE_INTEGER)
                    (identifiers two_added 2%positive)).
  { rewrite Hids. constructor; [unfold MAX_SAFE_INTEGER; lia | constructor]. }
  split; [exact Hin |]. split; [exact Hids |].
  exact (createNewAdr_identifier_is_new "# Title" two_added 2%positive Hin
           Hsafe).
Defined.

Lemma createNewAdr_consecutive_instance :
  In 2%positive (addedRepositories two_added)
  /\ identifiers two_added 2%positive = [3]
  /\ nextId two_added 2%positive = 4
  /\ exists a1 s1 a2 s2,
       createNewAdr "# Title" 2%positive two_added = (Normal (Some a1), s1)
       /\ createNewAdr "# Title" 2%positive s1 = (Normal (Some a2), s2)
       /\ a1 <> a2
       /\ id (adrAt s2 a1) = 4
       /\ id (adrAt s2 a2) = 5
       /\ adrs (repoAt s2 2%positive) = [2%positive; a1; a2].
Proof.
  assert (Hin : In 2%positive (addedRepositories two_added))
    by (vm_compute; auto).
  assert (Hids : identifiers two_added 2%positive = [3])
    by (vm_compute; reflexivity).
  assert (Hbelow : Forall (fun i => i < MAX_SAFE_INTEGER)
                     (identifiers two_added 2%positive)).
  { rewrite Hids. constructor; [unfold MAX_SAFE_INTEGER; lia | constructor]. }
  split; [exact Hin |]. split; [exact Hids |].
  split; [vm_compute; reflexivity |].
  exact (createNewAdr_consecutive "# Title" two_added 2%positive Hin Hbelow).
Defined.

(** ** Loading a snapshot *)

Lemma unstorable_record_invalid (s s1 : Store) (ls' ls : list loc) (a : loc) :
  records_parsed s1 ls' (map (stringifyAdr s) ls) ->
  In a ls -> storable (adrAt s a) = false ->
  forallb (fun adr => isValidAdr s1 (Some adr)) ls' = false.
Proof.
  unfold records_parsed. revert ls'.
  induction ls as [| x ls IH]; intros ls' H Hin Hst; [destruct Hin |].
  cbn [map] in H. inversion H as [| a' j ls'' js Ha Hrest]; subst.
  cbn [forallb]. destruct Hin as [-> | Hin].
  - assert (E : isValidAdr s1 (Some a') = false).
    { unfold isValidAdr, adrAt. rewrite (lookup_total_correct _ _ _ Ha).
      unfold adr_of_json, stringifyAdr, storable in *. cbn.
      fold (adrAt s a).
      destruct (originalMd (adrAt s a)), (editedMd (adrAt s a)),
        (path (adrAt s a)); cbn in *; congruence. }
    now rewrite E.
  - rewrite (IH ls'' Hrest Hin Hst). apply andb_false_r.
Qed.

Lemma unstorable_record_rejected (inst : Repository -> bool) (s s1 : Store)
  (ls' ls : list loc) (r a : loc) :
  Forall2 (repo_parsed s1) ls' (map (stringifyRepo s) ls) ->
  In r ls -> In a (adrs (repoAt s r)) -> storable (adrAt s a) = false ->
  isValidRepoList inst s1 ls' = false.
Proof.
  unfold isValidRepoList. revert ls'.
  induction ls as [| x ls IH]; intros ls' H Hin Ha Hst; [destruct Hin |].
  cbn [map] in H. inversion H as [| r' j ls'' js Hr Hrest]; subst.
  cbn [forallb]. destruct Hin as [-> | Hin].
  - destruct Hr as (r1 & Hl & _ & _ & Hrec).
    unfold repoAt at 1 2. rewrite (lookup_total_correct _ _ _ Hl).
    cbn [j_adrs stringifyRepo] in Hrec.
    rewrite (unstorable_record_invalid s s1 (adrs r1) _ a Hrec Ha Hst).
    rewrite andb_false_r. reflexivity.
  - rewrite (IH ls'' Hrest Hin Ha Hst). apply andb_false_r.
Qed.

Lemma reload_fresh_invalid (inst : Repository -> bool) (ls : LocalStorage) :
  stored_data_valid inst ls = false ->
  addedRepositories (exec (reload inst) (freshStore ls)) = [].
Proof.
  unfold stored_data_valid, exec, reload. run.
  change (item_addedRepositories (localStorage (freshStore ls)))
    with (item_addedRepositories ls).
  destruct (item_addedRepositories ls) as [text |]; [| reflexivity].
  destruct (JSON_parse_spec text (freshStore ls)) as (l & s1 & E & X & _).
  rewrite E. intros ->. cbn.
  destruct X as (_ & _ & Hd). now injection Hd as _ _ _ Hadd _ _ _ _.
Qed.

Section Loading.

Variable md : string.
Variable instanceof_Repository : Repository -> bool.

(** X17. A record one of whose [originalMd], [editedMd] and [path] is
    absent or [undefined] spoils the whole snapshot: once the store has
    written its repositories, the text in the local storage fails the
    validation of [reload] whatever [instanceof Repository] answers, and a
    fresh store that runs [reload] over it has no repository at all. *)
Theorem unstorable_record_rejects_snapshot (s : Store) (r a : loc) :
  In r (addedRepositories s) -> In a (adrs (repoAt s r)) ->
  storable (adrAt s a) = false ->
  stored_data_valid instanceof_Repository (serialized s) = false
  /\ addedRepositories
       (exec (reload instanceof_Repository) (freshStore (serialized s))) = [].
Proof.
  intros Hr Ha Hst.
  assert (Hinv : stored_data_valid instanceof_Repository (serialized s)
                 = false).
  { unfold stored_data_valid.
    change (item_addedRepositories (serialized s))
      with (Some (JSON_stringify s (addedRepositories s))).
    destruct (JSON_parse_spec (JSON_stringify s (addedRepositories s))
                (freshStore (serialized s))) as (ls & s1 & E & _ & L).
    rewrite E.
    exact (unstorable_record_rejected _ s s1 ls _ r a L Hr Ha Hst). }
  split; [exact Hinv |]. now apply reload_fresh_invalid.
Qed.

(** X18. The record [createNewAdr] makes is a valid one in the store, its
    [originalMd] being there with the value [undefined]; but
    [JSON.stringify] drops such a property, so once the repositories are
    written the snapshot fails the validation of [reload], and a fresh
    store that runs [reload] over it has no repository. *)
Theorem created_record_rejects_snapshot (s : Store) (repo : loc) :
  In repo (addedRepositories s) ->
  exists newAdr s',
    createNewAdr md repo s = (Normal (Some newAdr), s')
    /\ isValidAdr s' (Some newAdr) = true
    /\ j_originalMd (stringifyAdr s' newAdr) = None
    /\ stored_data_valid instanceof_Repository (serialized s') = false
    /\ addedRepositories
         (exec (reload instanceof_Repository) (freshStore (serialized s')))
       = [].
Proof.
  intros Hin.
  set (a := fresh (dom (adrObjects s))).
  exists a, (created md s repo).
  split; [now apply createNewAdr_added |].
  assert (Ha : adrAt (created md s repo) a
               = mkADR Undefined (Holds md) (nextId s repo)
                   (Holds (new_adr_path (nextId s repo)))).
  { unfold adrAt, created, writeRepo, writeAdr. cbn.
    now rewrite lookup_total_insert_eq. }
  assert (Hl : In a (adrs (repoAt (created md s repo) repo))).
  { unfold created. rewrite repoAt_writeRepo. cbn [adrs].
    apply in_or_app. right. now left. }
  assert (Hst : storable (adrAt (created md s repo) a) = false)
    by now rewrite Ha.
  split; [unfold isValidAdr; now rewrite Ha |].
  split; [unfold stringifyAdr; now rewrite Ha |].
  assert (Hinv : stored_data_valid instanceof_Repository
                   (serialized (created md s repo)) = false).
  { unfold stored_data_valid.
    change (item_addedRepositories (serialized (created md s repo)))
      with (Some (JSON_stringify (created md s repo) (addedRepositories s))).
    destruct (JSON_parse_spec
                (JSON_stringify (created md s repo) (addedRepositories s))
                (freshStore (serialized (created md s repo))))
      as (ls & s1 & E & _ & L).
    rewrite E.
    exact (unstorable_record_rejected _ _ s1 ls _ repo a L Hin Hl Hst). }
  split; [exact Hinv |]. now apply reload_fresh_invalid.
Qed.

End Loading.

Lemma unstorable_record_rejects_snapshot_instance :
  In 2%positive (addedRepositories two_added)
  /\ In 2%positive (adrs (repoAt two_added 2%positive))
  /\ storable (adrAt two_added 2%positive) = false
  /\ stored_data_valid (fun _ => true) (serialized two_added) = false
  /\ addedRepositories
       (exec (reload (fun _ => true)) (freshStore (serialized two_added)))
     = [].
Proof.
  assert (Hr : In 2%positive (addedRepositories two_added))
    by (vm_compute; auto).
  assert (Ha : In 2%positive (adrs (repoAt two_added 2%positive)))
    by (vm_compute; auto).
  assert (Hst : storable (adrAt two_added 2%positive) = false)
    by reflexivity.
  split; [exact Hr |]. split; [exact Ha |]. split; [exact Hst |].
  exact (unstorable_record_rejects_snapshot (fun _ => true) two_added
           2%positive 2%positive Hr Ha Hst).
Defined.

Lemma created_record_rejects_snapshot_instance :
  In 1%positive (addedRepositories one_added)
  /\ stored_data_valid (fun _ => true) (serialized one_added) = true
  /\ exists newAdr s',
       createNewAdr "# Title" 1%positive one_added
       = (Normal (Some newAdr), s')
       /\ isValidAdr s' (Some newAdr) = true
       /\ j_originalMd (stringifyAdr s' newAdr) = None
       /\ stored_data_valid (fun _ => true) (serialized s') = false
       /\ addedRepositories
            (exec (reload (fun _ => true)) (freshStore (serialized s')))
          = [].
Proof.
  assert (Hin : In 1%positive (addedRepositories one_added))
    by (vm_compute; auto).
  split; [exact Hin |]. split; [vm_compute; reflexivity |].
  exact (created_record_rejects_snapshot "# Title" (fun _ => true) one_added
           1%positive Hin).
Defined.

(** ** What [JSON.parse] builds, in full *)

Lemma optional_parsed_extends (s s' : Store) ls js :
  extends s s' -> optional_parsed s ls js -> optional_parsed s' ls js.
Proof.
  intros X. destruct ls, js; cbn; auto. now apply records_parsed_extends.
Qed.

Lemma repo_parsed_fully_extends (s s' : Store) l j :
  extends s s' -> repo_parsed_fully s l j -> repo_parsed_fully s' l j.
Proof.
  intros X (r & Hr & Hn & Hb & Ha & Had & Hde). exists r.
  split; [| split; [exact Hn | split; [exact Hb |]]].
  - destruct X as (_ & Hsub & _). eapply lookup_weaken; eassumption.
  - split; [| split].
    + eapply records_parsed_extends; eassumption.
    + eapply optional_parsed_extends; eassumption.
    + eapply optional_parsed_extends; eassumption.
Qed.

Lemma parseOptionalAdrs_full (js : option (list AdrJson)) (s : Store) :
  exists ls s', parseOptionalAdrs js s = (Normal ls, s') /\ extends s s'
                /\ optional_parsed s' ls js.
Proof.
  destruct js as [js |].
  - destruct (parseAdrs_spec js s) as (ls & s' & E & X & L).
    exists (Some ls), s'. split; [| split; [exact X | exact L]].
    cbn [parseOptionalAdrs]. run. rewrite E. reflexivity.
  - exists None, s. split; [reflexivity |].
    split; [apply extends_refl | exact I].
Qed.

Lemma parseRepo_full (j : RepoJson) (s : Store) :
  exists l s', parseRepo j s = (Normal l, s') /\ extends s s'
               /\ repo_parsed_fully s' l j.
Proof.
  destruct (parseAdrs_spec (j_adrs j) s) as (a & s1 & E1 & X1 & L1).
  destruct (parseOptionalAdrs_full (j_addedAdrs j) s1)
    as (ad & s2 & E2 & X2 & L2).
  destruct (parseOptionalAdrs_full (j_deletedAdrs j) s2)
    as (de & s3 & E3 & X3 & L3).
  destruct (allocRepo_spec
              (mkRepository (j_fullName j) (j_activeBranch j) a ad de) s3)
    as (l & s4 & E4 & X4 & L4).
  exists l, s4. split; [| split].
  - unfold parseRepo. run. rewrite E1, E2, E3. exact E4.
  - repeat (eapply extends_trans; [eassumption |]). apply extends_refl.
  - eexists. split; [exact L4 |]. cbn [fullName activeBranch adrs addedAdrs
                                        deletedAdrs].
    split; [reflexivity |]. split; [reflexivity |]. split; [| split].
    + eapply records_parsed_extends; [| exact L1].
      repeat (eapply extends_trans; [eassumption |]). apply extends_refl.
    + eapply optional_parsed_extends; [| exact L2].
      repeat (eapply extends_trans; [eassumption |]). apply extends_refl.
    + eapply optional_parsed_extends; [| exact L3]. exact X4.
Qed.

Lemma JSON_parse_full (js : list RepoJson) (s : Store) :
  exists ls s', JSON_parse js s = (Normal ls, s') /\ extends s s'
                /\ Forall2 (repo_parsed_fully s') ls js.
Proof.
  revert s. induction js as [| j js IH]; intros s.
  - exists [], s. repeat split; try reflexivity. constructor.
  - destruct (parseRepo_full j s) as (l & s1 & E1 & X1 & L1).
    destruct (IH s1) as (ls & s2 & E2 & X2 & L2).
    exists (l :: ls), s2. split; [| split].
    + cbn [JSON_parse]. run. rewrite E1, E2. reflexivity.
    + eapply extends_trans; eassumption.
    + constructor; [| exact L2].
      eapply repo_parsed_fully_extends; eassumption.
Qed.

Lemma stringify_parsed_records (s : Store) ls js :
  records_parsed s ls js -> map (stringifyAdr s) ls = js.
Proof.
  unfold records_parsed. induction 1 as [| l j ls js Hl _ IH]; [reflexivity |].
  cbn [map]. rewrite IH. f_equal.
  unfold stringifyAdr, adrAt. rewrite (lookup_total_correct _ _ _ Hl).
  destruct j as [o e i p]. unfold adr_of_json. cbn.
  destruct o, e, p; reflexivity.
Qed.

Lemma stringify_parsed_optional (s : Store) ls js :
  optional_parsed s ls js -> option_map (map (stringifyAdr s)) ls = js.
Proof.
  destruct ls, js; cbn; try tauto.
  intros H. now rewrite (stringify_parsed_records s _ _ H).
Qed.

Lemma stringify_parsed (s : Store) ls js :
  Forall2 (repo_parsed_fully s) ls js -> JSON_stringify s ls = js.
Proof.
  unfold JSON_stringify. induction 1 as [| l j ls js Hl _ IH]; [reflexivity |].
  cbn [map]. rewrite IH. f_equal.
  destruct Hl as (r & Hr & Hn & Hb & Ha & Had & Hde).
  unfold stringifyRepo, repoAt. rewrite (lookup_total_correct _ _ _ Hr).
  rewrite (stringify_parsed_records s _ _ Ha),
    (stringify_parsed_optional s _ _ Had),
    (stringify_parsed_optional s _ _ Hde), Hn, Hb.
  now destruct j.
Qed.

Lemma parsed_names (s : Store) ls js :
  Forall2 (repo_parsed_fully s) ls js ->
  map (fun repo => fullName (repoAt s repo)) ls = map j_fullName js.
Proof.
  induction 1 as [| l j ls js Hl _ IH]; [reflexivity |].
  cbn [map]. rewrite IH. f_equal.
  destruct Hl as (r & Hr & Hn & _).
  unfold repoAt. now rewrite (lookup_total_correct _ _ _ Hr).
Qed.

Lemma setItem_addedRepositories_same (ls : LocalStorage) text :
  item_addedRepositories ls = Some text ->
  setItem_addedRepositories text ls = ls.
Proof. destruct ls. cbn. now intros ->. Qed.

Section PageLoad.

Variable instanceof_Repository : Repository -> bool.

(** X19. Let the local storage hold under [addedRepositories] nothing, or
    the text of an array of repositories as the store writes it, and under
    [mode] nothing or any string.  Then [reload] on the store of a page
    that has just been loaded returns normally.  The mode is the stored
    one, or ['basic'] when none or the empty string is stored.  The
    repositories are all of the stored snapshot, in order, when it passes
    the validation, and none otherwise.  The local storage holds
    afterwards what it held before: the snapshot [addRepositories] writes
    back denotes the tree that was read.  (A text that is not JSON, or not
    an array, makes the source throw; no value of [LocalStorage] stands
    for such a text.) *)
Theorem reload_on_page_load (ls : LocalStorage) :
  let s' := exec (reload instanceof_Repository) (freshStore ls) in
  outcome (reload instanceof_Repository) (freshStore ls) = Normal tt
  /\ mode s' = stored_mode ls
  /\ localStorage s' = ls
  /\ names s'
     = (if stored_data_valid instanceof_Repository ls
        then map j_fullName (default [] (item_addedRepositories ls))
        else []).
Proof.
  intros s'. subst s'.
  unfold stored_data_valid, exec, outcome, reload, stored_mode. run.
  change (item_addedRepositories (localStorage (freshStore ls)))
    with (item_addedRepositories ls).
  destruct (item_addedRepositories ls) as [text |] eqn:Et.
  2: { cbn. repeat split. }
  destruct (JSON_parse_full text (freshStore ls)) as (l & s1 & E & X & L).
  rewrite E. assert (Hd : data s1 = data (freshStore ls)) by apply X.
  injection Hd as Hcr Hcb Hce Hadd Hmo Hab Hls Hem.
  destruct (isValidRepoList instanceof_Repository s1 l) eqn:Ev.
  - rewrite (addRepositories_appends s1 l (alreadyAdded_none s1 l Hadd)).
    destruct (assertSomeAdrIsOpened_frame (appended s1 l))
      as (Ho & Ha & Hr & Hl & _ & Hst).
    unfold exec, outcome in *.
    destruct (assertSomeAdrIsOpened (appended s1 l)) as [c s2].
    cbn [fst snd] in *. subst c.
    assert (Hstore : localStorage s2 = ls).
    { rewrite Hst. unfold appended. rewrite Hadd. cbn [app].
      cbn [localStorage set_localStorage set_addedRepositories
           addedRepositories].
      rewrite (JSON_stringify_frame s1 (set_addedRepositories l s1) l
                 eq_refl eq_refl).
      rewrite (stringify_parsed s1 l text L), Hls.
      now apply setItem_addedRepositories_same. }
    rewrite Hstore. cbn [fst snd mode set_mode_field localStorage].
    split; [reflexivity |]. split; [reflexivity |].
    split; [exact Hstore |].
    unfold names, repoAt. cbn [repoObjects addedRepositories set_mode_field].
    rewrite Hr, Hl. cbn [repoObjects addedRepositories appended
                           set_localStorage set_addedRepositories].
    rewrite Hadd. cbn [app default]. exact (parsed_names s1 l text L).
  - rewrite Hls. cbn [fst snd mode set_mode_field localStorage].
    split; [reflexivity |]. split; [reflexivity |].
    split; [exact Hls |].
    unfold names. cbn [addedRepositories set_mode_field]. now rewrite Hadd.
Qed.

End PageLoad.

Lemma added_allocated (s : Store) (r : loc) :
  no_dangling_reference s = true -> In r (addedRepositories s) ->
  is_Some (repoObjects s !! r).
Proof.
  unfold no_dangling_reference. intros H Hin.
  apply andb_prop in H as [H _]. apply andb_prop in H as [H _].
  apply andb_prop in H as [H _].
  rewrite forallb_forall in H. specialize (H r Hin).
  unfold allocatedRepo in H. now apply bool_decide_eq_true in H.
Qed.

Lemma repoAt_extends (s s' : Store) (r : loc) :
  extends s s' -> is_Some (repoObjects s !! r) -> repoAt s' r = repoAt s r.
Proof.
  intros (_ & Hsub & _) [x Hx]. unfold repoAt.
  rewrite (lookup_total_correct _ _ _ Hx).
  apply lookup_total_correct. eapply lookup_weaken; eassumption.
Qed.

Lemma filter_keeps_all {A} (f : A -> bool) (l : list A) :
  (forall x, In x l -> f x = true) -> List.filter f l = l.
Proof.
  induction l as [| x l IH]; intros H; [reflexivity |]. cbn [List.filter].
  rewrite (H x (or_introl eq_refl)). f_equal. apply IH.
  intros y Hy. apply H. now right.
Qed.

Section LoadingAgain.

Variable instanceof_Repository : Repository -> bool.

(** X20. [reload] on a store whose snapshot is up to date, and whose
    references all lead to objects, never changes the list of added
    repositories.  When repositories are added and the
    snapshot passes the validation, every repository read bears a name
    that is taken: [addRepositories] throws the message that lists all the
    added names, and the mode is not read from the storage.  When the
    snapshot does not pass, or no repository is added, the call returns
    normally with the mode read from the storage. *)
Theorem reload_when_in_sync (s : Store) :
  no_dangling_reference s = true ->
  in_sync s ->
  let s' := exec (reload instanceof_Repository) s in
  addedRepositories s' = addedRepositories s
  /\ (snapshot_passes instanceof_Repository s = true ->
      addedRepositories s <> [] ->
      outcome (reload instanceof_Repository) s
      = Abrupt (ThrownString (already_added_message (names s)))
      /\ mode s' = mode s)
  /\ (snapshot_passes instanceof_Repository s = false
      \/ addedRepositories s = [] ->
      outcome (reload instanceof_Repository) s = Normal tt
      /\ mode s' = stored_mode (localStorage s)).
Proof.
  intros Hnd Hsync s'. subst s'. unfold in_sync in Hsync.
  unfold snapshot_passes, exec, outcome, reload, stored_mode. run.
  rewrite Hsync.
  destruct (JSON_parse_full (JSON_stringify s (addedRepositories s)) s)
    as (l & s1 & E & X & L).
  rewrite E. assert (Hd : data s1 = data s) by apply X.
  injection Hd as Hcr Hcb Hce Hadd Hmo Hab Hls Hem.
  assert (Hold : map (fun repo => fullName (repoAt s1 repo))
                   (addedRepositories s1) = names s).
  { rewrite Hadd. unfold names. apply map_ext_in. intros r Hr.
    f_equal. apply repoAt_extends; [exact X |].
    now apply added_allocated. }
  assert (Hnew : map (fun repo => fullName (repoAt s1 repo)) l = names s).
  { rewrite (parsed_names s1 l _ L). unfold JSON_stringify, names.
    rewrite map_map. reflexivity. }
  assert (Hall : alreadyAdded s1 l = l).
  { unfold alreadyAdded. apply filter_keeps_all. intros r Hr.
    rewrite Hold. apply includes_string_In. rewrite <- Hnew.
    now apply (in_map (fun repo => fullName (repoAt s1 repo))). }
  destruct (isValidRepoList instanceof_Repository s1 l) eqn:Ev.
  - destruct l as [| r0 l0] eqn:El.
    + assert (He : addedRepositories s = []).
      { destruct (addedRepositories s); [reflexivity |].
        now inversion L. }
      rewrite (addRepositories_appends s1 [] eq_refl).
      destruct (assertSomeAdrIsOpened_frame (appended s1 []))
        as (Ho & _ & _ & Hl & _ & Hst).
      unfold exec, outcome in *.
      destruct (assertSomeAdrIsOpened (appended s1 [])) as [c s2].
      cbn [fst snd] in *. subst c.
      cbn [fst snd addedRepositories set_mode_field mode].
      split; [| split].
      * rewrite Hl. cbn. rewrite Hadd, He. reflexivity.
      * intros _ Hne. contradiction.
      * intros _. split; [reflexivity |].
        rewrite Hst. cbn [localStorage appended set_localStorage item_mode
                            setItem_addedRepositories set_addedRepositories].
        now rewrite Hls.
    + rewrite <- El in *.
      assert (Hne : alreadyAdded s1 l <> []) by (rewrite Hall, El; discriminate).
      rewrite (addRepositories_throws s1 l Hne), Hall, Hnew.
      cbn [fst snd]. split; [exact Hadd |]. split.
      * intros _ _. split; [reflexivity | exact Hmo].
      * intros [Hf | He]; [discriminate |].
        exfalso. rewrite He in L. rewrite El in L. inversion L.
  - cbn [fst snd addedRepositories set_mode_field mode].
    split; [exact Hadd |]. split; [discriminate |].
    intros _. split; [reflexivity | now rewrite Hls].
Qed.

End LoadingAgain.

Lemma reload_when_in_sync_instance :
  no_dangling_reference one_added = true
  /\ in_sync one_added
  /\ snapshot_passes (fun _ => true) one_added = true
  /\ addedRepositories (exec (reload (fun _ => true)) one_added)
     = addedRepositories one_added
  /\ outcome (reload (fun _ => true)) one_added
     = Abrupt (ThrownString
         "I won't add an already added repository to the store! org/repo").
Proof.
  assert (Hnd : no_dangling_reference one_added = true)
    by (vm_compute; reflexivity).
  assert (Hsync : in_sync one_added) by (vm_compute; reflexivity).
  assert (Hpass : snapshot_passes (fun _ => true) one_added = true)
    by (vm_compute; reflexivity).
  destruct (reload_when_in_sync (fun _ => true) one_added Hnd Hsync)
    as (Hl & Ht & _).
  split; [exact Hnd |]. split; [exact Hsync |]. split; [exact Hpass |].
  split; [exact Hl |].
  refine (proj1 (Ht Hpass _)). vm_compute. discriminate.
Defined.

(** ** Opening a record by its file name *)

Lemma find_or_throw_cases {A} (f : A -> completion bool) (l : list A) :
  match find_or_throw f l with
  | Normal (Some x) =>
      exists pre post, l = pre ++ x :: post /\ f x = Normal true
                       /\ Forall (fun y => f y = Normal false) pre
  | Normal None => Forall (fun y => f y = Normal false) l
  | Abrupt e =>
      exists pre x post, l = pre ++ x :: post /\ f x = Abrupt e
                         /\ Forall (fun y => f y = Normal false) pre
  end.
Proof.
  induction l as [| y l IH]; cbn [find_or_throw]; [constructor |].
  destruct (f y) as [[] | e] eqn:E.
  - exists [], l. repeat split; auto.
  - destruct (find_or_throw f l) as [[x |] | e].
    + destruct IH as (pre & post & -> & Hx & Hall).
      exists (y :: pre), post. repeat split; auto.
    + constructor; auto.
    + destruct IH as (pre & x & post & -> & Hx & Hall).
      exists (y :: pre), x, post. repeat split; auto.
  - exists [], y, l. repeat split; auto.
Qed.

Lemma has_file_name_true (s : Store) (f : string) (a : loc) :
  has_file_name s f a = Normal true ->
  exists p, read (path (adrAt s a)) = Some p /\ fileName p = Some f.
Proof.
  unfold has_file_name, fileName.
  destruct (read (path (adrAt s a))) as [p |]; [| discriminate].
  intros [= H]. apply bool_decide_eq_true in H. eauto.
Qed.

Lemma has_file_name_false (s : Store) (f : string) (a : loc) :
  has_file_name s f a = Normal false -> other_file s f a.
Proof.
  unfold has_file_name, other_file, fileName.
  destruct (read (path (adrAt s a))) as [p |]; [| discriminate].
  intros [= H]. apply bool_decide_eq_false in H. eauto.
Qed.

Lemma has_file_name_throws (s : Store) (f : string) (a : loc) (e : exn) :
  has_file_name s f a = Abrupt e ->
  e = TypeError /\ read (path (adrAt s a)) = None.
Proof.
  unfold has_file_name.
  destruct (read (path (adrAt s a))) as [p |]; [discriminate |].
  now intros [= <-].
Qed.

Lemma openAdrBy_eq (n f : string) (s : Store) :
  openAdrBy n f s
  = match repositoryNamed s n with
    | Some r =>
        match find_or_throw (has_file_name s f) (adrs (repoAt s r)) with
        | Normal (Some a) => (Normal (Some a), exec (openAdr (Some a)) s)
        | Normal None => (Normal None, s)
        | Abrupt e => (Abrupt e, s)
        end
    | None => (Normal None, s)
    end.
Proof.
  unfold openAdrBy, repositoryNamed. run.
  destruct (List.find _ (addedRepositories s)) as [r |]; [| reflexivity].
  destruct (find_or_throw _ _) as [[a |] | e]; try reflexivity.
  cbn. now rewrite (openAdr_returns (Some a) s).
Qed.

(** X21. What [openAdrBy] does, case by case.  When it returns a record,
    that is the first record of the first added repository of that name
    whose path ends in the file named, every record before it has a path
    that ends otherwise, and the state is the one [openAdr] of that record
    leaves.  When it returns [undefined] the state is untouched, and the
    repository of that name, if there is one, has only records whose path
    ends otherwise.  It throws only a [TypeError], on a record without a
    path that comes before any match, and the state is untouched. *)
Theorem openAdrBy_outcome (n f : string) (s : Store) :
  match outcome (openAdrBy n f) s with
  | Normal (Some a) =>
      exists r pre post p,
        repositoryNamed s n = Some r
        /\ adrs (repoAt s r) = pre ++ a :: post
        /\ read (path (adrAt s a)) = Some p /\ fileName p = Some f
        /\ Forall (other_file s f) pre
        /\ exec (openAdrBy n f) s = exec (openAdr (Some a)) s
  | Normal None =>
      exec (openAdrBy n f) s = s
      /\ forall r, repositoryNamed s n = Some r ->
                   Forall (other_file s f) (adrs (repoAt s r))
  | Abrupt e =>
      e = TypeError /\ exec (openAdrBy n f) s = s
      /\ exists r pre b post,
           repositoryNamed s n = Some r
           /\ adrs (repoAt s r) = pre ++ b :: post
           /\ read (path (adrAt s b)) = None
           /\ Forall (other_file s f) pre
  end.
Proof.
  unfold outcome, exec. rewrite openAdrBy_eq.
  destruct (repositoryNamed s n) as [r |]; [| split; [reflexivity |]].
  2: { intros r [=]. }
  pose proof (find_or_throw_cases (has_file_name s f) (adrs (repoAt s r)))
    as H.
  destruct (find_or_throw (has_file_name s f) (adrs (repoAt s r)))
    as [[a |] | e]; cbn [fst snd].
  - destruct H as (pre & post & Hl & Ha & Hall).
    destruct (has_file_name_true s f a Ha) as (p & Hp & Hf).
    exists r, pre, post, p. repeat split; auto.
    eapply List.Forall_impl; [| exact Hall].
    intros b. apply has_file_name_false.
  - split; [reflexivity |]. intros r' [= <-].
    eapply List.Forall_impl; [| exact H].
    intros b. apply has_file_name_false.
  - destruct H as (pre & b & post & Hl & Hb & Hall).
    destruct (has_file_name_throws s f b e Hb) as (-> & Hp).
    split; [reflexivity |]. split; [reflexivity |].
    exists r, pre, b, post. repeat split; auto.
    eapply List.Forall_impl; [| exact Hall].
    intros x. apply has_file_name_false.
Qed.

(** X22. When [openAdrBy] returns a valid record, that record is the open
    one afterwards.  Unless it was open already, the current repository is
    the first added repository that lists the record, which need not be
    the repository that was named, the current branch is the active
    branch of that repository, and one [open-adr] event is emitted. *)
Theorem openAdrBy_opens (n f : string) (s : Store) (a : loc) :
  outcome (openAdrBy n f) s = Normal (Some a) ->
  isValidAdr s (Some a) = true ->
  let s' := exec (openAdrBy n f) s in
  currentlyEditedAdr s' = Some a
  /\ (currentlyEditedAdr s = Some a -> s' = s)
  /\ (currentlyEditedAdr s <> Some a ->
      exists r, containing s (Some a) = Some r
                /\ currentRepository s' = Some r
                /\ currentBranch s' = Some (activeBranch (repoAt s r))
                /\ emitted s' = emitted s ++ [open_adr a]).
Proof.
  intros Hout Hv s'. subst s'. revert Hout. unfold outcome, exec.
  rewrite openAdrBy_eq.
  destruct (repositoryNamed s n) as [r |] eqn:Er; [| discriminate].
  pose proof (find_or_throw_cases (has_file_name s f) (adrs (repoAt s r)))
    as H.
  destruct (find_or_throw (has_file_name s f) (adrs (repoAt s r)))
    as [[b |] | e]; cbn [fst snd]; [| discriminate | discriminate].
  intros [= ->]. destruct H as (pre & post & Hl & _ & _).
  assert (Hin : In r (addedRepositories s)).
  { unfold repositoryNamed in Er. now apply find_some in Er as [Hin _]. }
  assert (Ha : In a (adrs (repoAt s r))).
  { rewrite Hl. apply in_or_app. right. now left. }
  destruct (containing_exists s a r Hin Ha) as (r' & Hc).
  destruct (decide (currentlyEditedAdr s = Some a)) as [Hcur | Hcur].
  - unfold exec. rewrite (openAdr_noop (Some a) s) by (left; congruence).
    cbn [snd]. split; [exact Hcur |]. split; [reflexivity |].
    intros Hne. contradiction.
  - unfold exec. rewrite (openAdr_opens a r' s Hcur Hv Hc). cbn [snd].
    split; [reflexivity |]. split; [intros Hx; contradiction |].
    intros _. exists r'. repeat split. exact Hc.
Qed.

Lemma openAdrBy_opens_instance :
  outcome (openAdrBy "org/three" "0001-other.md") nothing_opened
  = Normal (Some 3%positive)
  /\ isValidAdr nothing_opened (Some 3%positive) = true
  /\ currentlyEditedAdr nothing_opened = None
  /\ repositoryNamed nothing_opened "org/three" = Some 4%positive
  /\ currentlyEditedAdr
       (exec (openAdrBy "org/three" "0001-other.md") nothing_opened)
     = Some 3%positive
  /\ currentRepository
       (exec (openAdrBy "org/three" "0001-other.md") nothing_opened)
     = Some 3%positive.
Proof.
  set (s := nothing_opened).
  assert (Hout : outcome (openAdrBy "org/three" "0001-other.md") s
                 = Normal (Some 3%positive)) by (vm_compute; reflexivity).
  assert (Hv : isValidAdr s (Some 3%positive) = true)
    by (vm_compute; reflexivity).
  assert (Hcur : currentlyEditedAdr s = None) by (vm_compute; reflexivity).
  destruct (openAdrBy_opens "org/three" "0001-other.md" s 3%positive Hout Hv)
    as (Ha & _ & Hr).
  split; [exact Hout |]. split; [exact Hv |]. split; [exact Hcur |].
  split; [vm_compute; reflexivity |]. split; [exact Ha |].
  destruct Hr as (r & Hc & Hrepo & _); [rewrite Hcur; discriminate |].
  rewrite Hrepo. rewrite <- Hc. vm_compute. reflexivity.
Defined.

(** ** Editing the text of the open record *)

Section Editing.

Variable naturalCase2snakeCase : string -> string.
Variable trim : string -> string.

Lemma updateMdOfCurrentAdr_eq (md : string) (s : Store) :
  updateMdOfCurrentAdr naturalCase2snakeCase trim md s
  = match currentlyEditedAdr s with
    | None => (Abrupt TypeError, s)
    | Some c =>
        let edited := set_editedMd (Holds md) (adrAt s c) in
        if locally_added s c then
          match read (path (adrAt s c)) with
          | Some p =>
              (Normal tt,
               persisted
                 (writeAdr c
                    (set_path
                       (Holds
                          (String.concat "/"
                             (removelast (split_char "/"%char p)
                              ++ [renamed_file naturalCase2snakeCase trim
                                    (id (adrAt s c)) md])))
                       edited) s))
          | None => (Abrupt TypeError, writeAdr c edited s)
          end
        else (Normal tt, persisted (writeAdr c edited s))
    end.
Proof.
  unfold updateMdOfCurrentAdr, updateLocalStorageRepositories. run.
  destruct (currentlyEditedAdr s) as [c |] eqn:Hcur; [| reflexivity].
  cbv beta iota zeta.
  change (match currentRepository
                  (writeAdr c (set_editedMd (Holds md) (adrAt s c)) s) with
          | Some r =>
              match addedAdrs
                      (repoAt
                         (writeAdr c (set_editedMd (Holds md) (adrAt s c)) s)
                         r) with
              | Some l => includes l (Some c)
              | None => false
              end
          | None => false
          end) with (locally_added s c).
  destruct (locally_added s c); [| reflexivity].
  rewrite !adrAt_writeAdr. cbn [path set_editedMd id].
  destruct (read (path (adrAt s c))) as [p |]; [| reflexivity].
  cbn [fst snd]. rewrite !adrAt_writeAdr, writeAdr_writeAdr. reflexivity.
Qed.

(** X23. When [updateMdOfCurrentAdr] returns normally, the open record
    has the new text as its [editedMd] and keeps its [originalMd] and its
    identifier; its path is kept too unless the current repository lists
    it among its added records.  Every other record, every repository,
    the list of added repositories, the selection and the events are as
    they were. *)
Theorem updateMdOfCurrentAdr_edits_open_record (md : string) (s : Store)
  (c : loc) :
  currentlyEditedAdr s = Some c ->
  outcome (updateMdOfCurrentAdr naturalCase2snakeCase trim md) s = Normal tt ->
  let s' := exec (updateMdOfCurrentAdr naturalCase2snakeCase trim md) s in
  editedMd (adrAt s' c) = Holds md
  /\ originalMd (adrAt s' c) = originalMd (adrAt s c)
  /\ id (adrAt s' c) = id (adrAt s c)
  /\ (locally_added s c = false -> path (adrAt s' c) = path (adrAt s c))
  /\ (forall a, a <> c -> adrAt s' a = adrAt s a)
  /\ repoObjects s' = repoObjects s
  /\ addedRepositories s' = addedRepositories s
  /\ (currentlyEditedAdr s', currentRepository s', currentBranch s')
     = (currentlyEditedAdr s, currentRepository s, currentBranch s)
  /\ emitted s' = emitted s.
Proof.
  intros Hcur Hout s'. subst s'. revert Hout. unfold outcome, exec.
  rewrite updateMdOfCurrentAdr_eq, Hcur. cbv zeta.
  assert (Hframe : forall x,
            editedMd x = Holds md ->
            originalMd x = originalMd (adrAt s c) ->
            id x = id (adrAt s c) ->
            (locally_added s c = false -> path x = path (adrAt s c)) ->
            let s' := persisted (writeAdr c x s) in
            editedMd (adrAt s' c) = Holds md
            /\ originalMd (adrAt s' c) = originalMd (adrAt s c)
            /\ id (adrAt s' c) = id (adrAt s c)
            /\ (locally_added s c = false ->
                path (adrAt s' c) = path (adrAt s c))
            /\ (forall a, a <> c -> adrAt s' a = adrAt s a)
            /\ repoObjects s' = repoObjects s
            /\ addedRepositories s' = addedRepositories s
            /\ (currentlyEditedAdr s', currentRepository s', currentBranch s')
               = (Some c, currentRepository s, currentBranch s)
            /\ emitted s' = emitted s).
  { intros x He Ho Hi Hp s'.
    assert (Hc : adrAt s' c = x).
    { unfold s', adrAt, persisted, writeAdr. cbn.
      apply lookup_total_insert_eq. }
    rewrite Hc. split; [exact He |]. split; [exact Ho |].
    split; [exact Hi |]. split; [exact Hp |].
    split; [| split; [reflexivity | split; [reflexivity |]]].
    - intros a Hne. unfold s', adrAt, persisted, writeAdr. cbn.
      now apply lookup_total_insert_ne.
    - split; [| reflexivity]. unfold s'. cbn. now rewrite Hcur. }
  destruct (locally_added s c) eqn:El.
  - destruct (read (path (adrAt s c))) as [p |]; [| discriminate].
    intros _. cbn [snd]. apply Hframe; try reflexivity. discriminate.
  - intros _. cbn [snd]. apply Hframe; reflexivity.
Qed.

(** X24. [updateMdOfCurrentAdr] throws nothing but a [TypeError], and in
    two situations only.  When no record is open it throws at once and the
    state is untouched.  When the open record is listed among the added
    records of the current repository and has no path, it throws after
    the new text was put into the record and before the snapshot is
    written: the record is changed and the local storage is not. *)
Theorem updateMdOfCurrentAdr_failures (md : string) (s : Store) :
  let s' := exec (updateMdOfCurrentAdr naturalCase2snakeCase trim md) s in
  (currentlyEditedAdr s = None ->
   outcome (updateMdOfCurrentAdr naturalCase2snakeCase trim md) s
   = Abrupt TypeError /\ s' = s)
  /\ (forall c, currentlyEditedAdr s = Some c ->
        locally_added s c = true -> read (path (adrAt s c)) = None ->
        outcome (updateMdOfCurrentAdr naturalCase2snakeCase trim md) s
        = Abrupt TypeError
        /\ editedMd (adrAt s' c) = Holds md
        /\ localStorage s' = localStorage s)
  /\ (forall e,
        outcome (updateMdOfCurrentAdr naturalCase2snakeCase trim md) s
        = Abrupt e ->
        e = TypeError
        /\ (currentlyEditedAdr s = None
            \/ exists c, currentlyEditedAdr s = Some c
                         /\ locally_added s c = true
                         /\ read (path (adrAt s c)) = None)).
Proof.
  intros s'. subst s'. unfold outcome, exec.
  rewrite updateMdOfCurrentAdr_eq. split; [| split].
  - intros ->. now split.
  - intros c -> El Hp. cbv zeta. rewrite El, Hp. cbn [fst snd].
    split; [reflexivity |]. split; [| reflexivity].
    now rewrite adrAt_writeAdr.
  - intros e. destruct (currentlyEditedAdr s) as [c |]; cbv zeta.
    + destruct (locally_added s c) eqn:El; [| discriminate].
      destruct (read (path (adrAt s c))) eqn:Hp; [discriminate |].
      intros [= <-]. split; [reflexivity |]. right. now exists c.
    + intros [= <-]. split; [reflexivity | now left].
Qed.

End Editing.

(** ** Paths, segments and file names *)

Lemma free_of_append (c : ascii) (a b : string) :
  free_of c (a +:+ b) = free_of c a && free_of c b.
Proof.
  induction a as [| x a IH]; [reflexivity |].
  change (free_of c (String x (a +:+ b))
          = free_of c (String x a) && free_of c b).
  cbn [free_of]. rewrite IH. now rewrite andb_assoc.
Qed.

Lemma free_of_substring (c : ascii) (s : string) (n m : nat) :
  free_of c s = true -> free_of c (String.substring n m s) = true.
Proof.
  revert n m. induction s as [| x s IH]; intros n m H.
  - destruct n, m; reflexivity.
  - cbn [free_of] in H. apply andb_prop in H as [Hx Hs].
    destruct n as [| n]; cbn [String.substring].
    + destruct m as [| m]; [reflexivity |].
      cbn [free_of]. rewrite Hx. now apply IH.
    + now apply IH.
Qed.

Lemma free_of_repeat_string (c : ascii) (p : string) (n : nat) :
  free_of c p = true -> free_of c (repeat_string n p) = true.
Proof.
  intros Hp. induction n as [| n IH]; [reflexivity |].
  cbn [repeat_string]. now rewrite free_of_append, Hp, IH.
Qed.

Lemma free_of_padStart (c : ascii) (n : nat) (p s : string) :
  free_of c p = true -> free_of c s = true ->
  free_of c (padStart n p s) = true.
Proof.
  intros Hp Hs. unfold padStart.
  destruct (n <=? String.length s)%nat; [exact Hs |].
  destruct (String.eqb p ""); [exact Hs |].
  rewrite free_of_append, Hs, andb_true_r.
  now apply free_of_substring, free_of_repeat_string.
Qed.

Lemma free_of_string_of_uint (d : Decimal.uint) :
  free_of "/"%char (NilEmpty.string_of_uint d) = true.
Proof. induction d; cbn [NilEmpty.string_of_uint free_of]; auto. Qed.

Lemma free_of_toString (n : Z) : free_of "/"%char (toString n) = true.
Proof.
  unfold toString, NilZero.string_of_int, NilZero.string_of_uint.
  destruct (Z.to_int n) as [d | d].
  - destruct d; try reflexivity; apply free_of_string_of_uint.
  - cbn [free_of]. destruct d; try reflexivity; apply free_of_string_of_uint.
Qed.

Lemma free_of_new_adr_file (i : Z) : free_of "/"%char (new_adr_file i) = true.
Proof.
  unfold new_adr_file. rewrite free_of_append.
  rewrite (free_of_padStart "/"%char 4 "0" (toString i) eq_refl
             (free_of_toString i)).
  reflexivity.
Qed.

Lemma split_char_nonempty (c : ascii) (s : string) : split_char c s <> [].
Proof.
  destruct s as [| a s]; cbn [split_char]; [discriminate |].
  destruct (Ascii.eqb a c); [discriminate |].
  destruct (split_char c s); discriminate.
Qed.

Lemma split_char_free (c : ascii) (s : string) :
  free_of c s = true -> split_char c s = [s].
Proof.
  induction s as [| a s IH]; [reflexivity |]. cbn [free_of split_char].
  intros H. apply andb_prop in H as [Ha Hs].
  apply negb_true_iff in Ha. rewrite Ha, (IH Hs). reflexivity.
Qed.

Lemma split_char_app (c : ascii) (a rest : string) :
  free_of c a = true ->
  split_char c (a +:+ String c rest) = a :: split_char c rest.
Proof.
  induction a as [| x a IH]; intros H.
  - change (split_char c (String c rest) = "" :: split_char c rest).
    cbn [split_char]. now rewrite Ascii.eqb_refl.
  - cbn [free_of] in H. apply andb_prop in H as [Hx Ha].
    apply negb_true_iff in Hx.
    change (split_char c (String x (a +:+ String c rest))
            = String x a :: split_char c rest).
    cbn [split_char]. rewrite Hx, (IH Ha). reflexivity.
Qed.

Lemma split_char_segments_free (c : ascii) (s : string) :
  Forall (fun seg => free_of c seg = true) (split_char c s).
Proof.
  induction s as [| a s IH]; cbn [split_char].
  - constructor; [reflexivity | constructor].
  - destruct (Ascii.eqb a c) eqn:E.
    + constructor; [reflexivity | exact IH].
    + destruct (split_char c s) as [| seg segs].
      * constructor; [| constructor]. cbn [free_of]. now rewrite E.
      * inversion IH; subst. constructor; [| assumption].
        cbn [free_of]. rewrite E. assumption.
Qed.

Lemma split_char_concat (c : ascii) (segs : list string) :
  segs <> [] -> Forall (fun seg => free_of c seg = true) segs ->
  split_char c (String.concat (String c "") segs) = segs.
Proof.
  induction segs as [| x segs IH]; intros Hne Hall; [contradiction |].
  inversion Hall as [| ? ? Hx Hrest]; subst.
  destruct segs as [| y segs].
  - cbn [String.concat]. now apply split_char_free.
  - change (String.concat (String c "") (x :: y :: segs))
      with (x +:+ String c "" +:+ String.concat (String c "") (y :: segs)).
    change (String c "" +:+ String.concat (String c "") (y :: segs))
      with (String c (String.concat (String c "") (y :: segs))).
    rewrite (split_char_app c x _ Hx). f_equal.
    apply IH; [discriminate | exact Hrest].
Qed.

Lemma fileName_new_adr_path (i : Z) :
  fileName (new_adr_path i) = Some (new_adr_file i).
Proof.
  unfold fileName.
  change (new_adr_path i)
    with ("docs" +:+ String "/" ("adr" +:+ String "/" (new_adr_file i))).
  rewrite (split_char_app "/"%char "docs" _ eq_refl),
    (split_char_app "/"%char "adr" _ eq_refl),
    (split_char_free "/"%char _ (free_of_new_adr_file i)).
  reflexivity.
Qed.

Lemma Forall_removelast {A} (P : A -> Prop) (l : list A) :
  Forall P l -> Forall P (removelast l).
Proof.
  induction 1 as [| x l Hx Hl IH]; [constructor |].
  cbn [removelast]. destruct l; [constructor |]. now constructor.
Qed.

Section Renaming.

Variable naturalCase2snakeCase : string -> string.
Variable trim : string -> string.

(** X25. A record that is open and listed among the added records of the
    current repository is renamed by [updateMdOfCurrentAdr] within its
    directory: when the file name made from the identifier and the title
    holds no slash, the call returns normally, the path of the record ends
    in that file name, and the segments before it are those of the old
    path. *)
Theorem updateMdOfCurrentAdr_renames_in_directory (md : string) (s : Store)
  (c : loc) (p : string) :
  currentlyEditedAdr s = Some c ->
  locally_added s c = true ->
  read (path (adrAt s c)) = Some p ->
  free_of "/"%char
    (renamed_file naturalCase2snakeCase trim (id (adrAt s c)) md) = true ->
  let s' := exec (updateMdOfCurrentAdr naturalCase2snakeCase trim md) s in
  outcome (updateMdOfCurrentAdr naturalCase2snakeCase trim md) s = Normal tt
  /\ exists q,
       read (path (adrAt s' c)) = Some q
       /\ fileName q
          = Some (renamed_file naturalCase2snakeCase trim (id (adrAt s c)) md)
       /\ removelast (split_char "/"%char q)
          = removelast (split_char "/"%char p).
Proof.
  intros Hcur Hadded Hp Hfree s'. subst s'. unfold outcome, exec.
  rewrite (updateMdOfCurrentAdr_eq naturalCase2snakeCase trim md s).
  rewrite Hcur. cbv zeta. rewrite Hadded, Hp. cbn [fst snd].
  split; [reflexivity |].
  set (name := renamed_file naturalCase2snakeCase trim (id (adrAt s c)) md)
    in *.
  set (dir := removelast (split_char "/"%char p)).
  exists (String.concat "/" (dir ++ [name])).
  assert (Hsplit : split_char "/"%char (String.concat "/" (dir ++ [name]))
                   = dir ++ [name]).
  { apply split_char_concat.
    - destruct dir; discriminate.
    - apply Forall_app. split.
      + apply Forall_removelast, split_char_segments_free.
      + constructor; [exact Hfree | constructor]. }
  split; [| split].
  - unfold adrAt, persisted, writeAdr. cbn.
    now rewrite lookup_total_insert_eq.
  - unfold fileName. rewrite Hsplit. apply last_snoc.
  - rewrite Hsplit. apply removelast_last.
Qed.

End Renaming.

Lemma updateMdOfCurrentAdr_renames_in_directory_instance :
  currentlyEditedAdr new_record_opened = Some 4%positive
  /\ locally_added new_record_opened 4%positive = true
  /\ read (path (adrAt new_record_opened 4%positive))
     = Some "docs/adr/0001-unnamed.md"
  /\ outcome (updateMdOfCurrentAdr (fun t => t) (fun t => t) "# use-rocq")
       new_record_opened = Normal tt
  /\ exists q,
       read (path (adrAt
                     (exec (updateMdOfCurrentAdr (fun t => t) (fun t => t)
                              "# use-rocq") new_record_opened) 4%positive))
       = Some q
       /\ fileName q = Some "0001- use-rocq.md"
       /\ removelast (split_char "/"%char q) = ["docs"; "adr"].
Proof.
  assert (Hcur : currentlyEditedAdr new_record_opened = Some 4%positive)
    by (vm_compute; reflexivity).
  assert (Hadded : locally_added new_record_opened 4%positive = true)
    by (vm_compute; reflexivity).
  assert (Hp : read (path (adrAt new_record_opened 4%positive))
               = Some "docs/adr/0001-unnamed.md")
    by (vm_compute; reflexivity).
  split; [exact Hcur |]. split; [exact Hadded |]. split; [exact Hp |].
  exact (updateMdOfCurrentAdr_renames_in_directory (fun t => t) (fun t => t)
           "# use-rocq" new_record_opened 4%positive
           "docs/adr/0001-unnamed.md" Hcur Hadded Hp eq_refl).
Defined.

(** ** Opening the record that was just made *)

Lemma find_or_throw_last {A} (f : A -> completion bool) (l : list A) (x : A) :
  f x = Normal true ->
  Forall (fun y => y = x \/ f y = Normal false) l ->
  find_or_throw f (l ++ [x]) = Normal (Some x).
Proof.
  intros Hx. induction 1 as [| y l Hy _ IH]; cbn [app find_or_throw].
  - now rewrite Hx.
  - destruct Hy as [-> | Hy]; [now rewrite Hx | now rewrite Hy].
Qed.

Lemma find_ext_in {A} (f g : A -> bool) (l : list A) :
  (forall x, In x l -> f x = g x) -> List.find f l = List.find g l.
Proof.
  induction l as [| x l IH]; intros H; [reflexivity |]. cbn [List.find].
  rewrite (H x (or_introl eq_refl)). destruct (g x); [reflexivity |].
  apply IH. intros y Hy. apply H. now right.
Qed.

Lemma openAdr_listed_valid (s : Store) (r a : loc) :
  In r (addedRepositories s) -> In a (adrs (repoAt s r)) ->
  isValidAdr s (Some a) = true ->
  currentlyEditedAdr (exec (openAdr (Some a)) s) = Some a.
Proof.
  intros Hr Ha Hv. destruct (containing_exists s a r Hr Ha) as (r' & Hc).
  destruct (decide (currentlyEditedAdr s = Some a)) as [Hcur | Hcur].
  - unfold exec. rewrite (openAdr_noop (Some a) s) by (left; congruence).
    exact Hcur.
  - unfold exec. now rewrite (openAdr_opens a r' s Hcur Hv Hc).
Qed.

Lemma other_file_has_file_name (s : Store) (f : string) (a : loc) :
  other_file s f a -> has_file_name s f a = Normal false.
Proof.
  intros (q & Hq & Hne). unfold has_file_name. rewrite Hq. f_equal.
  apply bool_decide_eq_false. exact Hne.
Qed.

Section RoundTrip.

Variable md : string.

(** X26. The record [createNewAdr] makes can be opened by the file name it
    was given.  Let the repository be the first added one of its name, and
    let each of its records have a path that ends in another file name.
    Then [openAdrBy] with the name of the repository and the file name of
    the new record (its identifier padded with zeros to four characters,
    then [-unnamed.md]) returns the new record, and that record is the
    open one afterwards. *)
Theorem created_record_opens_by_file_name (s : Store) (repo : loc) :
  In repo (addedRepositories s) ->
  repositoryNamed s (fullName (repoAt s repo)) = Some repo ->
  Forall (other_file s (new_adr_file (nextId s repo)))
    (adrs (repoAt s repo)) ->
  exists newAdr s1,
    createNewAdr md repo s = (Normal (Some newAdr), s1)
    /\ outcome (openAdrBy (fullName (repoAt s repo))
                  (new_adr_file (nextId s repo))) s1
       = Normal (Some newAdr)
    /\ currentlyEditedAdr
         (exec (openAdrBy (fullName (repoAt s repo))
                  (new_adr_file (nextId s repo))) s1)
       = Some newAdr.
Proof.
  intros Hin Hfirst Hothers.
  set (a := fresh (dom (adrObjects s))).
  set (s1 := created md s repo).
  set (f := new_adr_file (nextId s repo)) in *.
  exists a, s1. split; [now apply createNewAdr_added |].
  assert (Ha : adrAt s1 a
               = mkADR Undefined (Holds md) (nextId s repo)
                   (Holds (new_adr_path (nextId s repo)))).
  { unfold s1, adrAt, created, writeRepo, writeAdr. cbn.
    now rewrite lookup_total_insert_eq. }
  assert (Hother : forall b, b <> a -> adrAt s1 b = adrAt s b).
  { intros b Hb. unfold s1, adrAt, created, writeRepo, writeAdr. cbn.
    now apply lookup_total_insert_ne. }
  assert (Hrepo : adrs (repoAt s1 repo) = adrs (repoAt s repo) ++ [a]).
  { unfold s1, created. now rewrite repoAt_writeRepo. }
  assert (Hname : forall x, fullName (repoAt s1 x) = fullName (repoAt s x)).
  { intros x. unfold s1, created. destruct (decide (x = repo)) as [-> | Hx].
    - now rewrite repoAt_writeRepo.
    - rewrite repoAt_writeRepo_ne by congruence. reflexivity. }
  assert (Hfirst1 : repositoryNamed s1 (fullName (repoAt s repo))
                    = Some repo).
  { rewrite <- Hfirst. unfold repositoryNamed.
    change (addedRepositories s1) with (addedRepositories s).
    apply find_ext_in. intros x _. now rewrite Hname. }
  assert (Hnew : has_file_name s1 f a = Normal true).
  { unfold has_file_name. rewrite Ha. cbn [path read]. f_equal.
    apply bool_decide_eq_true. apply fileName_new_adr_path. }
  assert (Hfound : find_or_throw (has_file_name s1 f) (adrs (repoAt s1 repo))
                   = Normal (Some a)).
  { rewrite Hrepo. apply find_or_throw_last; [exact Hnew |].
    eapply List.Forall_impl; [| exact Hothers].
    intros b Hb. destruct (decide (b = a)) as [-> | Hne]; [now left |].
    right. apply other_file_has_file_name.
    destruct Hb as (q & Hq & Hf). exists q.
    rewrite (Hother b Hne). now split. }
  assert (Heq : openAdrBy (fullName (repoAt s repo)) f s1
                = (Normal (Some a), exec (openAdr (Some a)) s1)).
  { rewrite openAdrBy_eq, Hfirst1, Hfound. reflexivity. }
  unfold outcome, exec at 1. rewrite Heq. cbn [fst snd].
  split; [reflexivity |].
  apply (openAdr_listed_valid s1 repo a).
  - exact Hin.
  - rewrite Hrepo. apply in_or_app. right. now left.
  - unfold isValidAdr. now rewrite Ha.
Qed.

End RoundTrip.

Lemma created_record_opens_by_file_name_instance :
  In 2%positive (addedRepositories two_added)
  /\ repositoryNamed two_added (fullName (repoAt two_added 2%positive))
     = Some 2%positive
  /\ new_adr_file (nextId two_added 2%positive) = "0004-unnamed.md"
  /\ exists newAdr s1,
       createNewAdr "# New" 2%positive two_added = (Normal (Some newAdr), s1)
       /\ outcome (openAdrBy "org/two" "0004-unnamed.md") s1
          = Normal (Some newAdr)
       /\ currentlyEditedAdr
            (exec (openAdrBy "org/two" "0004-unnamed.md") s1)
          = Some newAdr.
Proof.
  assert (Hin : In 2%positive (addedRepositories two_added))
    by (vm_compute; auto).
  assert (Hfirst : repositoryNamed two_added
                     (fullName (repoAt two_added 2%positive))
                   = Some 2%positive) by (vm_compute; reflexivity).
  assert (Hothers : Forall
                      (other_file two_added
                         (new_adr_file (nextId two_added 2%positive)))
                      (adrs (repoAt two_added 2%positive))).
  { change (adrs (repoAt two_added 2%positive)) with [2%positive].
    constructor; [| constructor].
    exists "docs/adr/0003-b.md". split; [reflexivity |].
    vm_compute. discriminate. }
  split; [exact Hin |]. split; [exact Hfirst |]. split; [reflexivity |].
  exact (created_record_opens_by_file_name "# New" two_added 2%positive
           Hin Hfirst Hothers).
Defined.

(** ** Deleting a record that is listed *)

Lemma findIndex_first {A} (f : A -> bool) (pre post : list A) (x : A) :
  Forall (fun y => f y = false) pre -> f x = true ->
  findIndex f (pre ++ x :: post) = Z.of_nat (length pre).
Proof.
  intros Hpre Hx. induction Hpre as [| y pre Hy _ IH]; cbn [app findIndex].
  - now rewrite Hx.
  - rewrite Hy, IH.
    assert (E : (Z.of_nat (length pre) <? 0) = false)
      by (apply Z.ltb_ge; lia).
    rewrite E. cbn [length]. lia.
Qed.

Lemma In_splice_removed {A} (l : list A) (i : Z) (x : A) :
  In x (snd (splice l i 1 [])) -> In x l.
Proof.
  unfold splice. cbn [snd app]. intros H.
  apply in_app_or in H as [H | H].
  - rewrite <- (firstn_skipn
                  (Z.to_nat (if i <? 0
                             then Z.max (Z.of_nat (length l) + i) 0
                             else Z.min i (Z.of_nat (length l)))) l).
    apply in_or_app. now left.
  - match type of H with
    | In x (skipn ?n l) =>
        rewrite <- (firstn_skipn n l); apply in_or_app; now right
    end.
Qed.

Lemma delete_first_occurrence (a : loc) (pre post : list loc) :
  ~ In a pre ->
  splice (pre ++ a :: post)
    (findIndex (fun adrEl => same_ref (Some adrEl) (Some a))
       (pre ++ a :: post)) 1 []
  = ([a], pre ++ post).
Proof.
  intros Hpre. rewrite findIndex_first.
  - apply (splice_at pre post a []).
  - apply List.Forall_forall. intros y Hy. apply same_ref_false.
    intros [= ->]. contradiction.
  - now apply same_ref_true.
Qed.

(** X27. [deleteAdr] of a record that the repository lists takes out its
    first occurrence and nothing else: the records before and after it
    keep their order, a later occurrence of the same record stays, the
    list of added records of the repository is left as it was, and so are
    every other repository and every record. *)
Theorem deleteAdr_removes_first_occurrence (s : Store) (a repo : loc)
  (pre post : list loc) :
  adrs (repoAt s repo) = pre ++ a :: post -> ~ In a pre ->
  let s' := exec (deleteAdr (Some a) repo) s in
  outcome (deleteAdr (Some a) repo) s = Normal tt
  /\ adrs (repoAt s' repo) = pre ++ post
  /\ addedAdrs (repoAt s' repo) = addedAdrs (repoAt s repo)
  /\ fullName (repoAt s' repo) = fullName (repoAt s repo)
  /\ (forall r, r <> repo -> repoAt s' r = repoAt s r)
  /\ adrObjects s' = adrObjects s
  /\ addedRepositories s' = addedRepositories s.
Proof.
  intros Hl Hpre s'. subst s'.
  destruct (deleteAdr_repo s (Some a) repo) as (Hout & Hrepo).
  split; [exact Hout |]. rewrite Hrepo. unfold spliced.
  cbn [adrs addedAdrs fullName]. rewrite Hl.
  rewrite (delete_first_occurrence a pre post Hpre). cbn [snd].
  split; [reflexivity |]. split; [reflexivity |]. split; [reflexivity |].
  unfold exec. rewrite deleteAdr_eq.
  destruct (assertSomeAdrIsOpened_frame
              (writeRepo repo (spliced s (Some a) repo) s))
    as (_ & Ha & Hr & Hadd & _).
  unfold exec in *. split; [| split; [exact Ha | exact Hadd]].
  intros r Hne. unfold repoAt at 1. rewrite Hr.
  apply (repoAt_writeRepo_ne s repo r); congruence.
Qed.

(** X28. When the open record is listed by one added repository only, and
    once, [deleteAdr] of that record from that repository never leaves it
    open: afterwards no added repository lists it, the open record is
    another one or none, and the selection invariant holds. *)
Theorem deleteAdr_closes_deleted_record (s : Store) (a repo : loc) :
  currentlyEditedAdr s = Some a ->
  (forall r, In r (addedRepositories s) -> In a (adrs (repoAt s r)) ->
             r = repo) ->
  List.NoDup (adrs (repoAt s repo)) ->
  let s' := exec (deleteAdr (Some a) repo) s in
  containing s' (Some a) = None
  /\ currentlyEditedAdr s' <> Some a
  /\ selection_invariant s'.
Proof.
  intros Hcur Honly Hnodup s'. subst s'. unfold exec. rewrite deleteAdr_eq.
  set (s1 := writeRepo repo (spliced s (Some a) repo) s).
  assert (Hgone : forall r, In r (addedRepositories s1) ->
                            ~ In a (adrs (repoAt s1 r))).
  { intros r Hr Ha. change (In r (addedRepositories s)) in Hr.
    destruct (decide (r = repo)) as [-> | Hne].
    - unfold s1 in Ha. rewrite repoAt_writeRepo in Ha.
      unfold spliced in Ha. cbn [adrs] in Ha.
      pose proof (In_splice_removed _ _ _ Ha) as Hin.
      apply in_split in Hin as (pre & post & Hl).
      assert (Hpre : ~ In a pre).
      { rewrite Hl in Hnodup. apply NoDup_remove_2 in Hnodup.
        intros H. apply Hnodup. apply in_or_app. now left. }
      assert (Hpost : ~ In a post).
      { rewrite Hl in Hnodup. apply NoDup_remove_2 in Hnodup.
        intros H. apply Hnodup. apply in_or_app. now right. }
      rewrite Hl, (delete_first_occurrence a pre post Hpre) in Ha.
      cbn [snd] in Ha. apply in_app_or in Ha as [H | H]; contradiction.
    - unfold s1 in Ha. rewrite repoAt_writeRepo_ne in Ha by congruence.
      apply Hne. now apply Honly. }
  assert (Hnone : forall s2, addedRepositories s2 = addedRepositories s1 ->
                             repoObjects s2 = repoObjects s1 ->
                             containing s2 (Some a) = None).
  { intros s2 Hadd Hr. apply containing_None. intros r Hin.
    rewrite Hadd in Hin. unfold repoAt. rewrite Hr.
    destruct (includes (adrs (repoObjects s1 !!! r)) (Some a)) eqn:E;
      [| reflexivity].
    apply includes_In in E. exfalso. exact (Hgone r Hin E). }
  assert (Hinv : selection_invariant (exec assertSomeAdrIsOpened s1)).
  { apply assertSomeAdrIsOpened_restores. intros Hn.
    destruct (not_stale s1 Hn) as (a' & r2 & Hc & _ & Hr2 & Ha2).
    change (currentlyEditedAdr s = Some a') in Hc.
    assert (a' = a) as -> by congruence.
    exfalso. exact (Hgone r2 Hr2 Ha2). }
  destruct (assertSomeAdrIsOpened_frame s1) as (_ & _ & Hr & Hadd & _).
  unfold exec in *.
  split; [exact (Hnone _ Hadd Hr) |]. split; [| exact Hinv].
  intros Hopen. destruct (Hinv a Hopen) as (_ & r & Hin & Ha & _).
  rewrite Hadd in Hin. unfold repoAt in Ha. rewrite Hr in Ha.
  exact (Hgone r Hin Ha).
Qed.

Lemma deleteAdr_removes_first_occurrence_instance :
  adrs (repoAt new_record_opened 1%positive) = [1%positive; 4%positive]
  /\ outcome (deleteAdr (Some 4%positive) 1%positive) new_record_opened
     = Normal tt
  /\ adrs (repoAt (exec (deleteAdr (Some 4%positive) 1%positive)
                     new_record_opened) 1%positive)
     = [1%positive]
  /\ addedAdrs (repoAt (exec (deleteAdr (Some 4%positive) 1%positive)
                          new_record_opened) 1%positive)
     = Some [4%positive].
Proof.
  assert (Hl : adrs (repoAt new_record_opened 1%positive)
               = [1%positive] ++ 4%positive :: [])
    by (vm_compute; reflexivity).
  assert (Hpre : ~ In 4%positive [1%positive])
    by (intros [H | []]; discriminate).
  destruct (deleteAdr_removes_first_occurrence new_record_opened 4%positive
              1%positive [1%positive] [] Hl Hpre)
    as (Hout & Hadrs & Hadded & _).
  split; [exact Hl |]. split; [exact Hout |]. split; [exact Hadrs |].
  refine (eq_trans Hadded _). vm_compute. reflexivity.
Defined.

Lemma deleteAdr_closes_deleted_record_instance :
  currentlyEditedAdr new_record_opened = Some 4%positive
  /\ adrs (repoAt new_record_opened 1%positive) = [1%positive; 4%positive]
  /\ addedRepositories new_record_opened = [1%positive]
  /\ containing (exec (deleteAdr (Some 4%positive) 1%positive)
                   new_record_opened) (Some 4%positive) = None
  /\ currentlyEditedAdr (exec (deleteAdr (Some 4%positive) 1%positive)
                           new_record_opened) = Some 1%positive.
Proof.
  assert (Hcur : currentlyEditedAdr new_record_opened = Some 4%positive)
    by (vm_compute; reflexivity).
  assert (Hl : adrs (repoAt new_record_opened 1%positive)
               = [1%positive; 4%positive]) by (vm_compute; reflexivity).
  assert (Hadd : addedRepositories new_record_opened = [1%positive])
    by (vm_compute; reflexivity).
  assert (Honly : forall r, In r (addedRepositories new_record_opened) ->
                            In 4%positive (adrs (repoAt new_record_opened r))
                            -> r = 1%positive).
  { intros r Hr _. rewrite Hadd in Hr. destruct Hr as [<- | []].
    reflexivity. }
  assert (Hnodup : List.NoDup (adrs (repoAt new_record_opened 1%positive))).
  { rewrite Hl. constructor.
    - intros [H | []]. discriminate.
    - constructor; [intros [] | constructor]. }
  destruct (deleteAdr_closes_deleted_record new_record_opened 4%positive
              1%positive Hcur Honly Hnodup) as (Hnone & _ & _).
  split; [exact Hcur |]. split; [exact Hl |]. split; [exact Hadd |].
  split; [exact Hnone |]. vm_compute. reflexivity.
Defined.

(** ** A batch that repeats a name *)

(** X29. [addRepositories] compares the incoming names with the names
    already added, never with one another: a batch none of whose names is
    taken is added whole, in order, even when two of its repositories bear
    the same full name, and the added names are then no longer pairwise
    distinct. *)
Theorem addRepositories_unchecked_batch (s : Store) (repoList : list loc) :
  alreadyAdded s repoList = [] ->
  ~ List.NoDup (map (fun repo => fullName (repoAt s repo)) repoList) ->
  let s' := exec (addRepositories repoList) s in
  outcome (addRepositories repoList) s = Normal tt
  /\ names s'
     = names s ++ map (fun repo => fullName (repoAt s repo)) repoList
  /\ ~ List.NoDup (names s').
Proof.
  intros Hnone Hdup s'. subst s'. unfold outcome, exec.
  rewrite (addRepositories_appends s repoList Hnone).
  destruct (assertSomeAdrIsOpened_frame (appended s repoList))
    as (Ho & _ & Hr & Hadd & _).
  unfold outcome, exec in *. split; [exact Ho |].
  assert (Hnames : names (assertSomeAdrIsOpened (appended s repoList)).2
                   = names s
                     ++ map (fun repo => fullName (repoAt s repo)) repoList).
  { unfold names, repoAt. rewrite Hr, Hadd.
    change (addedRepositories (appended s repoList))
      with (addedRepositories s ++ repoList).
    change (repoObjects (appended s repoList)) with (repoObjects s).
    apply map_app. }
  split; [exact Hnames |]. rewrite Hnames. intros Hnd.
  apply Hdup. now apply List.NoDup_app_remove_l in Hnd.
Qed.

Lemma addRepositories_unchecked_batch_instance :
  alreadyAdded first_visit [1%positive; 3%positive] = []
  /\ outcome (addRepositories [1%positive; 3%positive]) first_visit
     = Normal tt
  /\ names (exec (addRepositories [1%positive; 3%positive]) first_visit)
     = ["org/repo"; "org/repo"].
Proof.
  assert (Hnone : alreadyAdded first_visit [1%positive; 3%positive] = [])
    by (vm_compute; reflexivity).
  assert (Hdup : ~ List.NoDup
                     (map (fun repo => fullName (repoAt first_visit repo))
                        [1%positive; 3%positive])).
  { intros H. inversion H as [| x l Hx _]; subst. apply Hx.
    left. vm_compute. reflexivity. }
  destruct (addRepositories_unchecked_batch first_visit
              [1%positive; 3%positive] Hnone Hdup) as (Hout & Hnames & _).
  split; [exact Hnone |]. split; [exact Hout |].
  refine (eq_trans Hnames _). vm_compute. reflexivity.
Defined.

(** ** The branch that [setActiveBranch] records *)

Lemma assertSomeAdrIsOpened_branch (s : Store) :
  this_activeBranch (exec assertSomeAdrIsOpened s) = this_activeBranch s.
Proof.
  unfold exec.
  destruct (assertSomeAdrIsOpened_cases s)
    as [[_ ->] | [(_ & _ & ->) | (_ & b & r & _ & _ & _ & ->)]];
    reflexivity.
Qed.

Lemma openAdr_branch (adr : option loc) (s : Store) :
  this_activeBranch (exec (openAdr adr) s) = this_activeBranch s.
Proof.
  unfold exec.
  destruct (openAdr_cases adr s) as [-> | (a & r & _ & _ & _ & ->)];
    reflexivity.
Qed.

Lemma addRepositories_branch (repoList : list loc) (s : Store) :
  this_activeBranch (exec (addRepositories repoList) s) = this_activeBranch s.
Proof.
  unfold exec. destruct (alreadyAdded s repoList) as [| x l] eqn:E.
  - rewrite (addRepositories_appends s repoList E).
    exact (assertSomeAdrIsOpened_branch (appended s repoList)).
  - rewrite (addRepositories_throws s repoList) by (rewrite E; discriminate).
    reflexivity.
Qed.

Section ActiveBranch.

Variable adr2md_of_new_record : string.
Variable naturalCase2snakeCase : string -> string.
Variable trim : string -> string.
Variable instanceof_Repository : Repository -> bool.

(** X30. [setActiveBranch] writes a field of the store of its own,
    [activeBranch]: the current branch, the repositories, the selection
    and the local storage are left as they were.  No other method writes
    that field, so what [setActiveBranch] recorded stays until its next
    call. *)
Theorem setActiveBranch_field_apart (s : Store) :
  (forall branch,
     let s' := exec (setActiveBranch branch) s in
     outcome (setActiveBranch branch) s = Normal tt
     /\ this_activeBranch s' = Some branch
     /\ data s'
        = (currentRepository s, currentBranch s, currentlyEditedAdr s,
           addedRepositories s, mode s, Some branch, localStorage s,
           emitted s)
     /\ adrObjects s' = adrObjects s /\ repoObjects s' = repoObjects s)
  /\ (forall c, (forall branch, c <> call_setActiveBranch branch) ->
        this_activeBranch
          (after adr2md_of_new_record naturalCase2snakeCase trim
             instanceof_Repository c s)
        = this_activeBranch s).
Proof.
  split; [intros branch; repeat split |].
  intros c Hc. destruct c; cbn [after].
  - unfold exec, reload. run.
    destruct (item_addedRepositories (localStorage s)) as [text |];
      [| reflexivity].
    destruct (JSON_parse_spec text s) as (ls & s1 & E & X & _). rewrite E.
    destruct X as (_ & _ & Hd). injection Hd as _ _ _ _ _ Hb _ _.
    destruct (isValidRepoList instanceof_Repository s1 ls);
      [| cbn; exact Hb].
    pose proof (addRepositories_branch ls s1) as Ha. unfold exec in Ha.
    destruct (addRepositories ls s1) as [[[] | e] s2]; cbn [fst snd] in *;
      cbn; congruence.
  - reflexivity.
  - apply addRepositories_branch.
  - unfold exec. rewrite removeRepository_eq. cbn [snd].
    change (this_activeBranch
              (exec assertSomeAdrIsOpened
                 (set_addedRepositories (remaining s repoToRemove) s))
            = this_activeBranch s).
    now rewrite assertSomeAdrIsOpened_branch.
  - destruct (updateRepository_state updatedRepository s)
      as [-> | [-> | [adr ->]]]; try reflexivity.
    change (this_activeBranch
              (exec (openAdr adr)
                 (set_addedRepositories
                    (snd (splice (addedRepositories s)
                            (findIndex (fun repo =>
                               String.eqb (fullName (repoAt s repo))
                                 (fullName (repoAt s updatedRepository)))
                               (addedRepositories s)) 1
                            [updatedRepository])) s))
            = this_activeBranch s).
    now rewrite openAdr_branch.
  - exfalso. now apply (Hc branch).
  - apply assertSomeAdrIsOpened_branch.
  - unfold exec. rewrite openAnyAdr_eq. apply openAdr_branch.
  - destruct (openAdrBy_state repoFullName adrName s) as [-> | [adr ->]];
      [reflexivity | apply openAdr_branch].
  - apply openAdr_branch.
  - unfold exec. rewrite updateMdOfCurrentAdr_eq.
    destruct (currentlyEditedAdr s) as [a |]; [| reflexivity]. cbv zeta.
    destruct (locally_added s a); [| reflexivity].
    destruct (read (path (adrAt s a))); reflexivity.
  - unfold exec.
    destruct (in_dec Pos.eq_dec repo (addedRepositories s)) as [Hin | Hin].
    + now rewrite (createNewAdr_added adr2md_of_new_record s repo Hin).
    + now rewrite (createNewAdr_not_added adr2md_of_new_record s repo Hin).
  - unfold exec. rewrite deleteAdr_eq.
    exact (assertSomeAdrIsOpened_branch
             (writeRepo repo (spliced s adr repo) s)).
  - unfold exec, setMode. destruct (includes_string _ m); reflexivity.
Qed.

End ActiveBranch.

(** ** Instances on the sample states *)

Lemma selection_invariant_kept_instance :
  exclusively_listed three_added
  /\ selection_invariant three_added
  /\ selection_invariant
       (after "# New" (fun t => t) (fun t => t) (fun _ => true)
          (call_removeRepository 1%positive) three_added).
Proof.
  assert (Hex : exclusively_listed three_added).
  { intros a r1 r2 Ha H1 H2 L1 L2. vm_compute in Ha. injection Ha as <-.
    vm_compute in H1, H2.
    destruct H1 as [<- | [<- | [<- | []]]];
      destruct H2 as [<- | [<- | [<- | []]]];
      try reflexivity; exfalso; vm_compute in L1, L2;
      intuition discriminate. }
  assert (Hinv : selection_invariant three_added).
  { intros a Ha. vm_compute in Ha. injection Ha as <-.
    split; [reflexivity |]. exists 1%positive.
    repeat split; vm_compute; auto. }
  split; [exact Hex |]. split; [exact Hinv |].
  apply (selection_invariant_kept "# New" (fun t => t) (fun t => t)
           (fun _ => true) (call_removeRepository 1%positive) three_added);
    [intros u; discriminate | exact Hex | exact Hinv].
Defined.

Lemma mode_never_empty_instance :
  mode two_added = "basic"
  /\ mode (after "# New" (fun t => t) (fun t => t) (fun _ => true)
             (call_setMode "advanced") two_added) <> "".
Proof.
  assert (Hm : mode two_added = "basic") by (vm_compute; reflexivity).
  split; [exact Hm |].
  apply (mode_never_empty "# New" (fun t => t) (fun t => t) (fun _ => true)
           (call_setMode "advanced") two_added).
  rewrite Hm. discriminate.
Defined.

Lemma plain_objects_never_valid_instance :
  addedRepositories one_added = [1%positive]
  /\ stored_data_valid (fun _ => false) (serialized one_added) = false.
Proof.
  assert (Hl : addedRepositories one_added = [1%positive])
    by (vm_compute; reflexivity).
  split; [exact Hl |].
  apply (plain_objects_never_valid (fun _ => false) one_added).
  - intros r. reflexivity.
  - rewrite Hl. discriminate.
Defined.

Lemma updateMdOfCurrentAdr_edits_open_record_instance :
  currentlyEditedAdr two_added = Some 1%positive
  /\ outcome (updateMdOfCurrentAdr (fun t => t) (fun t => t) "# Edited")
       two_added = Normal tt
  /\ editedMd
       (adrAt (exec (updateMdOfCurrentAdr (fun t => t) (fun t => t)
                       "# Edited") two_added) 1%positive)
     = Holds "# Edited"
  /\ path
       (adrAt (exec (updateMdOfCurrentAdr (fun t => t) (fun t => t)
                       "# Edited") two_added) 1%positive)
     = Holds "docs/adr/0000-init.md".
Proof.
  assert (Hcur : currentlyEditedAdr two_added = Some 1%positive)
    by (vm_compute; reflexivity).
  assert (Hout : outcome (updateMdOfCurrentAdr (fun t => t) (fun t => t)
                            "# Edited") two_added = Normal tt)
    by (vm_compute; reflexivity).
  destruct (updateMdOfCurrentAdr_edits_open_record (fun t => t) (fun t => t)
              "# Edited" two_added 1%positive Hcur Hout)
    as (He & _ & _ & Hp & _).
  split; [exact Hcur |]. split; [exact Hout |]. split; [exact He |].
  refine (eq_trans (Hp _) _); vm_compute; reflexivity.
Defined.

Lemma updateMdOfCurrentAdr_failures_instance :
  currentlyEditedAdr first_visit = None
  /\ outcome (updateMdOfCurrentAdr (fun t => t) (fun t => t) "# Edited")
       first_visit = Abrupt TypeError
  /\ exec (updateMdOfCurrentAdr (fun t => t) (fun t => t) "# Edited")
       first_visit = first_visit.
Proof.
  assert (Hcur : currentlyEditedAdr first_visit = None) by reflexivity.
  split; [exact Hcur |].
  exact (proj1 (updateMdOfCurrentAdr_failures (fun t => t) (fun t => t)
                  "# Edited" first_visit) Hcur).
Defined.

Lemma setActiveBranch_field_apart_instance :
  this_activeBranch (exec (setActiveBranch "dev") two_added) = Some "dev"
  /\ currentBranch (exec (setActiveBranch "dev") two_added) = Some "main"
  /\ this_activeBranch
       (after "# New" (fun t => t) (fun t => t) (fun _ => true)
          (call_removeRepository 1%positive)
          (exec (setActiveBranch "dev") two_added))
     = Some "dev".
Proof.
  split; [reflexivity |]. split; [vm_compute; reflexivity |].
  refine (eq_trans
            (proj2 (setActiveBranch_field_apart "# New" (fun t => t)
                      (fun t => t) (fun _ => true)
                      (exec (setActiveBranch "dev") two_added))
               (call_removeRepository 1%positive) _) _).
  - intros branch. discriminate.
  - reflexivity.
Defined.
